(** * retryableredis: a reconnecting, retrying wrapper around one radix connection

    Shallow embedding of [retryableredis.go] (package [retryableredis]):
    the resilient connection [retryableRedisConn] with [Dial], [Reconnect],
    [ReconnectLoop], [Do] and its forwarding methods, and the two deferred
    command actions [RetryableFlatCmd] and [RetryableCmd].

    Go code is stateful; here every function is a computation in a small
    state-and-failure monad [M] over an explicit machine [State].  Pointers
    are addresses into the heaps of the machine, so that an object mutated by
    one call is the object the next call sees.  The radix library, the network
    and the clock are the environment: their answers come from the scripts of
    a [World] stored in the state, and every call that reaches them is
    recorded in a chronological [trace].  The two [for] loops may run forever;
    they take fuel, and [OutOfFuel] means that the loop is still running. *)

From Stdlib Require Import ZArith String List Lia Bool.
From stdpp Require Import base list strings.
Import ListNotations.

Local Open Scope string_scope.
Local Open Scope Z_scope.
Local Open Scope nat_scope.
Local Open Scope list_scope.

(** ** Go values *)

(** A non-nil Go [error]: whether its dynamic type satisfies the [net.Error]
    interface (the type assertion [err.(net.Error)]) and the text returned by
    [err.Error()]. *)
Record Error := mkError {
  err_is_net : bool;
  err_text : string
}.

(** The Go type [error]; [None] is [nil]. *)
Definition error := option Error.

(** Values of type [interface{}] as the command constructors receive them. *)
Inductive GoValue :=
| VNil
| VInt (z : Z)
| VStr (s : string)
| VPtr (addr : nat).

(** [time.Duration] counts nanoseconds. *)
Definition Duration := Z.
Definition Millisecond : Duration := 1000000%Z.

(** Handle of a transport connection produced by [radix.Dial]; the handle also
    names that connection's buffered writer and reader. *)
Definition ConnId := nat.

(** A [radix.DialOpt] is opaque to this package. *)
Definition DialOpt := nat.

(** The observers' own state: callbacks are closures of the caller, e.g. over a
    log as in the demo program. *)
Definition Log := list string.
Definition Callback := error -> Log -> Log.

(** [type DialConfig struct] *)
Record DialConfig := mkDialConfig {
  Network : string;
  Addr : string;
  OnReconnect : option Callback;
  OnRetry : option Callback;
  DialOpts : list DialOpt
}.

(** [type retryableRedisConn struct]: [inner] is a [radix.Conn] interface value
    ([None] is nil), [conf] a [*DialConfig]. *)
Record retryableRedisConn := mkConn {
  inner : option ConnId;
  conf : option DialConfig
}.

(** The protocol-level action objects built by [radix.Cmd] and
    [radix.FlatCmd].  [id] is the identity of the allocated object. *)
Inductive RadixAction :=
| RCmd (id : nat) (rcv : GoValue) (cmd : string) (args : list string)
| RFlatCmd (id : nat) (rcv : GoValue) (cmd key : string) (args : list GoValue).

Definition action_id (a : RadixAction) : nat :=
  match a with
  | RCmd id _ _ _ => id
  | RFlatCmd id _ _ _ _ => id
  end.

(** [type RetryableFlatCmd struct] *)
Record RetryableFlatCmd := mkFlat {
  flat_rcv : GoValue;
  flat_cmd : string;
  flat_key : string;
  flat_args : list GoValue;
  flat_inner : option RadixAction
}.

(** [type RetryableCmd struct]; the field [key] is declared but never
    assigned. *)
Record RetryableCmd := mkCmd {
  cmd_rcv : GoValue;
  cmd_cmd : string;
  cmd_key : string;
  cmd_args : list string;
  cmd_inner : option RadixAction
}.

(** A value of interface type [radix.Conn]: a transport connection of the
    radix library or a pointer to a wrapper of this package. *)
Inductive ConnRef :=
| RadixConn (c : ConnId)
| RetryableConn (rc : nat).

(** ** The environment *)

(** [radix.Dial(network, addr, opts...)] returns a connection or an error. *)
Inductive DialResult :=
| DialOk
| DialErr (e : Error).

Definition dial_error (r : DialResult) : error :=
  match r with
  | DialOk => None
  | DialErr e => Some e
  end.

(** What leaves the program, in the order it happens. *)
Inductive Event :=
| EvDial (network addr : string) (opts : list DialOpt)
| EvClose (c : ConnId)
| EvRun (conn : ConnRef) (a : RadixAction)
| EvMarshal (w : ConnId) (a : RadixAction)
| EvFlush (c : ConnId)
| EvUnmarshal (br : ConnId) (a : RadixAction)
| EvSleep (d : Duration)
| EvOnReconnect (cause : error)
| EvOnRetry (err : error).

(** The answers of the outside world: what the [n]-th call of [radix.Dial]
    returns, the error (or nil) of the [n]-th operation on a transport
    connection, and the keys radix reports for an action. *)
Record World := mkWorld {
  dial_script : nat -> DialResult;
  io_script : nat -> error;
  keys_script : RadixAction -> list string
}.

Record State := mkState {
  world : World;
  dials : nat;
  ios : nat;
  allocs : nat;
  conns : list retryableRedisConn;
  flats : list RetryableFlatCmd;
  cmds : list RetryableCmd;
  trace : list Event;
  obs : Log
}.

Definition set_dials (n : nat) (s : State) : State :=
  mkState (world s) n (ios s) (allocs s) (conns s) (flats s) (cmds s) (trace s) (obs s).
Definition set_ios (n : nat) (s : State) : State :=
  mkState (world s) (dials s) n (allocs s) (conns s) (flats s) (cmds s) (trace s) (obs s).
Definition set_allocs (n : nat) (s : State) : State :=
  mkState (world s) (dials s) (ios s) n (conns s) (flats s) (cmds s) (trace s) (obs s).
Definition set_conns (l : list retryableRedisConn) (s : State) : State :=
  mkState (world s) (dials s) (ios s) (allocs s) l (flats s) (cmds s) (trace s) (obs s).
Definition set_flats (l : list RetryableFlatCmd) (s : State) : State :=
  mkState (world s) (dials s) (ios s) (allocs s) (conns s) l (cmds s) (trace s) (obs s).
Definition set_cmds (l : list RetryableCmd) (s : State) : State :=
  mkState (world s) (dials s) (ios s) (allocs s) (conns s) (flats s) l (trace s) (obs s).
Definition set_trace (t : list Event) (s : State) : State :=
  mkState (world s) (dials s) (ios s) (allocs s) (conns s) (flats s) (cmds s) t (obs s).
Definition set_obs (o : Log) (s : State) : State :=
  mkState (world s) (dials s) (ios s) (allocs s) (conns s) (flats s) (cmds s) (trace s) o.

(** ** The monad *)

(** A call returns a value, panics (a nil dereference), or is still running
    when the fuel given to its loops is used up. *)
Inductive Res (A : Type) : Type :=
| Ret (a : A)
| Panic
| OutOfFuel.
Arguments Ret {A} a.
Arguments Panic {A}.
Arguments OutOfFuel {A}.

Definition M (A : Type) : Type := State -> Res A * State.

Definition ret {A} (a : A) : M A := fun s => (Ret a, s).

Definition bind {A B} (m : M A) (f : A -> M B) : M B :=
  fun s =>
    match m s with
    | (Ret a, s') => f a s'
    | (Panic, s') => (Panic, s')
    | (OutOfFuel, s') => (OutOfFuel, s')
    end.

Definition panic {A} : M A := fun s => (Panic, s).
Definition out_of_fuel {A} : M A := fun s => (OutOfFuel, s).

Declare Scope go_scope.
Delimit Scope go_scope with go.
Notation "x <- c1 ;; c2" := (bind c1 (fun x => c2))
  (at level 100, c1 at next level, right associativity) : go_scope.
Notation "c1 ;; c2" := (bind c1 (fun _ => c2))
  (at level 100, right associativity) : go_scope.
Local Open Scope go_scope.

(** Dereference of a nil-able value: nil panics. *)
Definition deref {A} (o : option A) : M A :=
  match o with
  | Some a => ret a
  | None => panic
  end.

Definition emit (ev : Event) : M unit :=
  fun s => (Ret tt, set_trace (trace s ++ [ev]) s).

(** One operation on a transport connection: recorded, and answered by the
    next entry of the I/O script. *)
Definition io (ev : Event) : M error :=
  fun s =>
    (Ret (io_script (world s) (ios s)),
     set_ios (S (ios s)) (set_trace (trace s ++ [ev]) s)).

(** [time.Sleep(d)] *)
Definition time_Sleep (d : Duration) : M unit := emit (EvSleep d).

(** Calling a configured callback: recorded, and run on the observers'
    state.  A callback is taken to return, and to reach nothing of the
    machine but that state. *)
Definition call (ev : Event) (cb : Callback) (arg : error) : M unit :=
  fun s => (Ret tt, set_obs (cb arg (obs s)) (set_trace (trace s ++ [ev]) s)).

(** The heap of wrappers: [&retryableRedisConn{...}], field reads and the
    store [rc.inner = v]. *)
Definition new_conn (w : retryableRedisConn) : M nat :=
  fun s => (Ret (length (conns s)), set_conns (conns s ++ [w]) s).

Definition load_conn (rc : nat) : M retryableRedisConn :=
  fun s => match conns s !! rc with
           | Some w => (Ret w, s)
           | None => (Panic, s)
           end.

Definition store_inner (rc : nat) (v : option ConnId) : M unit :=
  w <- load_conn rc ;;
  fun s => (Ret tt, set_conns (<[rc := mkConn v (conf w)]> (conns s)) s).

(** ** Interface values passed as arguments

    [resp.Marshaler], [resp.Unmarshaler] and [radix.Action] values are method
    tables closed over their receiver. *)
Record Marshaler := mkMarshaler { MarshalRESP : ConnId -> M error }.
Record Unmarshaler := mkUnmarshaler { UnmarshalRESP : ConnId -> M error }.
Record Action := mkAction { Run : ConnRef -> M error }.

(** ** The radix library, as this package uses it

    The package [github.com/mediocregopher/radix/v3] is imported, not part of
    the repository.  What the wrapper needs of it is modelled here from the
    capability contracts the specification lists for the external
    collaborator. *)
Module radix.

(** Modelled from the spec: [radix.Dial], the raw transport dial, which is
    missing from the sources: "Dial(network, address, options...) ->
    connection | error".  The call takes the next answer of the dial script; a
    successful dial hands out a new connection, a failed one a nil connection
    and the error. *)
Definition Dial (network addr : string) (opts : list DialOpt)
  : M (option ConnId * error) :=
  fun s =>
    let s' := set_dials (S (dials s))
                (set_trace (trace s ++ [EvDial network addr opts]) s) in
    match dial_script (world s) (dials s) with
    | DialOk => (Ret (Some (dials s), None), s')
    | DialErr e => (Ret (None, Some e), s')
    end.

(** Modelled from the spec: [radix.Cmd], missing from the sources, the
    constructor of "the protocol library's concrete command object": it
    allocates a new action object holding its arguments. *)
Definition Cmd (rcv : GoValue) (cmd : string) (args : list string)
  : M RadixAction :=
  fun s => (Ret (RCmd (allocs s) rcv cmd args), set_allocs (S (allocs s)) s).

(** Modelled from the spec: [radix.FlatCmd], missing from the sources, the
    same for the flat key-and-arguments form. *)
Definition FlatCmd (rcv : GoValue) (cmd key : string) (args : list GoValue)
  : M RadixAction :=
  fun s => (Ret (RFlatCmd (allocs s) rcv cmd key args),
            set_allocs (S (allocs s)) s).

(** Modelled from the spec: the methods of a radix action object, missing
    from the sources: "Action capability set: Keys() []string, Run(connection)
    error, MarshalRESP(writer) error, UnmarshalRESP(reader) error".  Each of
    the three that touch a connection is one operation on it, answered by the
    I/O script. *)
Definition action_MarshalRESP (a : RadixAction) (w : ConnId) : M error :=
  io (EvMarshal w a).

Definition action_UnmarshalRESP (a : RadixAction) (br : ConnId) : M error :=
  io (EvUnmarshal br a).

Definition action_Run (a : RadixAction) (conn : ConnRef) : M error :=
  io (EvRun conn a).

Definition action_Keys (a : RadixAction) : M (list string) :=
  fun s => (Ret (keys_script (world s) a), s).

(** A radix action as a [radix.Action] interface value. *)
Definition as_Action (a : RadixAction) : Action := mkAction (action_Run a).

(** Modelled from the spec: the methods of a radix transport connection,
    missing from the sources: "Connection capability set: Do(action) error,
    Encode(marshaler) error, Decode(unmarshaler) error, Close() error,
    RawConnection() underlying-socket".  [Do] runs the action on the
    connection itself ("Do delegates to the action's Run"); [Encode] and
    [Decode] call the hooks "the connection's Encode/Decode expect": [Encode]
    marshals onto the connection's writer and flushes it, [Decode] unmarshals
    from its reader. *)
Definition Do (c : ConnId) (a : Action) : M error := Run a (RadixConn c).

Definition Encode (c : ConnId) (m : Marshaler) : M error :=
  err <- MarshalRESP m c ;;
  match err with
  | Some _ => ret err
  | None => io (EvFlush c)
  end.

Definition Decode (c : ConnId) (um : Unmarshaler) : M error :=
  UnmarshalRESP um c.

Definition Close (c : ConnId) : M error := io (EvClose c).

Definition NetConn (c : ConnId) : M (option ConnId) := ret (Some c).

End radix.

(** ** The resilient connection *)

(** [func (rc *retryableRedisConn) Reconnect(cause error) error] *)
Definition Reconnect (rc : nat) (cause : error) : M error :=
  w <- load_conn rc ;;
  (match inner w with
   | Some c => radix.Close c ;; ret tt
   | None => ret tt
   end) ;;
  cfg <- deref (conf w) ;;
  (match OnReconnect cfg with
   | Some cb => call (EvOnReconnect cause) cb cause
   | None => ret tt
   end) ;;
  r <- radix.Dial (Network cfg) (Addr cfg) (DialOpts cfg) ;;
  store_inner rc (fst r) ;;
  ret (snd r).

(** [func (rc *retryableRedisConn) ReconnectLoop(cause error) error]; every
    turn of the [for] loop takes one unit of fuel. *)
Fixpoint ReconnectLoop (fuel : nat) (rc : nat) (cause : error) : M error :=
  match fuel with
  | O => out_of_fuel
  | S n =>
      err <- Reconnect rc cause ;;
      match err with
      | None => ret None
      | Some _ =>
          time_Sleep (Millisecond * 500)%Z ;;
          ReconnectLoop n rc err
      end
  end.

(** [func (rc *retryableRedisConn) Do(a radix.Action) error]; every turn of
    the [for] loop takes one unit of fuel, and the reconnect loop it starts
    gets what is left. *)
Fixpoint Do (fuel : nat) (rc : nat) (a : Action) : M error :=
  match fuel with
  | O => out_of_fuel
  | S n =>
      w <- load_conn rc ;;
      c <- deref (inner w) ;;
      err <- radix.Do c a ;;
      match err with
      | None => ret None
      | Some e =>
          if err_is_net e then
            ReconnectLoop n rc err ;;
            Do n rc a
          else if String.prefix "LOADING" (err_text e) then
            w' <- load_conn rc ;;
            cfg <- deref (conf w') ;;
            (match OnRetry cfg with
             | Some cb => call (EvOnRetry err) cb err
             | None => ret tt
             end) ;;
            time_Sleep (Millisecond * 250)%Z ;;
            Do n rc a
          else ret err
      end
  end.

(** [func (rc *retryableRedisConn) Close() error] *)
Definition Close (rc : nat) : M error :=
  w <- load_conn rc ;;
  c <- deref (inner w) ;;
  radix.Close c.

(** [func (rc *retryableRedisConn) Encode(m resp.Marshaler) error] *)
Definition Encode (rc : nat) (m : Marshaler) : M error :=
  w <- load_conn rc ;;
  c <- deref (inner w) ;;
  radix.Encode c m.

(** [func (rc *retryableRedisConn) Decode(um resp.Unmarshaler) error] *)
Definition Decode (rc : nat) (um : Unmarshaler) : M error :=
  w <- load_conn rc ;;
  c <- deref (inner w) ;;
  radix.Decode c um.

(** [func (rc *retryableRedisConn) NetConn() net.Conn] *)
Definition NetConn (rc : nat) : M (option ConnId) :=
  w <- load_conn rc ;;
  c <- deref (inner w) ;;
  radix.NetConn c.

(** [func Dial(conf *DialConfig) (radix.Conn, error)] *)
Definition Dial (conf : option DialConfig) : M (option ConnRef * error) :=
  rc <- new_conn (mkConn None conf) ;;
  err <- Reconnect rc None ;;
  ret (Some (RetryableConn rc), err).

(** [func ConnFunc(onReconnect func(error), onRetry func(error)) radix.ConnFunc] *)
Definition ConnFunc (onReconnect onRetry : option Callback)
  : string -> string -> M (option ConnRef * error) :=
  fun network addr =>
    Dial (Some (mkDialConfig network addr onReconnect onRetry [])).

(** Method calls on a [radix.Conn] interface value dispatch on its dynamic
    type. *)
Definition Conn_Encode (conn : ConnRef) (m : Marshaler) : M error :=
  match conn with
  | RadixConn c => radix.Encode c m
  | RetryableConn rc => Encode rc m
  end.

Definition Conn_Decode (conn : ConnRef) (um : Unmarshaler) : M error :=
  match conn with
  | RadixConn c => radix.Decode c um
  | RetryableConn rc => Decode rc um
  end.

(** ** The deferred command actions *)

Module RetryableFlatCmd.

Definition load (r : nat) : M RetryableFlatCmd :=
  fun s => match flats s !! r with
           | Some o => (Ret o, s)
           | None => (Panic, s)
           end.

(** The store [r.inner = v]. *)
Definition store_inner (r : nat) (v : option RadixAction) : M unit :=
  o <- load r ;;
  fun s =>
    (Ret tt,
     set_flats (<[r := mkFlat (flat_rcv o) (flat_cmd o) (flat_key o)
                         (flat_args o) v]> (flats s)) s).

(** [func (r *RetryableFlatCmd) getInner() radix.CmdAction] *)
Definition getInner (r : nat) : M (option RadixAction) :=
  o <- load r ;;
  (match flat_inner o with
   | None =>
       a <- radix.FlatCmd (flat_rcv o) (flat_cmd o) (flat_key o) (flat_args o) ;;
       store_inner r (Some a)
   | Some _ => ret tt
   end) ;;
  o' <- load r ;;
  ret (flat_inner o').

(** [func (r *RetryableFlatCmd) Keys() []string] *)
Definition Keys (r : nat) : M (list string) :=
  i <- getInner r ;;
  a <- deref i ;;
  radix.action_Keys a.

(** [func (r *RetryableFlatCmd) Run(conn radix.Conn) error] is defined below,
    after the two methods it reaches through the connection. *)

(** [func (c *RetryableFlatCmd) MarshalRESP(w io.Writer) error] *)
Definition MarshalRESP (c : nat) (w : ConnId) : M error :=
  i <- getInner c ;;
  a <- deref i ;;
  radix.action_MarshalRESP a w.

(** [func (c *RetryableFlatCmd) UnmarshalRESP(br *bufio.Reader) error] *)
Definition UnmarshalRESP (c : nat) (br : ConnId) : M error :=
  i <- getInner c ;;
  a <- deref i ;;
  err <- radix.action_UnmarshalRESP a br ;;
  store_inner c None ;;
  ret err.

(** [func (r *RetryableFlatCmd) Run(conn radix.Conn) error] *)
Definition Run (r : nat) (conn : ConnRef) : M error :=
  err <- Conn_Encode conn (mkMarshaler (MarshalRESP r)) ;;
  match err with
  | Some _ => ret err
  | None => Conn_Decode conn (mkUnmarshaler (UnmarshalRESP r))
  end.

(** The pointer as a [radix.Action] interface value. *)
Definition as_Action (r : nat) : Action := mkAction (Run r).

End RetryableFlatCmd.

(** [func FlatCmd(rcv interface{}, cmd, key string, args ...interface{}) radix.CmdAction];
    the result is the pointer to the new [RetryableFlatCmd]. *)
Definition FlatCmd (rcv : GoValue) (cmd key : string) (args : list GoValue)
  : M nat :=
  a <- radix.FlatCmd rcv cmd key args ;;
  fun s =>
    (Ret (length (flats s)),
     set_flats (flats s ++ [mkFlat rcv cmd key args (Some a)]) s).

Module RetryableCmd.

Definition load (r : nat) : M RetryableCmd :=
  fun s => match cmds s !! r with
           | Some o => (Ret o, s)
           | None => (Panic, s)
           end.

(** The store [r.inner = v]. *)
Definition store_inner (r : nat) (v : option RadixAction) : M unit :=
  o <- load r ;;
  fun s =>
    (Ret tt,
     set_cmds (<[r := mkCmd (cmd_rcv o) (cmd_cmd o) (cmd_key o)
                        (cmd_args o) v]> (cmds s)) s).

(** [func (r *RetryableCmd) getInner() radix.CmdAction] *)
Definition getInner (r : nat) : M (option RadixAction) :=
  o <- load r ;;
  (match cmd_inner o with
   | None =>
       a <- radix.Cmd (cmd_rcv o) (cmd_cmd o) (cmd_args o) ;;
       store_inner r (Some a)
   | Some _ => ret tt
   end) ;;
  o' <- load r ;;
  ret (cmd_inner o').

(** [func (r *RetryableCmd) Keys() []string] *)
Definition Keys (r : nat) : M (list string) :=
  i <- getInner r ;;
  a <- deref i ;;
  radix.action_Keys a.

(** [func (r *RetryableCmd) Run(conn radix.Conn) error] is defined below,
    after the two methods it reaches through the connection. *)

(** [func (c *RetryableCmd) MarshalRESP(w io.Writer) error] *)
Definition MarshalRESP (c : nat) (w : ConnId) : M error :=
  i <- getInner c ;;
  a <- deref i ;;
  radix.action_MarshalRESP a w.

(** [func (c *RetryableCmd) UnmarshalRESP(br *bufio.Reader) error] *)
Definition UnmarshalRESP (c : nat) (br : ConnId) : M error :=
  i <- getInner c ;;
  a <- deref i ;;
  err <- radix.action_UnmarshalRESP a br ;;
  store_inner c None ;;
  ret err.

(** [func (r *RetryableCmd) Run(conn radix.Conn) error] *)
Definition Run (r : nat) (conn : ConnRef) : M error :=
  err <- Conn_Encode conn (mkMarshaler (MarshalRESP r)) ;;
  match err with
  | Some _ => ret err
  | None => Conn_Decode conn (mkUnmarshaler (UnmarshalRESP r))
  end.

(** The pointer as a [radix.Action] interface value. *)
Definition as_Action (r : nat) : Action := mkAction (Run r).

End RetryableCmd.

(** [func Cmd(rcv interface{}, cmd string, args ...string) radix.CmdAction];
    the result is the pointer to the new [RetryableCmd], whose [key] is the
    zero value. *)
Definition Cmd (rcv : GoValue) (cmd : string) (args : list string) : M nat :=
  a <- radix.Cmd rcv cmd args ;;
  fun s =>
    (Ret (length (cmds s)),
     set_cmds (cmds s ++ [mkCmd rcv cmd "" args (Some a)]) s).

(** ** The demo program *)

(** The call [rc.Do(a)] on a [radix.Conn] interface value. *)
Definition Conn_Do (fuel : nat) (conn : ConnRef) (a : Action) : M error :=
  match conn with
  | RadixConn c => radix.Do c a
  | RetryableConn rc => Do fuel rc a
  end.

(** [func fill(rc radix.Conn)] of the demo: the loop
    [for i := 0; i < 100000; i++] from counter [i] with [n] turns left; the
    error of each [Do] is dropped. *)
Fixpoint fill_from (fuel : nat) (rc : ConnRef) (i : Z) (n : nat) : M unit :=
  match n with
  | O => ret tt
  | S n' =>
      a <- radix.FlatCmd VNil "HSET" "testing_h" [VInt i; VStr "wew"] ;;
      Conn_Do fuel rc (radix.as_Action a) ;;
      fill_from fuel rc (i + 1)%Z n'
  end.

Definition fill (fuel : nat) (rc : ConnRef) : M unit :=
  fill_from fuel rc 0%Z (Z.to_nat 100000).

(** The runs [fill] makes on connection [c]: [n] commands with counters from
    [i], each an action of its own, allocated from [k] on. *)
Fixpoint fill_events (c : ConnId) (k : nat) (i : Z) (n : nat) : list Event :=
  match n with
  | O => []
  | S n' =>
      EvRun (RadixConn c)
        (RFlatCmd k VNil "HSET" "testing_h" [VInt i; VStr "wew"])
      :: fill_events c (S k) (i + 1)%Z n'
  end.

(** ** Reading traces *)

(** Causes handed to the reconnect callback, in order. *)
Fixpoint reconnect_causes (t : list Event) : list error :=
  match t with
  | [] => []
  | EvOnReconnect cause :: t' => cause :: reconnect_causes t'
  | _ :: t' => reconnect_causes t'
  end.

(** Number of calls of [radix.Dial]. *)
Fixpoint dial_count (t : list Event) : nat :=
  match t with
  | [] => 0
  | EvDial _ _ _ :: t' => S (dial_count t')
  | _ :: t' => dial_count t'
  end.

(** Durations slept, in order. *)
Fixpoint sleeps (t : list Event) : list Duration :=
  match t with
  | [] => []
  | EvSleep d :: t' => d :: sleeps t'
  | _ :: t' => sleeps t'
  end.

Definition is_callback (ev : Event) : bool :=
  match ev with
  | EvOnReconnect _ | EvOnRetry _ => true
  | _ => false
  end.

(** Events of the loading-retry path of [Do]. *)
Definition is_loading_retry (ev : Event) : bool :=
  match ev with
  | EvOnRetry _ => true
  | EvSleep d => Z.eqb d (Millisecond * 250)
  | _ => false
  end.

(** Events of one reconnect attempt on a wrapper whose connection is [i]:
    close the old connection if there is one, tell the observer, dial. *)
Definition attempt_events (cfg : DialConfig) (i : option ConnId) (cause : error)
  : list Event :=
  match i with Some c => [EvClose c] | None => [] end ++
  match OnReconnect cfg with Some _ => [EvOnReconnect cause] | None => [] end ++
  [EvDial (Network cfg) (Addr cfg) (DialOpts cfg)].

(** Events of a reconnect loop whose attempts fail with [errs], one after the
    other, and then succeed. *)
Fixpoint reconnect_events (cfg : DialConfig) (i : option ConnId) (cause : error)
    (errs : list Error) : list Event :=
  match errs with
  | [] => attempt_events cfg i cause
  | e :: errs' =>
      attempt_events cfg i cause ++ [EvSleep (Millisecond * 500)%Z] ++
      reconnect_events cfg None (Some e) errs'
  end.

(** ** Erasing the callbacks *)

Definition strip_cfg (cfg : DialConfig) : DialConfig :=
  mkDialConfig (Network cfg) (Addr cfg) None None (DialOpts cfg).

Definition strip_conn (w : retryableRedisConn) : retryableRedisConn :=
  mkConn (inner w) (option_map strip_cfg (conf w)).

(** The machine with every callback removed from every configuration, the
    callback events removed from the trace, and the observers' state [o]. *)
Definition strip (o : Log) (s : State) : State :=
  mkState (world s) (dials s) (ios s) (allocs s)
          (strip_conn <$> conns s) (flats s) (cmds s)
          (List.filter (fun ev => negb (is_callback ev)) (trace s)) o.

(** A computation that neither looks at callbacks nor calls one: it commutes
    with their erasure. *)
Definition blind {A} (m : M A) : Prop :=
  forall o s, m (strip o s) = (fst (m s), strip o (snd (m s))).

(** ** Reading the action objects *)

(** The transport connection a [radix.Conn] value leads to. *)
Definition conn_target (conn : ConnRef) (s : State) : option ConnId :=
  match conn with
  | RadixConn c => Some c
  | RetryableConn rc =>
      match conns s !! rc with
      | Some w => inner w
      | None => None
      end
  end.

(** The object [o] with its [inner] field set to [v]. *)
Definition flat_with (o : RetryableFlatCmd) (v : option RadixAction)
  : RetryableFlatCmd :=
  mkFlat (flat_rcv o) (flat_cmd o) (flat_key o) (flat_args o) v.

Definition cmd_with (o : RetryableCmd) (v : option RadixAction)
  : RetryableCmd :=
  mkCmd (cmd_rcv o) (cmd_cmd o) (cmd_key o) (cmd_args o) v.

(** What [radix.FlatCmd] and [radix.Cmd] build from the stored parameters
    when [n] objects have been allocated before. *)
Definition flat_fresh (o : RetryableFlatCmd) (n : nat) : RadixAction :=
  RFlatCmd n (flat_rcv o) (flat_cmd o) (flat_key o) (flat_args o).

Definition cmd_fresh (o : RetryableCmd) (n : nat) : RadixAction :=
  RCmd n (cmd_rcv o) (cmd_cmd o) (cmd_args o).

(** The bound action [getInner] answers with: the one in place, or a new
    one. *)
Definition flat_bound (o : RetryableFlatCmd) (n : nat) : RadixAction :=
  match flat_inner o with
  | Some a => a
  | None => flat_fresh o n
  end.

Definition cmd_bound (o : RetryableCmd) (n : nat) : RadixAction :=
  match cmd_inner o with
  | Some a => a
  | None => cmd_fresh o n
  end.

(** The bound action of an object is one built earlier from the object's own
    parameters. *)
Definition flat_ok (o : RetryableFlatCmd) (s : State) : Prop :=
  forall a, flat_inner o = Some a ->
            exists n, n < allocs s /\ a = flat_fresh o n.

Definition cmd_ok (o : RetryableCmd) (s : State) : Prop :=
  forall a, cmd_inner o = Some a ->
            exists n, n < allocs s /\ a = cmd_fresh o n.

(** The machine once [getInner] has made sure that the object [o], stored at
    [r], is bound. *)
Definition flat_bind_state (r : nat) (o : RetryableFlatCmd) (s : State) : State :=
  match flat_inner o with
  | Some _ => s
  | None =>
      set_flats (<[r := flat_with o (Some (flat_fresh o (allocs s)))]> (flats s))
                (set_allocs (S (allocs s)) s)
  end.

Definition cmd_bind_state (r : nat) (o : RetryableCmd) (s : State) : State :=
  match cmd_inner o with
  | Some _ => s
  | None =>
      set_cmds (<[r := cmd_with o (Some (cmd_fresh o (allocs s)))]> (cmds s))
               (set_allocs (S (allocs s)) s)
  end.

(** ** Reading traces, continued *)

(** Errors handed to the retry callback, in order. *)
Fixpoint retry_errors (t : list Event) : list error :=
  match t with
  | [] => []
  | EvOnRetry err :: t' => err :: retry_errors t'
  | _ :: t' => retry_errors t'
  end.

(** Connections closed, in order. *)
Fixpoint closed (t : list Event) : list ConnId :=
  match t with
  | [] => []
  | EvClose c :: t' => c :: closed t'
  | _ :: t' => closed t'
  end.

(** Actions marshalled, in order, and actions unmarshalled, in order. *)
Fixpoint marshalled (t : list Event) : list RadixAction :=
  match t with
  | [] => []
  | EvMarshal _ a :: t' => a :: marshalled t'
  | _ :: t' => marshalled t'
  end.

Fixpoint unmarshalled (t : list Event) : list RadixAction :=
  match t with
  | [] => []
  | EvUnmarshal _ a :: t' => a :: unmarshalled t'
  | _ :: t' => unmarshalled t'
  end.

(** Events of a [Do] on a plain radix action [a] whose runs on connection [c]
    fail with the loading errors [errs], one after the other, before a last
    run. *)
Fixpoint loading_events (cfg : DialConfig) (c : ConnId) (a : RadixAction)
    (errs : list Error) : list Event :=
  match errs with
  | [] => [EvRun (RadixConn c) a]
  | e :: errs' =>
      [EvRun (RadixConn c) a] ++
      match OnRetry cfg with Some _ => [EvOnRetry (Some e)] | None => [] end ++
      [EvSleep (Millisecond * 250)%Z] ++
      loading_events cfg c a errs'
  end.

(** An error that [Do] hands back: not a [net.Error], no LOADING text. *)
Definition terminal (e : Error) : Prop :=
  err_is_net e = false /\ String.prefix "LOADING" (err_text e) = false.

(** An error that sends [Do] down the loading-retry path. *)
Definition loading (e : Error) : Prop :=
  err_is_net e = false /\ String.prefix "LOADING" (err_text e) = true.

(** What ends a [Do]: nil or a terminal error. *)
Definition final (res : error) : Prop :=
  match res with
  | None => True
  | Some e => terminal e
  end.

(** ** Sample machines *)

Definition loading_err : Error :=
  mkError false "LOADING Redis is loading the dataset in memory".

Definition wrongtype_err : Error :=
  mkError false "WRONGTYPE Operation against a key holding the wrong kind of value".

Definition reset_err : Error :=
  mkError true "read tcp 127.0.0.1:6379: connection reset by peer".

Definition refused_err : Error :=
  mkError true "dial tcp 127.0.0.1:6379: connect: connection refused".

(** A [net.Error] whose text happens to begin with LOADING. *)
Definition loading_net_err : Error :=
  mkError true "LOADING interrupted: connection reset by peer".

(** The configuration of the demo program: both callbacks log a line. *)
Definition demo_cfg : DialConfig :=
  mkDialConfig "tcp" "localhost:6379"
    (Some (fun _ l => "Reconnect triggered" :: l))
    (Some (fun _ l => "Retry triggered" :: l))
    [].

(** [radix.Cmd(&r, "INCR", "test")], the action of the demo program. *)
Definition incr_test : RadixAction := RCmd 0 (VPtr 0) "INCR" ["test"].

(** Scripts given by their first answers; later dials succeed and later
    operations return nil.  The keys of an action are its key, or its first
    argument. *)
Definition keys_of (a : RadixAction) : list string :=
  match a with
  | RCmd _ _ _ args => firstn 1 args
  | RFlatCmd _ _ _ key _ => [key]
  end.

Definition dials_of (l : list DialResult) : nat -> DialResult :=
  fun n => List.nth n l DialOk.

Definition ios_of (l : list error) : nat -> error :=
  fun n => List.nth n l None.

(** The machine before anything has run. *)
Definition boot (ds : list DialResult) (es : list error) : State :=
  mkState (mkWorld (dials_of ds) (ios_of es) keys_of) 0 0 0 [] [] [] [] [].

(** The machine after a successful [Dial] with [demo_cfg]: wrapper 0 holds
    connection 0. *)
Definition dialled (ds : list DialResult) (es : list error) : State :=
  mkState (mkWorld (dials_of (DialOk :: ds)) (ios_of es) keys_of) 1 0 0
          [mkConn (Some 0) (Some demo_cfg)] [] [] [] [].

(** The same after the allocation of [incr_test]. *)
Definition connected (ds : list DialResult) (es : list error) : State :=
  set_allocs 1 (dialled ds es).

(** The demo's flat command, [HSET testing_h 5 "wew"], as an object at
    address 0 bound to the action its constructor allocated. *)
Definition hset_obj : RetryableFlatCmd :=
  mkFlat VNil "HSET" "testing_h" [VInt 5; VStr "wew"]
         (Some (RFlatCmd 0 VNil "HSET" "testing_h" [VInt 5; VStr "wew"])).

Definition incr_obj : RetryableCmd :=
  mkCmd (VPtr 0) "INCR" "" ["test"] (Some (RCmd 0 (VPtr 0) "INCR" ["test"])).

Definition with_hset (es : list error) : State :=
  set_flats [hset_obj] (set_allocs 1 (dialled [] es)).

Definition with_incr (es : list error) : State :=
  set_cmds [incr_obj] (set_allocs 1 (dialled [] es)).

(** A connected machine whose server has gone for good: every dial fails. *)
Definition stranded (es : list error) : State :=
  mkState (mkWorld (fun _ => DialErr refused_err) (ios_of es) keys_of) 1 0 1
          [mkConn (Some 0) (Some demo_cfg)] [] [] [] [].

(** * Properties *)

(** ** One turn of the loops *)

Ltac mred :=
  repeat (progress (cbn;
    unfold bind, ret, panic, out_of_fuel, deref, emit, io, call, time_Sleep,
      new_conn, load_conn, store_inner, radix.Dial, radix.Close, radix.Cmd,
      radix.FlatCmd, radix.NetConn, radix.action_MarshalRESP,
      radix.action_UnmarshalRESP, radix.action_Run)).
Lemma Reconnect_run rc cause w cfg s :
  conns s !! rc = Some w ->
  conf w = Some cfg ->
  exists s',
    Reconnect rc cause s = (Ret (dial_error (dial_script (world s) (dials s))), s')
    /\ world s' = world s
    /\ dials s' = S (dials s)
    /\ ios s' = (match inner w with Some _ => S (ios s) | None => ios s end)
    /\ allocs s' = allocs s
    /\ conns s' =
         <[rc := mkConn (match dial_script (world s) (dials s) with
                         | DialOk => Some (dials s)
                         | DialErr _ => None
                         end) (Some cfg)]> (conns s)
    /\ flats s' = flats s
    /\ cmds s' = cmds s
    /\ trace s' = trace s ++ attempt_events cfg (inner w) cause
    /\ obs s' = (match OnReconnect cfg with
                 | Some cb => cb cause (obs s)
                 | None => obs s
                 end).
Proof.
  intros Hw Hcfg.
  unfold Reconnect, attempt_events.
  mred; rewrite Hw; mred; rewrite Hcfg.
  destruct (inner w) as [c|]; mred;
    (destruct (OnReconnect cfg) as [cb|]; mred;
     (destruct (dial_script (world s) (dials s)) as [|e] eqn:Hd; mred;
      rewrite Hw; mred; rewrite Hcfg)).
  all: eexists; (split; [reflexivity|]); cbn;
    rewrite <- ?app_assoc; cbn; repeat split; reflexivity.
Qed.

Lemma reconnect_causes_app t1 t2 :
  reconnect_causes (t1 ++ t2) = reconnect_causes t1 ++ reconnect_causes t2.
Proof.
  induction t1 as [|ev t1 IH]; [reflexivity|].
  destruct ev; cbn; rewrite ?IH; reflexivity.
Qed.

Lemma dial_count_app t1 t2 :
  dial_count (t1 ++ t2) = dial_count t1 + dial_count t2.
Proof.
  induction t1 as [|ev t1 IH]; [reflexivity|].
  destruct ev; cbn; rewrite ?IH; reflexivity.
Qed.

Lemma sleeps_app t1 t2 : sleeps (t1 ++ t2) = sleeps t1 ++ sleeps t2.
Proof.
  induction t1 as [|ev t1 IH]; [reflexivity|].
  destruct ev; cbn; rewrite ?IH; reflexivity.
Qed.

(** ** The reconnect loop *)

(** Attempts that fail with [errs] and then succeed: the loop returns nil
    right after the first success, with the new connection stored. *)
Lemma ReconnectLoop_success rc errs :
  forall fuel cause w cfg s,
    conns s !! rc = Some w ->
    conf w = Some cfg ->
    (forall i e, errs !! i = Some e ->
                 dial_script (world s) (dials s + i) = DialErr e) ->
    dial_script (world s) (dials s + length errs) = DialOk ->
    length errs < fuel ->
    exists s',
      ReconnectLoop fuel rc cause s = (Ret None, s')
      /\ world s' = world s
      /\ dials s' = S (dials s + length errs)
      /\ ios s' = (match inner w with Some _ => S (ios s) | None => ios s end)
      /\ allocs s' = allocs s
      /\ conns s' =
           <[rc := mkConn (Some (dials s + length errs)) (Some cfg)]> (conns s)
      /\ flats s' = flats s
      /\ cmds s' = cmds s
      /\ trace s' = trace s ++ reconnect_events cfg (inner w) cause errs.
Proof.
  induction errs as [|e errs IH]; intros fuel cause w cfg s Hw Hcfg Hfail Hok Hfuel;
    (destruct fuel as [|fuel]; [cbn in Hfuel; lia|]);
    destruct (Reconnect_run rc cause w cfg s Hw Hcfg)
      as (s1 & HR & Hwd & Hd & Hio & Hal & Hc & Hfl & Hcm & Htr & Hob);
    cbn [ReconnectLoop]; unfold bind at 1; rewrite HR.
  - cbn [length] in *. rewrite Nat.add_0_r in *. rewrite Hok in *. cbn.
    exists s1. repeat split; try assumption.
  - pose proof (Hfail 0 e eq_refl) as H0. rewrite Nat.add_0_r in H0.
    rewrite H0 in *. cbn [dial_error].
    assert (Hlt : rc < length (conns s)) by (eapply lookup_lt_Some; eassumption).
    set (s2 := set_trace (trace s1 ++ [EvSleep (Millisecond * 500)%Z]) s1).
    destruct (IH fuel (Some e) (mkConn None (Some cfg)) cfg s2)
      as (s' & HL & Hwd' & Hd' & Hio' & Hal' & Hc' & Hfl' & Hcm' & Htr').
    + cbn. rewrite Hc. apply list_lookup_insert_eq. exact Hlt.
    + reflexivity.
    + intros i e' Hi. cbn. rewrite Hwd, Hd.
      replace (S (dials s) + i) with (dials s + S i) by lia.
      apply Hfail. exact Hi.
    + cbn. rewrite Hwd, Hd.
      replace (S (dials s) + length errs) with (dials s + length (e :: errs))
        by (cbn; lia).
      exact Hok.
    + cbn in Hfuel. lia.
    + exists s'. split.
      { unfold bind, time_Sleep, emit. fold s2. exact HL. }
      cbn in Hwd', Hd', Hio', Hal', Hc', Hfl', Hcm', Htr'.
      repeat split.
      * congruence.
      * rewrite Hd', Hd. cbn. lia.
      * rewrite Hio', Hio. reflexivity.
      * congruence.
      * rewrite Hc', Hc, list_insert_insert_eq.
        replace (S (dials s) + length errs) with (dials s + length (e :: errs))
          by (cbn; lia).
        rewrite Hd. cbn [length].
        replace (S (dials s) + length errs) with (dials s + S (length errs)) by lia.
        reflexivity.
      * congruence.
      * congruence.
      * rewrite Htr', Htr. cbn [reconnect_events].
        rewrite <- !app_assoc. reflexivity.
Qed.

(** The loop has a single [return], and it returns nil. *)
Lemma ReconnectLoop_returns_nil fuel :
  forall rc cause s r s',
    ReconnectLoop fuel rc cause s = (Ret r, s') -> r = None.
Proof.
  induction fuel as [|fuel IH]; intros rc cause s r s' H.
  - discriminate H.
  - cbn [ReconnectLoop] in H. unfold bind at 1 in H.
    destruct (Reconnect rc cause s) as [[err| |] s1]; try discriminate H.
    destruct err as [e|].
    + unfold bind, time_Sleep, emit in H. eapply IH. exact H.
    + inversion H. reflexivity.
Qed.

(** While every attempt fails the loop is still running, whatever the fuel:
    [fuel] turns make [fuel] dials and sleep 500ms after each. *)
Lemma ReconnectLoop_keeps_trying rc fuel :
  forall cause w cfg s,
    conns s !! rc = Some w ->
    conf w = Some cfg ->
    (forall i, dial_script (world s) (dials s + i) <> DialOk) ->
    exists s' evs,
      ReconnectLoop fuel rc cause s = (OutOfFuel, s')
      /\ dials s' = dials s + fuel
      /\ trace s' = trace s ++ evs
      /\ dial_count evs = fuel
      /\ sleeps evs = repeat (Millisecond * 500)%Z fuel.
Proof.
  induction fuel as [|fuel IH]; intros cause w cfg s Hw Hcfg Hfail.
  - exists s, []. cbn. rewrite Nat.add_0_r, app_nil_r. repeat split.
  - destruct (Reconnect_run rc cause w cfg s Hw Hcfg)
      as (s1 & HR & Hwd & Hd & Hio & Hal & Hc & Hfl & Hcm & Htr & Hob).
    cbn [ReconnectLoop]. unfold bind at 1. rewrite HR.
    pose proof (Hfail 0) as H0. rewrite Nat.add_0_r in H0.
    destruct (dial_script (world s) (dials s)) as [|e] eqn:Hds; [congruence|].
    cbn [dial_error].
    assert (Hlt : rc < length (conns s)) by (eapply lookup_lt_Some; eassumption).
    set (s2 := set_trace (trace s1 ++ [EvSleep (Millisecond * 500)%Z]) s1).
    destruct (IH (Some e) (mkConn None (Some cfg)) cfg s2)
      as (s' & evs & HL & Hd' & Htr' & Hdc & Hsl).
    + cbn. rewrite Hc. apply list_lookup_insert_eq. exact Hlt.
    + reflexivity.
    + intros i. cbn. rewrite Hwd, Hd.
      replace (S (dials s) + i) with (dials s + S i) by lia. apply Hfail.
    + exists s', (attempt_events cfg (inner w) cause
                  ++ [EvSleep (Millisecond * 500)%Z] ++ evs).
      split; [unfold bind, time_Sleep, emit; fold s2; exact HL|].
      cbn in Hd', Htr'. repeat split.
      * rewrite Hd', Hd. lia.
      * rewrite Htr', Htr, <- !app_assoc. reflexivity.
      * rewrite !dial_count_app, Hdc. unfold attempt_events.
        destruct (inner w), (OnReconnect cfg); reflexivity.
      * rewrite !sleeps_app, Hsl. unfold attempt_events.
        destruct (inner w), (OnReconnect cfg); reflexivity.
Qed.

(** Whatever a reconnect loop does, it never takes a step of the
    loading-retry path. *)
Lemma Reconnect_events rc cause s r s' :
  Reconnect rc cause s = (r, s') ->
  exists evs, trace s' = trace s ++ evs
              /\ Forall (fun ev => is_loading_retry ev = false) evs.
Proof.
  unfold Reconnect. mred.
  destruct (conns s !! rc) as [w|] eqn:Hw; mred.
  2: { intros H; inversion H; subst. exists []. rewrite app_nil_r. auto. }
  destruct (inner w) as [c|]; mred;
    (destruct (conf w) as [cfg|]; mred;
     [ destruct (OnReconnect cfg) as [cb|]; mred;
       (destruct (dial_script (world s) (dials s)) as [|e]; mred;
        rewrite Hw; mred)
     | ]);
    intros H; inversion H; subst; cbn; rewrite <- ?app_assoc;
    first [ eexists; (split; [reflexivity|]); repeat constructor
          | exists []; rewrite app_nil_r; split; [reflexivity|constructor] ].
Qed.

Lemma ReconnectLoop_events fuel :
  forall rc cause s r s',
    ReconnectLoop fuel rc cause s = (r, s') ->
    exists evs, trace s' = trace s ++ evs
                /\ Forall (fun ev => is_loading_retry ev = false) evs.
Proof.
  induction fuel as [|fuel IH]; intros rc cause s r s' H.
  - inversion H; subst. exists []. rewrite app_nil_r. auto.
  - cbn [ReconnectLoop] in H. unfold bind at 1 in H.
    destruct (Reconnect rc cause s) as [r1 s1] eqn:HR.
    destruct (Reconnect_events _ _ _ _ _ HR) as (evs1 & Ht1 & Hf1).
    destruct r1 as [[e|]| |].
    + unfold bind, time_Sleep, emit in H.
      destruct (IH _ _ _ _ _ H) as (evs2 & Ht2 & Hf2).
      cbn in Ht2. exists (evs1 ++ [EvSleep (Millisecond * 500)%Z] ++ evs2).
      split; [rewrite Ht2, Ht1, <- !app_assoc; reflexivity|].
      apply Forall_app; split; [exact Hf1|].
      constructor; [reflexivity|exact Hf2].
    + inversion H; subst. eauto.
    + inversion H; subst. eauto.
    + inversion H; subst. eauto.
Qed.

Lemma reconnect_events_dial_count cfg errs :
  forall i cause,
    dial_count (reconnect_events cfg i cause errs) = S (length errs).
Proof.
  induction errs as [|e errs IH]; intros i cause; cbn [reconnect_events].
  - unfold attempt_events. destruct i, (OnReconnect cfg); reflexivity.
  - rewrite !dial_count_app, IH. unfold attempt_events.
    destruct i, (OnReconnect cfg); reflexivity.
Qed.

Lemma reconnect_events_sleeps cfg errs :
  forall i cause,
    sleeps (reconnect_events cfg i cause errs)
    = repeat (Millisecond * 500)%Z (length errs).
Proof.
  induction errs as [|e errs IH]; intros i cause; cbn [reconnect_events].
  - unfold attempt_events. destruct i, (OnReconnect cfg); reflexivity.
  - rewrite !sleeps_app, IH. unfold attempt_events.
    destruct i, (OnReconnect cfg); reflexivity.
Qed.

Lemma reconnect_events_causes cfg errs :
  forall i cause,
    reconnect_causes (reconnect_events cfg i cause errs)
    = match OnReconnect cfg with
      | Some _ => cause :: map Some errs
      | None => []
      end.
Proof.
  induction errs as [|e errs IH]; intros i cause; cbn [reconnect_events].
  - unfold attempt_events. destruct i, (OnReconnect cfg); reflexivity.
  - rewrite !reconnect_causes_app, IH. unfold attempt_events.
    destruct i, (OnReconnect cfg); reflexivity.
Qed.

(** ** One turn of [Do] *)

Lemma Do_turn fuel rc a w c s :
  conns s !! rc = Some w ->
  inner w = Some c ->
  Do (S fuel) rc a s =
  match radix.Do c a s with
  | (Ret None, s1) => (Ret None, s1)
  | (Ret (Some e), s1) =>
      if err_is_net e then
        (ReconnectLoop fuel rc (Some e) ;; Do fuel rc a) s1
      else if String.prefix "LOADING" (err_text e) then
        (w' <- load_conn rc ;;
         cfg <- deref (conf w') ;;
         (match OnRetry cfg with
          | Some cb => call (EvOnRetry (Some e)) cb (Some e)
          | None => ret tt
          end) ;;
         time_Sleep (Millisecond * 250)%Z ;;
         Do fuel rc a) s1
      else (Ret (Some e), s1)
  | (Panic, s1) => (Panic, s1)
  | (OutOfFuel, s1) => (OutOfFuel, s1)
  end.
Proof.
  intros Hw Hc. cbn [Do]. unfold bind at 1, load_conn. rewrite Hw.
  unfold bind at 1. rewrite Hc. cbn [deref ret]. unfold bind at 1.
  destruct (radix.Do c a s) as [[[e|]| |] s1]; try reflexivity.
  destruct (err_is_net e); [reflexivity|].
  destruct (String.prefix "LOADING" (err_text e)); reflexivity.
Qed.

(** C1. An error of the inner connection's [Do] that is neither a
    [net.Error] nor has a text beginning with LOADING is returned by the
    wrapper's [Do] as it is, in the very turn in which it occurs, and the
    machine is left exactly as the inner [Do] left it: nothing is slept,
    nothing is closed or dialled, no callback runs. *)
Theorem Do_terminal_error fuel rc a w c e s s1 :
  conns s !! rc = Some w ->
  inner w = Some c ->
  radix.Do c a s = (Ret (Some e), s1) ->
  err_is_net e = false ->
  String.prefix "LOADING" (err_text e) = false ->
  Do (S fuel) rc a s = (Ret (Some e), s1).
Proof.
  intros Hw Hc Hdo Hnet Hload.
  rewrite (Do_turn fuel rc a w c s Hw Hc), Hdo, Hnet, Hload. reflexivity.
Qed.

(** C2, amended. An error that is not a [net.Error] and whose text begins
    with LOADING makes [Do] take the loading-retry path: the retry callback
    runs if one is configured, exactly one sleep of 250ms follows, and the
    next turn issues the same action on the same wrapper, whose inner
    connection is untouched; nothing is dialled and nothing is closed. *)
Theorem Do_loading_retry fuel rc a w c cfg e s s1 :
  conns s !! rc = Some w ->
  inner w = Some c ->
  radix.Do c a s = (Ret (Some e), s1) ->
  conns s1 !! rc = Some w ->
  conf w = Some cfg ->
  err_is_net e = false ->
  String.prefix "LOADING" (err_text e) = true ->
  exists s2,
    Do (S fuel) rc a s = Do fuel rc a s2
    /\ trace s2 = trace s1
                  ++ match OnRetry cfg with
                     | Some _ => [EvOnRetry (Some e)]
                     | None => []
                     end
                  ++ [EvSleep (Millisecond * 250)%Z]
    /\ obs s2 = match OnRetry cfg with
                | Some cb => cb (Some e) (obs s1)
                | None => obs s1
                end
    /\ conns s2 = conns s1
    /\ conns s2 !! rc = Some (mkConn (Some c) (Some cfg))
    /\ world s2 = world s1
    /\ dials s2 = dials s1
    /\ ios s2 = ios s1
    /\ allocs s2 = allocs s1
    /\ flats s2 = flats s1
    /\ cmds s2 = cmds s1.
Proof.
  intros Hw Hc Hdo Hw1 Hcfg Hnet Hload.
  rewrite (Do_turn fuel rc a w c s Hw Hc), Hdo, Hnet, Hload.
  assert (Hweq : w = mkConn (Some c) (Some cfg))
    by (destruct w; cbn in *; congruence).
  mred. rewrite Hw1. mred. rewrite Hcfg.
  destruct (OnRetry cfg) as [cb|]; mred;
    eexists; (split; [reflexivity|]); cbn; rewrite <- ?app_assoc;
    repeat split; try reflexivity; rewrite Hw1; congruence.
Qed.

(** C3. A [net.Error] from the inner connection's [Do] starts the reconnect
    loop with that error as cause, and only after the loop the same action is
    issued again.  When the dial attempts fail with [errs] and then succeed,
    the loop stores the new connection, the action is re-issued on a wrapper
    holding it, and the reconnect callback, if configured, has run once per
    attempt: first with the triggering error, then with the error of the
    attempt before. *)
Theorem Do_net_error_reconnects fuel rc a w c e s s1 :
  conns s !! rc = Some w ->
  inner w = Some c ->
  radix.Do c a s = (Ret (Some e), s1) ->
  err_is_net e = true ->
  Do (S fuel) rc a s = (ReconnectLoop fuel rc (Some e) ;; Do fuel rc a) s1
  /\ forall w1 cfg errs,
       conns s1 !! rc = Some w1 ->
       conf w1 = Some cfg ->
       (forall i e', errs !! i = Some e' ->
                     dial_script (world s1) (dials s1 + i) = DialErr e') ->
       dial_script (world s1) (dials s1 + length errs) = DialOk ->
       length errs < fuel ->
       exists s2 evs,
         ReconnectLoop fuel rc (Some e) s1 = (Ret None, s2)
         /\ Do (S fuel) rc a s = Do fuel rc a s2
         /\ conns s2 !! rc
            = Some (mkConn (Some (dials s1 + length errs)) (Some cfg))
         /\ trace s2 = trace s1 ++ evs
         /\ dial_count evs = S (length errs)
         /\ reconnect_causes evs
            = match OnReconnect cfg with
              | Some _ => Some e :: map Some errs
              | None => []
              end.
Proof.
  intros Hw Hc Hdo Hnet.
  assert (Hturn : Do (S fuel) rc a s
                  = (ReconnectLoop fuel rc (Some e) ;; Do fuel rc a) s1)
    by (rewrite (Do_turn fuel rc a w c s Hw Hc), Hdo, Hnet; reflexivity).
  split; [exact Hturn|].
  intros w1 cfg errs Hw1 Hcfg Hfail Hok Hfuel.
  destruct (ReconnectLoop_success rc errs fuel (Some e) w1 cfg s1
              Hw1 Hcfg Hfail Hok Hfuel)
    as (s2 & HL & _ & _ & _ & _ & Hcs & _ & _ & Htr).
  exists s2, (reconnect_events cfg (inner w1) (Some e) errs).
  repeat split.
  - exact HL.
  - rewrite Hturn. unfold bind. rewrite HL. reflexivity.
  - rewrite Hcs. apply list_lookup_insert_eq.
    eapply lookup_lt_Some; eassumption.
  - exact Htr.
  - apply reconnect_events_dial_count.
  - apply reconnect_events_causes.
Qed.

(** C10. The [net.Error] test comes first: an error that is a [net.Error]
    and whose text begins with LOADING sends [Do] into the reconnect loop and
    then into the next turn; up to that turn no retry callback runs and no
    250ms sleep is taken. *)
Theorem Do_net_error_before_loading fuel rc a w c e s s1 :
  conns s !! rc = Some w ->
  inner w = Some c ->
  radix.Do c a s = (Ret (Some e), s1) ->
  err_is_net e = true ->
  String.prefix "LOADING" (err_text e) = true ->
  Do (S fuel) rc a s = (ReconnectLoop fuel rc (Some e) ;; Do fuel rc a) s1
  /\ forall r s2,
       ReconnectLoop fuel rc (Some e) s1 = (r, s2) ->
       exists evs,
         trace s2 = trace s1 ++ evs
         /\ Forall (fun ev => is_loading_retry ev = false) evs.
Proof.
  intros Hw Hc Hdo Hnet _. split.
  - rewrite (Do_turn fuel rc a w c s Hw Hc), Hdo, Hnet. reflexivity.
  - intros r s2 HL. eapply ReconnectLoop_events. exact HL.
Qed.

(** C6. [ReconnectLoop] returns nil as soon as an attempt succeeds, having
    replaced the cause by the error of each failed attempt and slept 500ms
    after each; whenever it returns, it returns nil; and while every attempt
    fails it is still running after any number of turns, having dialled and
    slept once per turn. *)
Theorem ReconnectLoop_policy rc cause w cfg s :
  conns s !! rc = Some w ->
  conf w = Some cfg ->
  (forall errs fuel,
     (forall i e, errs !! i = Some e ->
                  dial_script (world s) (dials s + i) = DialErr e) ->
     dial_script (world s) (dials s + length errs) = DialOk ->
     length errs < fuel ->
     exists s' evs,
       ReconnectLoop fuel rc cause s = (Ret None, s')
       /\ dials s' = S (dials s + length errs)
       /\ trace s' = trace s ++ evs
       /\ dial_count evs = S (length errs)
       /\ sleeps evs = repeat (Millisecond * 500)%Z (length errs)
       /\ (forall cb, OnReconnect cfg = Some cb ->
                      reconnect_causes evs = cause :: map Some errs))
  /\ (forall fuel r s', ReconnectLoop fuel rc cause s = (Ret r, s') -> r = None)
  /\ ((forall i, dial_script (world s) (dials s + i) <> DialOk) ->
      forall fuel,
      exists s' evs,
        ReconnectLoop fuel rc cause s = (OutOfFuel, s')
        /\ dials s' = dials s + fuel
        /\ trace s' = trace s ++ evs
        /\ dial_count evs = fuel
        /\ sleeps evs = repeat (Millisecond * 500)%Z fuel).
Proof.
  intros Hw Hcfg. repeat split.
  - intros errs fuel Hfail Hok Hfuel.
    destruct (ReconnectLoop_success rc errs fuel cause w cfg s
                Hw Hcfg Hfail Hok Hfuel)
      as (s' & HL & _ & Hd & _ & _ & _ & _ & _ & Htr).
    exists s', (reconnect_events cfg (inner w) cause errs).
    repeat split; try assumption.
    + apply reconnect_events_dial_count.
    + apply reconnect_events_sleeps.
    + intros cb Hcb. rewrite reconnect_events_causes, Hcb. reflexivity.
  - intros fuel r s' H. eapply ReconnectLoop_returns_nil. exact H.
  - intros Hfail fuel.
    apply (ReconnectLoop_keeps_trying rc fuel cause w cfg s Hw Hcfg Hfail).
Qed.

(** What [Dial] does, in full. *)
Lemma Dial_run cfg s :
  exists s',
    Dial (Some cfg) s
    = (Ret (Some (RetryableConn (length (conns s))),
            dial_error (dial_script (world s) (dials s))), s')
    /\ Reconnect (length (conns s)) None
         (set_conns (conns s ++ [mkConn None (Some cfg)]) s)
       = (Ret (dial_error (dial_script (world s) (dials s))), s')
    /\ dials s' = S (dials s)
    /\ ios s' = ios s
    /\ trace s' = trace s
                  ++ match OnReconnect cfg with
                     | Some _ => [EvOnReconnect None]
                     | None => []
                     end
                  ++ [EvDial (Network cfg) (Addr cfg) (DialOpts cfg)]
    /\ conns s' = conns s
                  ++ [mkConn (match dial_script (world s) (dials s) with
                              | DialOk => Some (dials s)
                              | DialErr _ => None
                              end) (Some cfg)].
Proof.
  set (s0 := set_conns (conns s ++ [mkConn None (Some cfg)]) s).
  assert (Hw : conns s0 !! length (conns s) = Some (mkConn None (Some cfg)))
    by (cbn; apply list_lookup_middle; reflexivity).
  destruct (Reconnect_run (length (conns s)) None _ cfg s0 Hw eq_refl)
    as (s' & HR & Hwd & Hd & Hio & Hal & Hc & Hfl & Hcm & Htr & Hob).
  exists s'. cbn in HR, Hd, Hio, Htr, Hc.
  assert (HD : Dial (Some cfg) s
               = (Ret (Some (RetryableConn (length (conns s))),
                       dial_error (dial_script (world s) (dials s))), s')).
  { unfold Dial. unfold bind at 1, new_conn. fold s0.
    unfold bind at 1. rewrite HR. reflexivity. }
  repeat split; try assumption.
  rewrite Hc.
  replace (length (conns s)) with (length (conns s) + 0) at 1 by lia.
  rewrite insert_app_r. reflexivity.
Qed.

(** C7. [Dial] makes the wrapper, reconnects it once with a nil cause and
    returns: its final machine is the one that single [Reconnect] leaves, with
    one call of [radix.Dial] and no sleep; its result is the error of that one
    call, and a non-nil wrapper whether or not the call failed. *)
Theorem Dial_single_attempt cfg s :
  exists s',
    Dial (Some cfg) s
    = (Ret (Some (RetryableConn (length (conns s))),
            dial_error (dial_script (world s) (dials s))), s')
    /\ Reconnect (length (conns s)) None
         (set_conns (conns s ++ [mkConn None (Some cfg)]) s)
       = (Ret (dial_error (dial_script (world s) (dials s))), s')
    /\ dials s' = S (dials s)
    /\ ios s' = ios s
    /\ trace s' = trace s
                  ++ match OnReconnect cfg with
                     | Some _ => [EvOnReconnect None]
                     | None => []
                     end
                  ++ [EvDial (Network cfg) (Addr cfg) (DialOpts cfg)]
    /\ conns s' = conns s
                  ++ [mkConn (match dial_script (world s) (dials s) with
                              | DialOk => Some (dials s)
                              | DialErr _ => None
                              end) (Some cfg)].
Proof.
  destruct (Dial_run cfg s) as (s' & HD & HR & Hd & Hio & Htr & Hc).
  exists s'. repeat split; assumption.
Qed.

(** A wrapper whose inner connection is nil: every method that goes through
    [rc.inner] panics, leaving the machine as it was. *)
Lemma nil_inner_panics rc cfg s :
  conns s !! rc = Some (mkConn None cfg) ->
  (forall fuel a, Do (S fuel) rc a s = (Panic, s))
  /\ Close rc s = (Panic, s)
  /\ (forall m, Encode rc m s = (Panic, s))
  /\ (forall um, Decode rc um s = (Panic, s))
  /\ NetConn rc s = (Panic, s).
Proof.
  intros Hw. repeat split; intros;
    cbn [Do]; unfold Close, Encode, Decode, NetConn, bind, load_conn;
    rewrite Hw; reflexivity.
Qed.

(** C9. When the first dial fails, [Dial] still returns a non-nil wrapper
    together with the error, the wrapper's inner connection is nil, and on
    that wrapper [Do], [Close], [Encode], [Decode] and [NetConn] panic instead
    of returning an error, as long as nothing has reconnected it. *)
Theorem Dial_failure_leaves_nil_inner cfg e s :
  dial_script (world s) (dials s) = DialErr e ->
  exists rc s',
    Dial (Some cfg) s = (Ret (Some (RetryableConn rc), Some e), s')
    /\ conns s' !! rc = Some (mkConn None (Some cfg))
    /\ forall s'',
         conns s'' !! rc = conns s' !! rc ->
         (forall fuel a, Do (S fuel) rc a s'' = (Panic, s''))
         /\ Close rc s'' = (Panic, s'')
         /\ (forall m, Encode rc m s'' = (Panic, s''))
         /\ (forall um, Decode rc um s'' = (Panic, s''))
         /\ NetConn rc s'' = (Panic, s'').
Proof.
  intros Hd.
  destruct (Dial_run cfg s) as (s' & HD & _ & _ & _ & _ & Hc).
  rewrite Hd in HD, Hc. cbn [dial_error] in HD.
  assert (Hw : conns s' !! length (conns s) = Some (mkConn None (Some cfg)))
    by (rewrite Hc; apply list_lookup_middle; reflexivity).
  exists (length (conns s)), s'. split; [exact HD|]. split; [exact Hw|].
  intros s'' Hsame. apply nil_inner_panics with (cfg := Some cfg).
  rewrite Hsame. exact Hw.
Qed.

(** ** The deferred command actions *)

Ltac ared :=
  repeat (progress (cbn;
    unfold bind, ret, panic, out_of_fuel, deref, emit, io, call, time_Sleep,
      load_conn, radix.Cmd, radix.FlatCmd, radix.action_MarshalRESP,
      radix.action_UnmarshalRESP, radix.Encode, radix.Decode,
      RetryableFlatCmd.Run, RetryableFlatCmd.MarshalRESP,
      RetryableFlatCmd.UnmarshalRESP, RetryableFlatCmd.getInner,
      RetryableFlatCmd.store_inner, RetryableFlatCmd.load,
      RetryableCmd.Run, RetryableCmd.MarshalRESP,
      RetryableCmd.UnmarshalRESP, RetryableCmd.getInner,
      RetryableCmd.store_inner, RetryableCmd.load)).

Lemma Conn_Encode_target conn c m s :
  conn_target conn s = Some c ->
  Conn_Encode conn m s = radix.Encode c m s.
Proof.
  destruct conn as [c'|rc]; cbn.
  - intros [= ->]. reflexivity.
  - unfold Encode, bind, load_conn.
    destruct (conns s !! rc) as [w|]; [|discriminate].
    intros ->. reflexivity.
Qed.

Lemma Conn_Decode_target conn c um s :
  conn_target conn s = Some c ->
  Conn_Decode conn um s = radix.Decode c um s.
Proof.
  destruct conn as [c'|rc]; cbn.
  - intros [= ->]. reflexivity.
  - unfold Decode, bind, load_conn.
    destruct (conns s !! rc) as [w|]; [|discriminate].
    intros ->. reflexivity.
Qed.

Lemma conn_target_same conn s s' :
  conns s' = conns s -> conn_target conn s' = conn_target conn s.
Proof. intros H. destruct conn; cbn; rewrite ?H; reflexivity. Qed.

(** *** [RetryableFlatCmd] *)

Lemma Flat_getInner_run r o s :
  flats s !! r = Some o ->
  RetryableFlatCmd.getInner r s
  = (Ret (Some (flat_bound o (allocs s))), flat_bind_state r o s).
Proof.
  intros Ho. assert (Hlt : r < length (flats s)) by (eapply lookup_lt_Some; eauto).
  unfold flat_bound, flat_bind_state. ared. rewrite Ho.
  destruct o as [rcv cmd key args [a|]]; ared; rewrite ?Ho; ared.
  - reflexivity.
  - rewrite list_lookup_insert_eq by exact Hlt. reflexivity.
Qed.

Lemma flat_bind_state_lookup r o s :
  flats s !! r = Some o ->
  flats (flat_bind_state r o s) !! r
  = Some (flat_with o (Some (flat_bound o (allocs s)))).
Proof.
  intros Ho. assert (Hlt : r < length (flats s)) by (eapply lookup_lt_Some; eauto).
  unfold flat_bind_state, flat_bound, flat_with.
  destruct o as [rcv cmd key args [a|]]; cbn.
  - exact Ho.
  - apply list_lookup_insert_eq. exact Hlt.
Qed.

Lemma Flat_MarshalRESP_run r w o s :
  flats s !! r = Some o ->
  RetryableFlatCmd.MarshalRESP r w s
  = (Ret (io_script (world s) (ios s)),
     set_ios (S (ios s))
       (set_trace (trace s ++ [EvMarshal w (flat_bound o (allocs s))])
          (flat_bind_state r o s))).
Proof.
  intros Ho. unfold RetryableFlatCmd.MarshalRESP, bind at 1.
  rewrite (Flat_getInner_run r o s Ho). ared.
  unfold flat_bind_state. destruct (flat_inner o); reflexivity.
Qed.

Lemma Flat_UnmarshalRESP_run r br o s :
  flats s !! r = Some o ->
  RetryableFlatCmd.UnmarshalRESP r br s
  = (Ret (io_script (world s) (ios s)),
     set_flats (<[r := flat_with o None]> (flats (flat_bind_state r o s)))
       (set_ios (S (ios s))
          (set_trace (trace s ++ [EvUnmarshal br (flat_bound o (allocs s))])
             (flat_bind_state r o s)))).
Proof.
  intros Ho. unfold RetryableFlatCmd.UnmarshalRESP, bind at 1.
  rewrite (Flat_getInner_run r o s Ho).
  pose proof (flat_bind_state_lookup r o s Ho) as Hb.
  ared. rewrite Hb. ared.
  unfold flat_bind_state. destruct (flat_inner o); reflexivity.
Qed.

(** After [UnmarshalRESP] the object is unbound, whatever the inner unmarshal
    answered, and the next [getInner] allocates a new action from the stored
    parameters. *)
Lemma Flat_UnmarshalRESP_resets c br o s :
  flats s !! c = Some o ->
  flat_ok o s ->
  exists s',
    RetryableFlatCmd.UnmarshalRESP c br s
    = (Ret (io_script (world s) (ios s)), s')
    /\ trace s' = trace s ++ [EvUnmarshal br (flat_bound o (allocs s))]
    /\ flats s' !! c = Some (flat_with o None)
    /\ action_id (flat_bound o (allocs s)) < allocs s'
    /\ exists s'',
         RetryableFlatCmd.getInner c s'
         = (Ret (Some (flat_fresh o (allocs s'))), s'')
         /\ flat_fresh o (allocs s') <> flat_bound o (allocs s)
         /\ flats s'' !! c = Some (flat_with o (Some (flat_fresh o (allocs s'))))
         /\ allocs s'' = S (allocs s').
Proof.
  intros Ho Hok.
  assert (Hlt : c < length (flats s)) by (eapply lookup_lt_Some; eauto).
  rewrite (Flat_UnmarshalRESP_run c br o s Ho).
  set (s' := set_flats _ _).
  assert (Hlen : length (flats (flat_bind_state c o s)) = length (flats s)).
  { unfold flat_bind_state. destruct (flat_inner o); cbn;
      rewrite ?length_insert; reflexivity. }
  assert (Ho' : flats s' !! c = Some (flat_with o None)).
  { subst s'. cbn. apply list_lookup_insert_eq. rewrite Hlen. exact Hlt. }
  assert (Hid : action_id (flat_bound o (allocs s)) < allocs s').
  { subst s'. cbn. unfold flat_bind_state, flat_bound.
    destruct (flat_inner o) as [a|] eqn:Hi; cbn; [|lia].
    destruct (Hok a Hi) as (n & Hn & ->). cbn. exact Hn. }
  exists s'. repeat split; try assumption; try reflexivity.
  eexists. split; [apply (Flat_getInner_run c (flat_with o None) s' Ho')|].
  repeat split.
  - intros Heq. rewrite <- Heq in Hid. cbn in Hid. lia.
  - rewrite (flat_bind_state_lookup c (flat_with o None) s' Ho'). reflexivity.
Qed.

Lemma flat_bind_state_conns r o s : conns (flat_bind_state r o s) = conns s.
Proof. unfold flat_bind_state. destruct (flat_inner o); reflexivity. Qed.

Lemma flat_bind_state_length r o s :
  length (flats (flat_bind_state r o s)) = length (flats s).
Proof.
  unfold flat_bind_state. destruct (flat_inner o); cbn;
    rewrite ?length_insert; reflexivity.
Qed.

Lemma Flat_Encode_run r conn c o s :
  flats s !! r = Some o ->
  conn_target conn s = Some c ->
  Conn_Encode conn (mkMarshaler (RetryableFlatCmd.MarshalRESP r)) s
  = match io_script (world s) (ios s) with
    | Some e =>
        (Ret (Some e),
         set_ios (S (ios s))
           (set_trace (trace s ++ [EvMarshal c (flat_bound o (allocs s))])
              (flat_bind_state r o s)))
    | None =>
        (Ret (io_script (world s) (S (ios s))),
         set_ios (S (S (ios s)))
           (set_trace (trace s ++ [EvMarshal c (flat_bound o (allocs s));
                                   EvFlush c])
              (flat_bind_state r o s)))
    end.
Proof.
  intros Ho Hc. rewrite (Conn_Encode_target conn c _ s Hc).
  unfold radix.Encode, bind at 1. cbn [MarshalRESP].
  rewrite (Flat_MarshalRESP_run r c o s Ho).
  destruct (io_script (world s) (ios s)) as [e|]; [reflexivity|].
  unfold io. cbn. rewrite <- app_assoc.
  unfold flat_bind_state. destruct (flat_inner o); reflexivity.
Qed.

Lemma Flat_Run_run r conn c o s :
  flats s !! r = Some o ->
  conn_target conn s = Some c ->
  RetryableFlatCmd.Run r conn s
  = match io_script (world s) (ios s) with
    | Some e =>
        (Ret (Some e),
         set_ios (S (ios s))
           (set_trace (trace s ++ [EvMarshal c (flat_bound o (allocs s))])
              (flat_bind_state r o s)))
    | None =>
        match io_script (world s) (S (ios s)) with
        | Some e =>
            (Ret (Some e),
             set_ios (S (S (ios s)))
               (set_trace (trace s ++ [EvMarshal c (flat_bound o (allocs s));
                                       EvFlush c])
                  (flat_bind_state r o s)))
        | None =>
            (Ret (io_script (world s) (S (S (ios s)))),
             set_flats (<[r := flat_with o None]> (flats (flat_bind_state r o s)))
               (set_ios (S (S (S (ios s))))
                  (set_trace (trace s ++ [EvMarshal c (flat_bound o (allocs s));
                                          EvFlush c;
                                          EvUnmarshal c (flat_bound o (allocs s))])
                     (flat_bind_state r o s))))
        end
    end.
Proof.
  intros Ho Hc. unfold RetryableFlatCmd.Run, bind at 1.
  rewrite (Flat_Encode_run r conn c o s Ho Hc).
  destruct (io_script (world s) (ios s)) as [e|]; [reflexivity|].
  destruct (io_script (world s) (S (ios s))) as [e|]; [reflexivity|].
  set (s1 := set_ios _ _).
  assert (Hc1 : conn_target conn s1 = Some c).
  { rewrite <- Hc. apply conn_target_same. subst s1. cbn.
    apply flat_bind_state_conns. }
  assert (Ho1 : flats s1 !! r = Some (flat_with o (Some (flat_bound o (allocs s))))).
  { subst s1. cbn. apply flat_bind_state_lookup. exact Ho. }
  rewrite (Conn_Decode_target conn c _ s1 Hc1).
  unfold radix.Decode. cbn [UnmarshalRESP].
  rewrite (Flat_UnmarshalRESP_run r c _ s1 Ho1).
  subst s1. cbn. rewrite <- app_assoc. cbn.
  rewrite ?list_insert_insert_eq.
  unfold flat_bind_state, flat_with, flat_bound.
  destruct (flat_inner o); cbn; reflexivity.
Qed.

(** [Run] always returns, and the first thing it does is marshal the bound
    action. *)
Lemma Flat_Run_first_event r conn c o s :
  flats s !! r = Some o ->
  conn_target conn s = Some c ->
  exists err s' evs,
    RetryableFlatCmd.Run r conn s = (Ret err, s')
    /\ trace s' = trace s ++ EvMarshal c (flat_bound o (allocs s)) :: evs.
Proof.
  intros Ho Hc. rewrite (Flat_Run_run r conn c o s Ho Hc).
  destruct (io_script (world s) (ios s)) as [e|];
    [|destruct (io_script (world s) (S (ios s))) as [e|]];
    do 3 eexists; (split; [reflexivity|]); cbn;
    unfold flat_bind_state; destruct (flat_inner o); reflexivity.
Qed.

Lemma flat_bound_fresh o s :
  flat_ok o s -> exists n, flat_bound o (allocs s) = flat_fresh o n.
Proof.
  intros Hok. unfold flat_bound.
  destruct (flat_inner o) as [a|] eqn:Hi; [|eauto].
  destruct (Hok a Hi) as (n & _ & ->). eauto.
Qed.

(** What a completed [Run] leaves behind, and what the next [Run] sends. *)
Lemma Flat_Run_rebinds r conn c o s :
  flats s !! r = Some o ->
  flat_ok o s ->
  conn_target conn s = Some c ->
  exists eerr s1,
    Conn_Encode conn (mkMarshaler (RetryableFlatCmd.MarshalRESP r)) s
    = (Ret eerr, s1)
    /\ (exists n, flat_bound o (allocs s) = flat_fresh o n)
    /\ match eerr with
       | Some e =>
           RetryableFlatCmd.Run r conn s = (Ret (Some e), s1)
           /\ flats s1 !! r
              = Some (flat_with o (Some (flat_bound o (allocs s))))
           /\ exists err2 s2 evs,
                RetryableFlatCmd.Run r conn s1 = (Ret err2, s2)
                /\ trace s2
                   = trace s1 ++ EvMarshal c (flat_bound o (allocs s)) :: evs
       | None =>
           exists err s',
             RetryableFlatCmd.Run r conn s = (Ret err, s')
             /\ Conn_Decode conn
                  (mkUnmarshaler (RetryableFlatCmd.UnmarshalRESP r)) s1
                = (Ret err, s')
             /\ flats s' !! r = Some (flat_with o None)
             /\ flat_fresh o (allocs s') <> flat_bound o (allocs s)
             /\ exists err2 s2 evs,
                  RetryableFlatCmd.Run r conn s' = (Ret err2, s2)
                  /\ trace s2
                     = trace s' ++ EvMarshal c (flat_fresh o (allocs s')) :: evs
       end.
Proof.
  intros Ho Hok Hc.
  assert (Hlt : r < length (flats s)) by (eapply lookup_lt_Some; eauto).
  pose proof (flat_bound_fresh o s Hok) as Hfresh.
  pose proof (Flat_Run_run r conn c o s Ho Hc) as HRun.
  pose proof (Flat_Encode_run r conn c o s Ho Hc) as HEnc.
  set (a := flat_bound o (allocs s)) in *.
  assert (Hkept : forall t n,
             flats (set_ios n (set_trace t (flat_bind_state r o s))) !! r
             = Some (flat_with o (Some a))).
  { intros t n. cbn. apply flat_bind_state_lookup. exact Ho. }
  assert (Hsame : forall t n,
             conn_target conn (set_ios n (set_trace t (flat_bind_state r o s)))
             = Some c).
  { intros t n. rewrite <- Hc. apply conn_target_same. cbn.
    apply flat_bind_state_conns. }
  assert (Hnext : forall t n,
             exists err2 s2 evs,
               RetryableFlatCmd.Run r conn
                 (set_ios n (set_trace t (flat_bind_state r o s)))
               = (Ret err2, s2)
               /\ trace s2
                  = trace (set_ios n (set_trace t (flat_bind_state r o s)))
                    ++ EvMarshal c a :: evs).
  { intros t n.
    apply (Flat_Run_first_event r conn c _ _ (Hkept t n) (Hsame t n)). }
  destruct (io_script (world s) (ios s)) as [e|] eqn:Hm.
  - do 2 eexists. split; [exact HEnc|]. split; [exact Hfresh|].
    split; [exact HRun|]. split; [apply Hkept|]. apply Hnext.
  - destruct (io_script (world s) (S (ios s))) as [e|] eqn:Hf.
    + do 2 eexists. split; [exact HEnc|]. split; [exact Hfresh|].
      split; [exact HRun|]. split; [apply Hkept|]. apply Hnext.
    + do 2 eexists. split; [exact HEnc|]. split; [exact Hfresh|].
      set (s1 := set_ios _ _) in HEnc |- *.
      set (s' := set_flats _ _) in HRun.
      assert (Ho' : flats s' !! r = Some (flat_with o None)).
      { subst s'. cbn. apply list_lookup_insert_eq.
        rewrite flat_bind_state_length. exact Hlt. }
      assert (Hc' : conn_target conn s' = Some c).
      { rewrite <- Hc. apply conn_target_same. subst s'. cbn.
        apply flat_bind_state_conns. }
      exists (io_script (world s) (S (S (ios s)))), s'.
      split; [exact HRun|]. split.
      { rewrite (Conn_Decode_target conn c _ s1 (Hsame _ _)).
        unfold radix.Decode. cbn [UnmarshalRESP].
        rewrite (Flat_UnmarshalRESP_run r c _ s1 (Hkept _ _)).
        subst s1 s'. cbn. rewrite <- app_assoc. cbn.
        unfold flat_bind_state, flat_with. subst a. unfold flat_bound.
        destruct (flat_inner o); cbn; reflexivity. }
      split; [exact Ho'|]. split.
      { destruct Hfresh as (n & Hn).
        assert (Hid : action_id a < allocs s').
        { subst s' a. cbn. unfold flat_bind_state, flat_bound.
          destruct (flat_inner o) as [a0|] eqn:Hi; cbn; [|lia].
          destruct (Hok a0 Hi) as (k & Hk & ->). cbn. exact Hk. }
        intros Heq. rewrite <- Heq in Hid. cbn in Hid. lia. }
      apply (Flat_Run_first_event r conn c (flat_with o None) s' Ho' Hc').
Qed.

(** *** [RetryableCmd] *)

Lemma Cmd_getInner_run r o s :
  cmds s !! r = Some o ->
  RetryableCmd.getInner r s
  = (Ret (Some (cmd_bound o (allocs s))), cmd_bind_state r o s).
Proof.
  intros Ho. assert (Hlt : r < length (cmds s)) by (eapply lookup_lt_Some; eauto).
  unfold cmd_bound, cmd_bind_state. ared. rewrite Ho.
  destruct o as [rcv cmd key args [a|]]; ared; rewrite ?Ho; ared.
  - reflexivity.
  - rewrite list_lookup_insert_eq by exact Hlt. reflexivity.
Qed.

Lemma cmd_bind_state_lookup r o s :
  cmds s !! r = Some o ->
  cmds (cmd_bind_state r o s) !! r
  = Some (cmd_with o (Some (cmd_bound o (allocs s)))).
Proof.
  intros Ho. assert (Hlt : r < length (cmds s)) by (eapply lookup_lt_Some; eauto).
  unfold cmd_bind_state, cmd_bound, cmd_with.
  destruct o as [rcv cmd key args [a|]]; cbn.
  - exact Ho.
  - apply list_lookup_insert_eq. exact Hlt.
Qed.

Lemma Cmd_MarshalRESP_run r w o s :
  cmds s !! r = Some o ->
  RetryableCmd.MarshalRESP r w s
  = (Ret (io_script (world s) (ios s)),
     set_ios (S (ios s))
       (set_trace (trace s ++ [EvMarshal w (cmd_bound o (allocs s))])
          (cmd_bind_state r o s))).
Proof.
  intros Ho. unfold RetryableCmd.MarshalRESP, bind at 1.
  rewrite (Cmd_getInner_run r o s Ho). ared.
  unfold cmd_bind_state. destruct (cmd_inner o); reflexivity.
Qed.

Lemma Cmd_UnmarshalRESP_run r br o s :
  cmds s !! r = Some o ->
  RetryableCmd.UnmarshalRESP r br s
  = (Ret (io_script (world s) (ios s)),
     set_cmds (<[r := cmd_with o None]> (cmds (cmd_bind_state r o s)))
       (set_ios (S (ios s))
          (set_trace (trace s ++ [EvUnmarshal br (cmd_bound o (allocs s))])
             (cmd_bind_state r o s)))).
Proof.
  intros Ho. unfold RetryableCmd.UnmarshalRESP, bind at 1.
  rewrite (Cmd_getInner_run r o s Ho).
  pose proof (cmd_bind_state_lookup r o s Ho) as Hb.
  ared. rewrite Hb. ared.
  unfold cmd_bind_state. destruct (cmd_inner o); reflexivity.
Qed.

(** After [UnmarshalRESP] the object is unbound, whatever the inner unmarshal
    answered, and the next [getInner] allocates a new action from the stored
    parameters. *)
Lemma Cmd_UnmarshalRESP_resets c br o s :
  cmds s !! c = Some o ->
  cmd_ok o s ->
  exists s',
    RetryableCmd.UnmarshalRESP c br s
    = (Ret (io_script (world s) (ios s)), s')
    /\ trace s' = trace s ++ [EvUnmarshal br (cmd_bound o (allocs s))]
    /\ cmds s' !! c = Some (cmd_with o None)
    /\ action_id (cmd_bound o (allocs s)) < allocs s'
    /\ exists s'',
         RetryableCmd.getInner c s'
         = (Ret (Some (cmd_fresh o (allocs s'))), s'')
         /\ cmd_fresh o (allocs s') <> cmd_bound o (allocs s)
         /\ cmds s'' !! c = Some (cmd_with o (Some (cmd_fresh o (allocs s'))))
         /\ allocs s'' = S (allocs s').
Proof.
  intros Ho Hok.
  assert (Hlt : c < length (cmds s)) by (eapply lookup_lt_Some; eauto).
  rewrite (Cmd_UnmarshalRESP_run c br o s Ho).
  set (s' := set_cmds _ _).
  assert (Hlen : length (cmds (cmd_bind_state c o s)) = length (cmds s)).
  { unfold cmd_bind_state. destruct (cmd_inner o); cbn;
      rewrite ?length_insert; reflexivity. }
  assert (Ho' : cmds s' !! c = Some (cmd_with o None)).
  { subst s'. cbn. apply list_lookup_insert_eq. rewrite Hlen. exact Hlt. }
  assert (Hid : action_id (cmd_bound o (allocs s)) < allocs s').
  { subst s'. cbn. unfold cmd_bind_state, cmd_bound.
    destruct (cmd_inner o) as [a|] eqn:Hi; cbn; [|lia].
    destruct (Hok a Hi) as (n & Hn & ->). cbn. exact Hn. }
  exists s'. repeat split; try assumption; try reflexivity.
  eexists. split; [apply (Cmd_getInner_run c (cmd_with o None) s' Ho')|].
  repeat split.
  - intros Heq. rewrite <- Heq in Hid. cbn in Hid. lia.
  - rewrite (cmd_bind_state_lookup c (cmd_with o None) s' Ho'). reflexivity.
Qed.

Lemma cmd_bind_state_conns r o s : conns (cmd_bind_state r o s) = conns s.
Proof. unfold cmd_bind_state. destruct (cmd_inner o); reflexivity. Qed.

Lemma cmd_bind_state_length r o s :
  length (cmds (cmd_bind_state r o s)) = length (cmds s).
Proof.
  unfold cmd_bind_state. destruct (cmd_inner o); cbn;
    rewrite ?length_insert; reflexivity.
Qed.

Lemma Cmd_Encode_run r conn c o s :
  cmds s !! r = Some o ->
  conn_target conn s = Some c ->
  Conn_Encode conn (mkMarshaler (RetryableCmd.MarshalRESP r)) s
  = match io_script (world s) (ios s) with
    | Some e =>
        (Ret (Some e),
         set_ios (S (ios s))
           (set_trace (trace s ++ [EvMarshal c (cmd_bound o (allocs s))])
              (cmd_bind_state r o s)))
    | None =>
        (Ret (io_script (world s) (S (ios s))),
         set_ios (S (S (ios s)))
           (set_trace (trace s ++ [EvMarshal c (cmd_bound o (allocs s));
                                   EvFlush c])
              (cmd_bind_state r o s)))
    end.
Proof.
  intros Ho Hc. rewrite (Conn_Encode_target conn c _ s Hc).
  unfold radix.Encode, bind at 1. cbn [MarshalRESP].
  rewrite (Cmd_MarshalRESP_run r c o s Ho).
  destruct (io_script (world s) (ios s)) as [e|]; [reflexivity|].
  unfold io. cbn. rewrite <- app_assoc.
  unfold cmd_bind_state. destruct (cmd_inner o); reflexivity.
Qed.

Lemma Cmd_Run_run r conn c o s :
  cmds s !! r = Some o ->
  conn_target conn s = Some c ->
  RetryableCmd.Run r conn s
  = match io_script (world s) (ios s) with
    | Some e =>
        (Ret (Some e),
         set_ios (S (ios s))
           (set_trace (trace s ++ [EvMarshal c (cmd_bound o (allocs s))])
              (cmd_bind_state r o s)))
    | None =>
        match io_script (world s) (S (ios s)) with
        | Some e =>
            (Ret (Some e),
             set_ios (S (S (ios s)))
               (set_trace (trace s ++ [EvMarshal c (cmd_bound o (allocs s));
                                       EvFlush c])
                  (cmd_bind_state r o s)))
        | None =>
            (Ret (io_script (world s) (S (S (ios s)))),
             set_cmds (<[r := cmd_with o None]> (cmds (cmd_bind_state r o s)))
               (set_ios (S (S (S (ios s))))
                  (set_trace (trace s ++ [EvMarshal c (cmd_bound o (allocs s));
                                          EvFlush c;
                                          EvUnmarshal c (cmd_bound o (allocs s))])
                     (cmd_bind_state r o s))))
        end
    end.
Proof.
  intros Ho Hc. unfold RetryableCmd.Run, bind at 1.
  rewrite (Cmd_Encode_run r conn c o s Ho Hc).
  destruct (io_script (world s) (ios s)) as [e|]; [reflexivity|].
  destruct (io_script (world s) (S (ios s))) as [e|]; [reflexivity|].
  set (s1 := set_ios _ _).
  assert (Hc1 : conn_target conn s1 = Some c).
  { rewrite <- Hc. apply conn_target_same. subst s1. cbn.
    apply cmd_bind_state_conns. }
  assert (Ho1 : cmds s1 !! r = Some (cmd_with o (Some (cmd_bound o (allocs s))))).
  { subst s1. cbn. apply cmd_bind_state_lookup. exact Ho. }
  rewrite (Conn_Decode_target conn c _ s1 Hc1).
  unfold radix.Decode. cbn [UnmarshalRESP].
  rewrite (Cmd_UnmarshalRESP_run r c _ s1 Ho1).
  subst s1. cbn. rewrite <- app_assoc. cbn.
  rewrite ?list_insert_insert_eq.
  unfold cmd_bind_state, cmd_with, cmd_bound.
  destruct (cmd_inner o); cbn; reflexivity.
Qed.

(** [Run] always returns, and the first thing it does is marshal the bound
    action. *)
Lemma Cmd_Run_first_event r conn c o s :
  cmds s !! r = Some o ->
  conn_target conn s = Some c ->
  exists err s' evs,
    RetryableCmd.Run r conn s = (Ret err, s')
    /\ trace s' = trace s ++ EvMarshal c (cmd_bound o (allocs s)) :: evs.
Proof.
  intros Ho Hc. rewrite (Cmd_Run_run r conn c o s Ho Hc).
  destruct (io_script (world s) (ios s)) as [e|];
    [|destruct (io_script (world s) (S (ios s))) as [e|]];
    do 3 eexists; (split; [reflexivity|]); cbn;
    unfold cmd_bind_state; destruct (cmd_inner o); reflexivity.
Qed.

Lemma cmd_bound_fresh o s :
  cmd_ok o s -> exists n, cmd_bound o (allocs s) = cmd_fresh o n.
Proof.
  intros Hok. unfold cmd_bound.
  destruct (cmd_inner o) as [a|] eqn:Hi; [|eauto].
  destruct (Hok a Hi) as (n & _ & ->). eauto.
Qed.

(** What a completed [Run] leaves behind, and what the next [Run] sends. *)
Lemma Cmd_Run_rebinds r conn c o s :
  cmds s !! r = Some o ->
  cmd_ok o s ->
  conn_target conn s = Some c ->
  exists eerr s1,
    Conn_Encode conn (mkMarshaler (RetryableCmd.MarshalRESP r)) s
    = (Ret eerr, s1)
    /\ (exists n, cmd_bound o (allocs s) = cmd_fresh o n)
    /\ match eerr with
       | Some e =>
           RetryableCmd.Run r conn s = (Ret (Some e), s1)
           /\ cmds s1 !! r
              = Some (cmd_with o (Some (cmd_bound o (allocs s))))
           /\ exists err2 s2 evs,
                RetryableCmd.Run r conn s1 = (Ret err2, s2)
                /\ trace s2
                   = trace s1 ++ EvMarshal c (cmd_bound o (allocs s)) :: evs
       | None =>
           exists err s',
             RetryableCmd.Run r conn s = (Ret err, s')
             /\ Conn_Decode conn
                  (mkUnmarshaler (RetryableCmd.UnmarshalRESP r)) s1
                = (Ret err, s')
             /\ cmds s' !! r = Some (cmd_with o None)
             /\ cmd_fresh o (allocs s') <> cmd_bound o (allocs s)
             /\ exists err2 s2 evs,
                  RetryableCmd.Run r conn s' = (Ret err2, s2)
                  /\ trace s2
                     = trace s' ++ EvMarshal c (cmd_fresh o (allocs s')) :: evs
       end.
Proof.
  intros Ho Hok Hc.
  assert (Hlt : r < length (cmds s)) by (eapply lookup_lt_Some; eauto).
  pose proof (cmd_bound_fresh o s Hok) as Hfresh.
  pose proof (Cmd_Run_run r conn c o s Ho Hc) as HRun.
  pose proof (Cmd_Encode_run r conn c o s Ho Hc) as HEnc.
  set (a := cmd_bound o (allocs s)) in *.
  assert (Hkept : forall t n,
             cmds (set_ios n (set_trace t (cmd_bind_state r o s))) !! r
             = Some (cmd_with o (Some a))).
  { intros t n. cbn. apply cmd_bind_state_lookup. exact Ho. }
  assert (Hsame : forall t n,
             conn_target conn (set_ios n (set_trace t (cmd_bind_state r o s)))
             = Some c).
  { intros t n. rewrite <- Hc. apply conn_target_same. cbn.
    apply cmd_bind_state_conns. }
  assert (Hnext : forall t n,
             exists err2 s2 evs,
               RetryableCmd.Run r conn
                 (set_ios n (set_trace t (cmd_bind_state r o s)))
               = (Ret err2, s2)
               /\ trace s2
                  = trace (set_ios n (set_trace t (cmd_bind_state r o s)))
                    ++ EvMarshal c a :: evs).
  { intros t n.
    apply (Cmd_Run_first_event r conn c _ _ (Hkept t n) (Hsame t n)). }
  destruct (io_script (world s) (ios s)) as [e|] eqn:Hm.
  - do 2 eexists. split; [exact HEnc|]. split; [exact Hfresh|].
    split; [exact HRun|]. split; [apply Hkept|]. apply Hnext.
  - destruct (io_script (world s) (S (ios s))) as [e|] eqn:Hf.
    + do 2 eexists. split; [exact HEnc|]. split; [exact Hfresh|].
      split; [exact HRun|]. split; [apply Hkept|]. apply Hnext.
    + do 2 eexists. split; [exact HEnc|]. split; [exact Hfresh|].
      set (s1 := set_ios _ _) in HEnc |- *.
      set (s' := set_cmds _ _) in HRun.
      assert (Ho' : cmds s' !! r = Some (cmd_with o None)).
      { subst s'. cbn. apply list_lookup_insert_eq.
        rewrite cmd_bind_state_length. exact Hlt. }
      assert (Hc' : conn_target conn s' = Some c).
      { rewrite <- Hc. apply conn_target_same. subst s'. cbn.
        apply cmd_bind_state_conns. }
      exists (io_script (world s) (S (S (ios s)))), s'.
      split; [exact HRun|]. split.
      { rewrite (Conn_Decode_target conn c _ s1 (Hsame _ _)).
        unfold radix.Decode. cbn [UnmarshalRESP].
        rewrite (Cmd_UnmarshalRESP_run r c _ s1 (Hkept _ _)).
        subst s1 s'. cbn. rewrite <- app_assoc. cbn.
        unfold cmd_bind_state, cmd_with. subst a. unfold cmd_bound.
        destruct (cmd_inner o); cbn; reflexivity. }
      split; [exact Ho'|]. split.
      { destruct Hfresh as (n & Hn).
        assert (Hid : action_id a < allocs s').
        { subst s' a. cbn. unfold cmd_bind_state, cmd_bound.
          destruct (cmd_inner o) as [a0|] eqn:Hi; cbn; [|lia].
          destruct (Hok a0 Hi) as (k & Hk & ->). cbn. exact Hk. }
        intros Heq. rewrite <- Heq in Hid. cbn in Hid. lia. }
      apply (Cmd_Run_first_event r conn c (cmd_with o None) s' Ho' Hc').
Qed.

(** *** The binding invariant *)

(** The constructor hands out an object bound to an action built from the
    object's own parameters. *)
Lemma FlatCmd_ok rcv cmd key args s :
  exists s',
    FlatCmd rcv cmd key args s = (Ret (length (flats s)), s')
    /\ flats s' !! length (flats s)
       = Some (mkFlat rcv cmd key args (Some (RFlatCmd (allocs s) rcv cmd key args)))
    /\ flat_ok (mkFlat rcv cmd key args
                  (Some (RFlatCmd (allocs s) rcv cmd key args))) s'.
Proof.
  eexists. split; [reflexivity|]. cbn. split.
  - apply list_lookup_middle. reflexivity.
  - intros a [= <-]. exists (allocs s). split; [cbn; lia|reflexivity].
Qed.

(** [Run] keeps it so. *)
Lemma Flat_Run_keeps_ok r conn c o s err s' :
  flats s !! r = Some o ->
  flat_ok o s ->
  conn_target conn s = Some c ->
  RetryableFlatCmd.Run r conn s = (Ret err, s') ->
  exists o', flats s' !! r = Some o' /\ flat_ok o' s'.
Proof.
  intros Ho Hok Hc HR.
  assert (Hlt : r < length (flats s)) by (eapply lookup_lt_Some; eauto).
  rewrite (Flat_Run_run r conn c o s Ho Hc) in HR.
  assert (Hb : flat_ok (flat_with o (Some (flat_bound o (allocs s))))
                 (flat_bind_state r o s)).
  { intros a [= <-]. unfold flat_bound, flat_bind_state.
    destruct (flat_inner o) as [a0|] eqn:Hi; cbn.
    - destruct (Hok a0 Hi) as (n & Hn & ->). exists n. split; [lia|reflexivity].
    - exists (allocs s). split; [lia|reflexivity]. }
  destruct (io_script (world s) (ios s)) as [e|];
    [|destruct (io_script (world s) (S (ios s))) as [e|]];
    inversion HR; subst; clear HR; cbn.
  - exists (flat_with o (Some (flat_bound o (allocs s)))).
    split; [apply flat_bind_state_lookup; exact Ho|exact Hb].
  - exists (flat_with o (Some (flat_bound o (allocs s)))).
    split; [apply flat_bind_state_lookup; exact Ho|exact Hb].
  - exists (flat_with o None). split.
    + apply list_lookup_insert_eq. rewrite flat_bind_state_length. exact Hlt.
    + intros a Ha. discriminate Ha.
Qed.

(** The constructor hands out an object bound to an action built from the
    object's own parameters. *)
Lemma Cmd_ok rcv cmd args s :
  exists s',
    Cmd rcv cmd args s = (Ret (length (cmds s)), s')
    /\ cmds s' !! length (cmds s)
       = Some (mkCmd rcv cmd "" args (Some (RCmd (allocs s) rcv cmd args)))
    /\ cmd_ok (mkCmd rcv cmd "" args
                  (Some (RCmd (allocs s) rcv cmd args))) s'.
Proof.
  eexists. split; [reflexivity|]. cbn. split.
  - apply list_lookup_middle. reflexivity.
  - intros a [= <-]. exists (allocs s). split; [cbn; lia|reflexivity].
Qed.

(** [Run] keeps it so. *)
Lemma Cmd_Run_keeps_ok r conn c o s err s' :
  cmds s !! r = Some o ->
  cmd_ok o s ->
  conn_target conn s = Some c ->
  RetryableCmd.Run r conn s = (Ret err, s') ->
  exists o', cmds s' !! r = Some o' /\ cmd_ok o' s'.
Proof.
  intros Ho Hok Hc HR.
  assert (Hlt : r < length (cmds s)) by (eapply lookup_lt_Some; eauto).
  rewrite (Cmd_Run_run r conn c o s Ho Hc) in HR.
  assert (Hb : cmd_ok (cmd_with o (Some (cmd_bound o (allocs s))))
                 (cmd_bind_state r o s)).
  { intros a [= <-]. unfold cmd_bound, cmd_bind_state.
    destruct (cmd_inner o) as [a0|] eqn:Hi; cbn.
    - destruct (Hok a0 Hi) as (n & Hn & ->). exists n. split; [lia|reflexivity].
    - exists (allocs s). split; [lia|reflexivity]. }
  destruct (io_script (world s) (ios s)) as [e|];
    [|destruct (io_script (world s) (S (ios s))) as [e|]];
    inversion HR; subst; clear HR; cbn.
  - exists (cmd_with o (Some (cmd_bound o (allocs s)))).
    split; [apply cmd_bind_state_lookup; exact Ho|exact Hb].
  - exists (cmd_with o (Some (cmd_bound o (allocs s)))).
    split; [apply cmd_bind_state_lookup; exact Ho|exact Hb].
  - exists (cmd_with o None). split.
    + apply list_lookup_insert_eq. rewrite cmd_bind_state_length. exact Hlt.
    + intros a Ha. discriminate Ha.
Qed.

(** C5. For both command wrappers, [UnmarshalRESP] returns what the inner
    unmarshal returned, nil or an error, and leaves the object unbound; the
    next [getInner] then allocates a new action from the stored parameters,
    different from the one just consumed, and binds it. *)
Theorem UnmarshalRESP_discards_inner :
  (forall c br o s,
     flats s !! c = Some o ->
     flat_ok o s ->
     exists s',
       RetryableFlatCmd.UnmarshalRESP c br s
       = (Ret (io_script (world s) (ios s)), s')
       /\ trace s' = trace s ++ [EvUnmarshal br (flat_bound o (allocs s))]
       /\ flats s' !! c = Some (flat_with o None)
       /\ action_id (flat_bound o (allocs s)) < allocs s'
       /\ exists s'',
            RetryableFlatCmd.getInner c s'
            = (Ret (Some (flat_fresh o (allocs s'))), s'')
            /\ flat_fresh o (allocs s') <> flat_bound o (allocs s)
            /\ flats s'' !! c
               = Some (flat_with o (Some (flat_fresh o (allocs s'))))
            /\ allocs s'' = S (allocs s'))
  /\
  (forall c br o s,
     cmds s !! c = Some o ->
     cmd_ok o s ->
     exists s',
       RetryableCmd.UnmarshalRESP c br s
       = (Ret (io_script (world s) (ios s)), s')
       /\ trace s' = trace s ++ [EvUnmarshal br (cmd_bound o (allocs s))]
       /\ cmds s' !! c = Some (cmd_with o None)
       /\ action_id (cmd_bound o (allocs s)) < allocs s'
       /\ exists s'',
            RetryableCmd.getInner c s'
            = (Ret (Some (cmd_fresh o (allocs s'))), s'')
            /\ cmd_fresh o (allocs s') <> cmd_bound o (allocs s)
            /\ cmds s'' !! c
               = Some (cmd_with o (Some (cmd_fresh o (allocs s'))))
            /\ allocs s'' = S (allocs s')).
Proof.
  split.
  - exact Flat_UnmarshalRESP_resets.
  - exact Cmd_UnmarshalRESP_resets.
Qed.

(** C4, amended. For both command wrappers [Run] always returns.  When
    [Encode] returned nil, [Decode] was attempted and after [Run], whether it
    returned nil or an error, the object is unbound; the next [Run] sends a
    newly allocated action built from the stored receiver, command, key and
    arguments.  When [Encode] failed, [Run] returns that error without
    attempting [Decode]; the object stays bound to an action built from the
    same stored parameters, and the next [Run] sends that one. *)
Theorem Run_rebinds_after_decode :
  (forall r conn c o s,
     flats s !! r = Some o ->
     flat_ok o s ->
     conn_target conn s = Some c ->
     exists eerr s1,
       Conn_Encode conn (mkMarshaler (RetryableFlatCmd.MarshalRESP r)) s
       = (Ret eerr, s1)
       /\ (exists n, flat_bound o (allocs s) = flat_fresh o n)
       /\ match eerr with
          | Some e =>
              RetryableFlatCmd.Run r conn s = (Ret (Some e), s1)
              /\ flats s1 !! r
                 = Some (flat_with o (Some (flat_bound o (allocs s))))
              /\ exists err2 s2 evs,
                   RetryableFlatCmd.Run r conn s1 = (Ret err2, s2)
                   /\ trace s2
                      = trace s1
                        ++ EvMarshal c (flat_bound o (allocs s)) :: evs
          | None =>
              exists err s',
                RetryableFlatCmd.Run r conn s = (Ret err, s')
                /\ Conn_Decode conn
                     (mkUnmarshaler (RetryableFlatCmd.UnmarshalRESP r)) s1
                   = (Ret err, s')
                /\ flats s' !! r = Some (flat_with o None)
                /\ flat_fresh o (allocs s') <> flat_bound o (allocs s)
                /\ exists err2 s2 evs,
                     RetryableFlatCmd.Run r conn s' = (Ret err2, s2)
                     /\ trace s2
                        = trace s'
                          ++ EvMarshal c (flat_fresh o (allocs s')) :: evs
          end)
  /\
  (forall r conn c o s,
     cmds s !! r = Some o ->
     cmd_ok o s ->
     conn_target conn s = Some c ->
     exists eerr s1,
       Conn_Encode conn (mkMarshaler (RetryableCmd.MarshalRESP r)) s
       = (Ret eerr, s1)
       /\ (exists n, cmd_bound o (allocs s) = cmd_fresh o n)
       /\ match eerr with
          | Some e =>
              RetryableCmd.Run r conn s = (Ret (Some e), s1)
              /\ cmds s1 !! r
                 = Some (cmd_with o (Some (cmd_bound o (allocs s))))
              /\ exists err2 s2 evs,
                   RetryableCmd.Run r conn s1 = (Ret err2, s2)
                   /\ trace s2
                      = trace s1
                        ++ EvMarshal c (cmd_bound o (allocs s)) :: evs
          | None =>
              exists err s',
                RetryableCmd.Run r conn s = (Ret err, s')
                /\ Conn_Decode conn
                     (mkUnmarshaler (RetryableCmd.UnmarshalRESP r)) s1
                   = (Ret err, s')
                /\ cmds s' !! r = Some (cmd_with o None)
                /\ cmd_fresh o (allocs s') <> cmd_bound o (allocs s)
                /\ exists err2 s2 evs,
                     RetryableCmd.Run r conn s' = (Ret err2, s2)
                     /\ trace s2
                        = trace s'
                          ++ EvMarshal c (cmd_fresh o (allocs s')) :: evs
          end).
Proof.
  split.
  - exact Flat_Run_rebinds.
  - exact Cmd_Run_rebinds.
Qed.

(** ** Erasing the callbacks commutes with running *)

Lemma strip_trace_snoc o t ev s :
  is_callback ev = false ->
  strip o (set_trace (t ++ [ev]) s)
  = set_trace (List.filter (fun ev => negb (is_callback ev)) t ++ [ev])
      (strip o s).
Proof.
  intros H. unfold strip, set_trace. cbn.
  rewrite List.filter_app. cbn. rewrite H. reflexivity.
Qed.

Lemma blind_ret {A} (a : A) : blind (ret a).
Proof. intros o s. reflexivity. Qed.

Lemma blind_panic {A} : blind (@panic A).
Proof. intros o s. reflexivity. Qed.

Lemma blind_out_of_fuel {A} : blind (@out_of_fuel A).
Proof. intros o s. reflexivity. Qed.

Lemma blind_deref {A} (x : option A) : blind (deref x).
Proof. destruct x; intros o s; reflexivity. Qed.

Lemma blind_bind {A B} (m : M A) (f : A -> M B) :
  blind m -> (forall a, blind (f a)) -> blind (bind m f).
Proof.
  intros Hm Hf o s. unfold bind. rewrite Hm.
  destruct (m s) as [[a| |] s1]; cbn; [apply Hf|reflexivity|reflexivity].
Qed.

Lemma blind_emit ev : is_callback ev = false -> blind (emit ev).
Proof.
  intros H o s. unfold emit. cbn. f_equal.
  unfold strip, set_trace. cbn. rewrite List.filter_app. cbn. rewrite H.
  reflexivity.
Qed.

Lemma blind_io ev : is_callback ev = false -> blind (io ev).
Proof.
  intros H o s. unfold io. cbn. f_equal.
  unfold strip, set_trace, set_ios. cbn. rewrite List.filter_app. cbn.
  rewrite H. reflexivity.
Qed.

Lemma blind_radix_Dial network addr opts : blind (radix.Dial network addr opts).
Proof.
  intros o s. unfold radix.Dial. cbn.
  destruct (dial_script (world s) (dials s)); cbn; f_equal;
    unfold strip; cbn; rewrite List.filter_app; reflexivity.
Qed.

Lemma blind_radix_Cmd rcv cmd args : blind (radix.Cmd rcv cmd args).
Proof. intros o s. reflexivity. Qed.

Lemma blind_radix_FlatCmd rcv cmd key args :
  blind (radix.FlatCmd rcv cmd key args).
Proof. intros o s. reflexivity. Qed.

(** A configured callback runs where an erased one does nothing. *)
Lemma call_strip ev cb arg o s :
  is_callback ev = true ->
  strip o (snd (call ev cb arg s)) = strip o s.
Proof.
  intros H. unfold call, strip. cbn. rewrite List.filter_app. cbn.
  rewrite H. cbn. rewrite app_nil_r. reflexivity.
Qed.

Lemma store_inner_strip rc v o s :
  store_inner rc v (strip o s)
  = (fst (store_inner rc v s), strip o (snd (store_inner rc v s))).
Proof.
  unfold store_inner, bind, load_conn. cbn.
  rewrite list_lookup_fmap.
  destruct (conns s !! rc) as [w|]; cbn; [|reflexivity].
  f_equal. unfold strip. cbn. rewrite list_fmap_insert. reflexivity.
Qed.

Lemma Reconnect_blind rc cause : blind (Reconnect rc cause).
Proof.
  intros o s.
  pose proof (list_lookup_fmap strip_conn (conns s) rc) as Hl.
  assert (Hins : forall v c,
             strip_conn <$> <[rc := mkConn v (Some c)]> (conns s)
             = <[rc := mkConn v (Some (strip_cfg c))]> (strip_conn <$> conns s))
    by (intros v c; apply (list_fmap_insert strip_conn)).
  unfold Reconnect.
  destruct (conns s !! rc) as [w|] eqn:Hw; cbn in Hl.
  2: { mred. rewrite Hl, Hw. reflexivity. }
  destruct w as [i c]. cbn in Hl.
  mred. rewrite Hl, Hw. mred.
  destruct i as [ci|]; mred;
    (destruct c as [cfg|]; mred; [|unfold strip; cbn; rewrite ?List.filter_app; reflexivity]).
  all: destruct (OnReconnect cfg) as [cb|]; mred;
    (destruct (dial_script (world s) (dials s)) as [|e]; mred;
     rewrite Hl, Hw; mred; unfold strip; cbn;
     rewrite ?List.filter_app, ?Hins; cbn; rewrite ?app_nil_r; reflexivity).
Qed.

Lemma ReconnectLoop_blind fuel : forall rc cause, blind (ReconnectLoop fuel rc cause).
Proof.
  induction fuel as [|fuel IH]; intros rc cause; cbn [ReconnectLoop].
  - apply blind_out_of_fuel.
  - apply blind_bind; [apply Reconnect_blind|].
    intros [e|]; [|apply blind_ret].
    apply blind_bind; [apply blind_emit; reflexivity|].
    intros _. apply IH.
Qed.

(** The part of a [Do] turn that follows a LOADING error. *)
Lemma loading_retry_strip rc (err : error) (k : M error) o s :
  blind k ->
  (w' <- load_conn rc ;;
   cfg <- deref (conf w') ;;
   (match OnRetry cfg with
    | Some cb => call (EvOnRetry err) cb err
    | None => ret tt
    end) ;;
   time_Sleep (Millisecond * 250)%Z ;;
   k) (strip o s)
  = (let m := (w' <- load_conn rc ;;
               cfg <- deref (conf w') ;;
               (match OnRetry cfg with
                | Some cb => call (EvOnRetry err) cb err
                | None => ret tt
                end) ;;
               time_Sleep (Millisecond * 250)%Z ;;
               k) in
     (fst (m s), strip o (snd (m s)))).
Proof.
  intros Hk.
  pose proof (list_lookup_fmap strip_conn (conns s) rc) as Hl.
  cbn zeta.
  destruct (conns s !! rc) as [[i c]|] eqn:Hw; cbn in Hl;
    unfold bind, load_conn, time_Sleep, emit; cbn; rewrite Hl, Hw; cbn;
    [|reflexivity].
  destruct c as [cfg|]; cbn; [|reflexivity].
  destruct (OnRetry cfg) as [cb|]; cbn.
  - match goal with
    | |- k ?x = ((k ?y).1, _) => transitivity (k (strip o y)); [f_equal|apply Hk]
    end.
    unfold strip. cbn. rewrite !List.filter_app. cbn. rewrite app_nil_r.
    reflexivity.
  - match goal with
    | |- k ?x = ((k ?y).1, _) => transitivity (k (strip o y)); [f_equal|apply Hk]
    end.
    unfold strip. cbn. rewrite !List.filter_app. reflexivity.
Qed.

Lemma strip_lookup rc o s :
  conns (strip o s) !! rc = strip_conn <$> conns s !! rc.
Proof. cbn. apply list_lookup_fmap. Qed.

Lemma Do_no_wrapper fuel rc a s :
  conns s !! rc = None -> Do (S fuel) rc a s = (Panic, s).
Proof.
  intros Hw. cbn [Do]. unfold bind, load_conn. rewrite Hw. reflexivity.
Qed.

Lemma Do_blind fuel :
  forall rc a, (forall conn, blind (Run a conn)) -> blind (Do fuel rc a).
Proof.
  induction fuel as [|fuel IH]; intros rc a Ha.
  - apply blind_out_of_fuel.
  - intros o s. pose proof (strip_lookup rc o s) as Hl.
    destruct (conns s !! rc) as [[i c]|] eqn:Hw; cbn [fmap option_fmap option_map] in Hl.
    2: { rewrite !Do_no_wrapper by assumption. reflexivity. }
    destruct i as [ci|].
    2: { destruct (nil_inner_panics rc c s Hw) as (-> & _).
         destruct (nil_inner_panics rc _ (strip o s) Hl) as (-> & _).
         reflexivity. }
    rewrite (Do_turn fuel rc a _ ci s Hw eq_refl).
    rewrite (Do_turn fuel rc a _ ci (strip o s) Hl eq_refl).
    unfold radix.Do. rewrite (Ha (RadixConn ci)).
    destruct (Run a (RadixConn ci) s) as [[[e|]| |] s1]; cbn [fst snd];
      try reflexivity.
    destruct (err_is_net e).
    + apply blind_bind; [apply ReconnectLoop_blind|intros _; apply IH, Ha].
    + destruct (String.prefix "LOADING" (err_text e)); [|reflexivity].
      apply loading_retry_strip. apply IH, Ha.
Qed.

Lemma Dial_blind cfg o s :
  Dial (Some (strip_cfg cfg)) (strip o s)
  = (fst (Dial (Some cfg) s), strip o (snd (Dial (Some cfg) s))).
Proof.
  set (s0 := set_conns (conns s ++ [mkConn None (Some cfg)]) s).
  change (Dial (Some cfg) s)
    with ((err <- Reconnect (length (conns s)) None ;;
           ret (Some (RetryableConn (length (conns s))), err)) s0).
  change (Dial (Some (strip_cfg cfg)) (strip o s))
    with ((err <- Reconnect (length (strip_conn <$> conns s)) None ;;
           ret (Some (RetryableConn (length (strip_conn <$> conns s))), err))
            (set_conns ((strip_conn <$> conns s)
                        ++ [mkConn None (Some (strip_cfg cfg))]) (strip o s))).
  assert (Hs0 : set_conns ((strip_conn <$> conns s)
                           ++ [mkConn None (Some (strip_cfg cfg))]) (strip o s)
                = strip o s0).
  { subst s0. unfold strip, set_conns. cbn. rewrite fmap_app. reflexivity. }
  rewrite length_fmap, Hs0.
  apply blind_bind; [apply Reconnect_blind|intros err; apply blind_ret].
Qed.

(** Going through [rc.inner] looks at the connection only. *)
Lemma blind_through_inner {A} rc (k : ConnId -> M A) :
  (forall c, blind (k c)) ->
  blind (w <- load_conn rc ;; c <- deref (inner w) ;; k c).
Proof.
  intros Hk o s. pose proof (strip_lookup rc o s) as Hl.
  unfold bind, load_conn. rewrite Hl.
  destruct (conns s !! rc) as [[i c]|]; cbn; [|reflexivity].
  destruct i as [ci|]; cbn; [|reflexivity].
  apply Hk.
Qed.

Lemma blind_radix_Encode c m :
  (forall w, blind (MarshalRESP m w)) -> blind (radix.Encode c m).
Proof.
  intros Hm. unfold radix.Encode. apply blind_bind; [apply Hm|].
  intros [e|]; [apply blind_ret|apply blind_io; reflexivity].
Qed.

Lemma blind_Conn_Encode conn m :
  (forall w, blind (MarshalRESP m w)) -> blind (Conn_Encode conn m).
Proof.
  intros Hm. destruct conn as [c|rc]; cbn [Conn_Encode].
  - apply blind_radix_Encode, Hm.
  - unfold Encode. apply blind_through_inner.
    intros c. apply blind_radix_Encode, Hm.
Qed.

Lemma blind_Conn_Decode conn um :
  (forall br, blind (UnmarshalRESP um br)) -> blind (Conn_Decode conn um).
Proof.
  intros Hm. destruct conn as [c|rc]; cbn [Conn_Decode].
  - apply Hm.
  - unfold Decode. apply blind_through_inner. intros c. apply Hm.
Qed.

Lemma blind_Flat_load r : blind (RetryableFlatCmd.load r).
Proof.
  intros o s. unfold RetryableFlatCmd.load. cbn.
  destruct (flats s !! r); reflexivity.
Qed.

Lemma blind_Flat_store_inner r v : blind (RetryableFlatCmd.store_inner r v).
Proof.
  unfold RetryableFlatCmd.store_inner.
  apply blind_bind; [apply blind_Flat_load|]. intros x o s. reflexivity.
Qed.

Lemma blind_Flat_getInner r : blind (RetryableFlatCmd.getInner r).
Proof.
  unfold RetryableFlatCmd.getInner.
  apply blind_bind; [apply blind_Flat_load|]. intros x.
  apply blind_bind.
  - destruct (flat_inner x); [apply blind_ret|].
    apply blind_bind; [apply blind_radix_FlatCmd|].
    intros a. apply blind_Flat_store_inner.
  - intros _. apply blind_bind; [apply blind_Flat_load|].
    intros x'. apply blind_ret.
Qed.

Lemma blind_Flat_MarshalRESP r w : blind (RetryableFlatCmd.MarshalRESP r w).
Proof.
  unfold RetryableFlatCmd.MarshalRESP.
  apply blind_bind; [apply blind_Flat_getInner|]. intros i.
  apply blind_bind; [apply blind_deref|]. intros a.
  apply blind_io. reflexivity.
Qed.

Lemma blind_Flat_UnmarshalRESP r br : blind (RetryableFlatCmd.UnmarshalRESP r br).
Proof.
  unfold RetryableFlatCmd.UnmarshalRESP.
  apply blind_bind; [apply blind_Flat_getInner|]. intros i.
  apply blind_bind; [apply blind_deref|]. intros a.
  apply blind_bind; [apply blind_io; reflexivity|]. intros err.
  apply blind_bind; [apply blind_Flat_store_inner|]. intros _.
  apply blind_ret.
Qed.

Lemma blind_Flat_Run r conn : blind (RetryableFlatCmd.Run r conn).
Proof.
  unfold RetryableFlatCmd.Run.
  apply blind_bind.
  - apply blind_Conn_Encode. intros w. apply blind_Flat_MarshalRESP.
  - intros [e|]; [apply blind_ret|].
    apply blind_Conn_Decode. intros br. apply blind_Flat_UnmarshalRESP.
Qed.

Lemma blind_Cmd_load r : blind (RetryableCmd.load r).
Proof.
  intros o s. unfold RetryableCmd.load. cbn.
  destruct (cmds s !! r); reflexivity.
Qed.

Lemma blind_Cmd_store_inner r v : blind (RetryableCmd.store_inner r v).
Proof.
  unfold RetryableCmd.store_inner.
  apply blind_bind; [apply blind_Cmd_load|]. intros x o s. reflexivity.
Qed.

Lemma blind_Cmd_getInner r : blind (RetryableCmd.getInner r).
Proof.
  unfold RetryableCmd.getInner.
  apply blind_bind; [apply blind_Cmd_load|]. intros x.
  apply blind_bind.
  - destruct (cmd_inner x); [apply blind_ret|].
    apply blind_bind; [apply blind_radix_Cmd|].
    intros a. apply blind_Cmd_store_inner.
  - intros _. apply blind_bind; [apply blind_Cmd_load|].
    intros x'. apply blind_ret.
Qed.

Lemma blind_Cmd_MarshalRESP r w : blind (RetryableCmd.MarshalRESP r w).
Proof.
  unfold RetryableCmd.MarshalRESP.
  apply blind_bind; [apply blind_Cmd_getInner|]. intros i.
  apply blind_bind; [apply blind_deref|]. intros a.
  apply blind_io. reflexivity.
Qed.

Lemma blind_Cmd_UnmarshalRESP r br : blind (RetryableCmd.UnmarshalRESP r br).
Proof.
  unfold RetryableCmd.UnmarshalRESP.
  apply blind_bind; [apply blind_Cmd_getInner|]. intros i.
  apply blind_bind; [apply blind_deref|]. intros a.
  apply blind_bind; [apply blind_io; reflexivity|]. intros err.
  apply blind_bind; [apply blind_Cmd_store_inner|]. intros _.
  apply blind_ret.
Qed.

Lemma blind_Cmd_Run r conn : blind (RetryableCmd.Run r conn).
Proof.
  unfold RetryableCmd.Run.
  apply blind_bind.
  - apply blind_Conn_Encode. intros w. apply blind_Cmd_MarshalRESP.
  - intros [e|]; [apply blind_ret|].
    apply blind_Conn_Decode. intros br. apply blind_Cmd_UnmarshalRESP.
Qed.

Lemma blind_radix_Run a conn : blind (radix.action_Run a conn).
Proof. apply blind_io. reflexivity. Qed.

Lemma strip_no_callbacks o s :
  Forall (fun ev => is_callback ev = false) (trace (strip o s)).
Proof.
  cbn. apply Forall_forall. intros ev Hin.
  apply list_elem_of_In, List.filter_In in Hin. destruct Hin as [_ Hin].
  destruct (is_callback ev); [discriminate|reflexivity].
Qed.

(** C8. The callbacks only observe.  Running [Dial] or [Do] on the machine
    with every callback erased gives the same result as running it with the
    callbacks in place, and the same final machine up to that erasure: the same
    script positions, the same connections and objects, the same dials,
    closes, marshals, flushes, unmarshals and sleeps in the same order.  This
    holds for every action whose [Run] does not itself depend on the callbacks,
    as is the case for the actions of this package and of radix.  In the run
    without callbacks no callback event occurs and the observers' state stays
    what it was. *)
Theorem callbacks_only_observe :
  (forall cfg o s,
     Dial (Some (strip_cfg cfg)) (strip o s)
     = (fst (Dial (Some cfg) s), strip o (snd (Dial (Some cfg) s))))
  /\ (forall fuel rc a,
        (forall conn, blind (Run a conn)) ->
        forall o s,
          Do fuel rc a (strip o s)
          = (fst (Do fuel rc a s), strip o (snd (Do fuel rc a s))))
  /\ (forall r conn,
        blind (Run (RetryableFlatCmd.as_Action r) conn)
        /\ blind (Run (RetryableCmd.as_Action r) conn))
  /\ (forall a conn, blind (Run (radix.as_Action a) conn))
  /\ (forall cfg o s,
        obs (snd (Dial (Some (strip_cfg cfg)) (strip o s))) = o
        /\ Forall (fun ev => is_callback ev = false)
                  (trace (snd (Dial (Some (strip_cfg cfg)) (strip o s)))))
  /\ (forall fuel rc a,
        (forall conn, blind (Run a conn)) ->
        forall o s,
          obs (snd (Do fuel rc a (strip o s))) = o
          /\ Forall (fun ev => is_callback ev = false)
                    (trace (snd (Do fuel rc a (strip o s))))).
Proof.
  split; [exact Dial_blind|].
  split; [intros fuel rc a Ha; exact (Do_blind fuel rc a Ha)|].
  split; [intros r conn; split; [apply blind_Flat_Run|apply blind_Cmd_Run]|].
  split; [intros a conn; apply blind_radix_Run|].
  split.
  - intros cfg o s. rewrite Dial_blind. cbn [snd].
    split; [reflexivity|apply strip_no_callbacks].
  - intros fuel rc a Ha o s. rewrite (Do_blind fuel rc a Ha). cbn [snd].
    split; [reflexivity|apply strip_no_callbacks].
Qed.

(** ** The claims at sample machines *)

Example Dial_reaches_dialled :
  Dial (Some demo_cfg) (boot [DialOk] [])
  = (Ret (Some (RetryableConn 0), None),
     set_obs ["Reconnect triggered"]
       (set_trace [EvOnReconnect None; EvDial "tcp" "localhost:6379" []]
          (dialled [] []))).
Proof. reflexivity. Qed.

Example FlatCmd_builds_hset :
  FlatCmd VNil "HSET" "testing_h" [VInt 5; VStr "wew"] (dialled [] [])
  = (Ret 0, with_hset []).
Proof. reflexivity. Qed.

Example Cmd_builds_incr :
  Cmd (VPtr 0) "INCR" ["test"] (dialled [] [])
  = (Ret 0, with_incr []).
Proof. reflexivity. Qed.

Lemma Do_terminal_error_witness :
  Do 1 0 (radix.as_Action incr_test) (connected [] [Some wrongtype_err])
  = (Ret (Some wrongtype_err),
     snd (radix.Do 0 (radix.as_Action incr_test)
            (connected [] [Some wrongtype_err]))).
Proof.
  apply (Do_terminal_error 0 0 _ (mkConn (Some 0) (Some demo_cfg)) 0);
    reflexivity.
Defined.

Lemma Do_loading_retry_witness :
  exists s2,
    Do 2 0 (radix.as_Action incr_test) (connected [] [Some loading_err])
    = Do 1 0 (radix.as_Action incr_test) s2
    /\ trace s2 = [EvRun (RadixConn 0) incr_test;
                   EvOnRetry (Some loading_err);
                   EvSleep 250000000%Z]
    /\ conns s2 !! 0 = Some (mkConn (Some 0) (Some demo_cfg))
    /\ dials s2 = 1.
Proof.
  destruct (Do_loading_retry 1 0 (radix.as_Action incr_test)
              (mkConn (Some 0) (Some demo_cfg)) 0 demo_cfg loading_err
              (connected [] [Some loading_err])
              (snd (radix.Do 0 (radix.as_Action incr_test)
                      (connected [] [Some loading_err]))))
    as (s2 & H1 & H2 & _ & _ & H5 & _ & H7 & _); try reflexivity.
  exists s2. repeat split; assumption.
Defined.

(** C2 as stated fails: the text of this error begins with LOADING, but the
    error is a [net.Error], and [Do] closes the connection, tells the
    reconnect observer, dials, and issues the action on the new connection 1;
    it neither runs the retry callback nor sleeps. *)
Lemma Do_loading_net_error_reconnects :
  String.prefix "LOADING" (err_text loading_net_err) = true
  /\ radix.Do 0 (radix.as_Action incr_test)
       (connected [] [Some loading_net_err])
     = (Ret (Some loading_net_err),
        snd (radix.Do 0 (radix.as_Action incr_test)
               (connected [] [Some loading_net_err])))
  /\ exists s',
       Do 2 0 (radix.as_Action incr_test) (connected [] [Some loading_net_err])
       = (Ret None, s')
       /\ trace s' = [EvRun (RadixConn 0) incr_test;
                      EvClose 0;
                      EvOnReconnect (Some loading_net_err);
                      EvDial "tcp" "localhost:6379" [];
                      EvRun (RadixConn 1) incr_test]
       /\ conns s' !! 0 = Some (mkConn (Some 1) (Some demo_cfg))
       /\ dials s' = 2
       /\ sleeps (trace s') = [].
Proof.
  split; [reflexivity|]. split; [reflexivity|].
  eexists. split; [vm_compute; reflexivity|]. repeat split.
Qed.

Lemma Do_net_error_reconnects_witness :
  exists s2 evs,
    ReconnectLoop 3 0 (Some reset_err)
      (snd (radix.Do 0 (radix.as_Action incr_test)
              (connected [DialErr refused_err; DialErr reset_err]
                         [Some reset_err])))
    = (Ret None, s2)
    /\ Do 4 0 (radix.as_Action incr_test)
         (connected [DialErr refused_err; DialErr reset_err] [Some reset_err])
       = Do 3 0 (radix.as_Action incr_test) s2
    /\ conns s2 !! 0 = Some (mkConn (Some 3) (Some demo_cfg))
    /\ dial_count evs = 3
    /\ reconnect_causes evs
       = [Some reset_err; Some refused_err; Some reset_err].
Proof.
  destruct (Do_net_error_reconnects 3 0 (radix.as_Action incr_test)
              (mkConn (Some 0) (Some demo_cfg)) 0 reset_err
              (connected [DialErr refused_err; DialErr reset_err]
                         [Some reset_err])
              (snd (radix.Do 0 (radix.as_Action incr_test)
                      (connected [DialErr refused_err; DialErr reset_err]
                                 [Some reset_err])))
              eq_refl eq_refl eq_refl eq_refl) as [_ H].
  destruct (H (mkConn (Some 0) (Some demo_cfg)) demo_cfg
              [refused_err; reset_err] eq_refl eq_refl)
    as (s2 & evs & H1 & H2 & H3 & _ & H5 & H6).
  - intros [|[|i]] e' Hi; cbn in Hi; inversion Hi; reflexivity.
  - reflexivity.
  - cbn. lia.
  - exists s2, evs. repeat split; assumption.
Defined.

Lemma Do_net_error_before_loading_witness :
  Do 2 0 (radix.as_Action incr_test) (connected [] [Some loading_net_err])
  = (ReconnectLoop 1 0 (Some loading_net_err) ;;
     Do 1 0 (radix.as_Action incr_test))
      (snd (radix.Do 0 (radix.as_Action incr_test)
              (connected [] [Some loading_net_err]))).
Proof.
  apply (Do_net_error_before_loading 1 0 (radix.as_Action incr_test)
           (mkConn (Some 0) (Some demo_cfg)) 0 loading_net_err
           (connected [] [Some loading_net_err]) _
           eq_refl eq_refl eq_refl eq_refl eq_refl).
Defined.

Lemma ReconnectLoop_policy_witness :
  exists s' evs,
    ReconnectLoop 3 0 (Some reset_err)
      (connected [DialErr refused_err; DialErr reset_err] [])
    = (Ret None, s')
    /\ dials s' = 4
    /\ dial_count evs = 3
    /\ sleeps evs = [500000000%Z; 500000000%Z]
    /\ reconnect_causes evs
       = [Some reset_err; Some refused_err; Some reset_err].
Proof.
  destruct (ReconnectLoop_policy 0 (Some reset_err)
              (mkConn (Some 0) (Some demo_cfg)) demo_cfg
              (connected [DialErr refused_err; DialErr reset_err] [])
              eq_refl eq_refl) as [H _].
  destruct (H [refused_err; reset_err] 3)
    as (s' & evs & H1 & H2 & _ & H4 & H5 & H6).
  - intros [|[|i]] e' Hi; cbn in Hi; inversion Hi; reflexivity.
  - reflexivity.
  - cbn. lia.
  - exists s', evs. repeat split; try assumption.
    exact (H6 _ eq_refl).
Defined.

Lemma Dial_failure_leaves_nil_inner_witness :
  exists rc s',
    Dial (Some demo_cfg) (boot [DialErr refused_err] [])
    = (Ret (Some (RetryableConn rc), Some refused_err), s')
    /\ conns s' !! rc = Some (mkConn None (Some demo_cfg))
    /\ Do 1 rc (radix.as_Action incr_test) s' = (Panic, s')
    /\ Close rc s' = (Panic, s').
Proof.
  destruct (Dial_failure_leaves_nil_inner demo_cfg refused_err
              (boot [DialErr refused_err] []) eq_refl)
    as (rc & s' & H1 & H2 & H3).
  destruct (H3 s' eq_refl) as (Hdo & Hclose & _).
  exists rc, s'. repeat split; try assumption. apply Hdo.
Defined.

(** C4 as stated fails: the marshal of this [Run] succeeds and the flush
    fails, so [Encode] fails; [Run] returns that error, having completed
    without attempting [Decode], and the object is still bound to the action
    its constructor allocated. *)
Lemma Run_encode_failure_keeps_inner :
  RetryableFlatCmd.Run 0 (RadixConn 0) (with_hset [None; Some reset_err])
  = (Ret (Some reset_err),
     snd (RetryableFlatCmd.Run 0 (RadixConn 0)
            (with_hset [None; Some reset_err])))
  /\ trace (snd (RetryableFlatCmd.Run 0 (RadixConn 0)
                   (with_hset [None; Some reset_err])))
     = [EvMarshal 0 (RFlatCmd 0 VNil "HSET" "testing_h" [VInt 5; VStr "wew"]);
        EvFlush 0]
  /\ flats (snd (RetryableFlatCmd.Run 0 (RadixConn 0)
                   (with_hset [None; Some reset_err]))) !! 0
     = Some hset_obj
  /\ flat_inner hset_obj <> None.
Proof.
  repeat split; try reflexivity. discriminate.
Qed.

Lemma hset_obj_ok es : flat_ok hset_obj (with_hset es).
Proof.
  intros a Ha. inversion Ha; subst. exists 0. split; [cbn; lia|reflexivity].
Defined.

Lemma incr_obj_ok es : cmd_ok incr_obj (with_incr es).
Proof.
  intros a Ha. inversion Ha; subst. exists 0. split; [cbn; lia|reflexivity].
Defined.

Lemma Run_rebinds_after_decode_witness :
  exists eerr s1,
    Conn_Encode (RetryableConn 0)
      (mkMarshaler (RetryableFlatCmd.MarshalRESP 0))
      (with_hset [None; None; Some loading_err])
    = (Ret eerr, s1)
    /\ eerr = None
    /\ exists err s',
         RetryableFlatCmd.Run 0 (RetryableConn 0)
           (with_hset [None; None; Some loading_err])
         = (Ret err, s')
         /\ err = Some loading_err
         /\ flats s' !! 0 = Some (flat_with hset_obj None)
         /\ exists err2 s2 evs,
              RetryableFlatCmd.Run 0 (RetryableConn 0) s' = (Ret err2, s2)
              /\ trace s2
                 = trace s'
                   ++ EvMarshal 0 (RFlatCmd 1 VNil "HSET" "testing_h"
                                            [VInt 5; VStr "wew"]) :: evs.
Proof.
  destruct (proj1 Run_rebinds_after_decode 0 (RetryableConn 0) 0 hset_obj
              (with_hset [None; None; Some loading_err])
              eq_refl (hset_obj_ok _) eq_refl)
    as (eerr & s1 & HE & _ & H).
  assert (Heerr : eerr = None) by (vm_compute in HE; congruence).
  subst eerr. destruct H as (err & s' & HR & _ & Ho & _ & Hnext).
  exists None, s1. split; [exact HE|]. split; [reflexivity|].
  exists err, s'. split; [exact HR|].
  assert (Hs' : err = Some loading_err /\ allocs s' = 1)
    by (vm_compute in HR; inversion HR; subst; split; reflexivity).
  destruct Hs' as [Herr Hal]. rewrite Hal in Hnext.
  split; [exact Herr|]. split; [exact Ho|]. exact Hnext.
Defined.

Lemma UnmarshalRESP_discards_inner_witness :
  exists s',
    RetryableCmd.UnmarshalRESP 0 0 (with_incr [Some wrongtype_err])
    = (Ret (Some wrongtype_err), s')
    /\ cmds s' !! 0 = Some (cmd_with incr_obj None)
    /\ exists s'',
         RetryableCmd.getInner 0 s'
         = (Ret (Some (cmd_fresh incr_obj (allocs s'))), s'')
         /\ cmd_fresh incr_obj (allocs s') <> RCmd 0 (VPtr 0) "INCR" ["test"].
Proof.
  destruct (proj2 UnmarshalRESP_discards_inner 0 0 incr_obj
              (with_incr [Some wrongtype_err]) eq_refl (incr_obj_ok _))
    as (s' & H1 & _ & H3 & _ & s'' & H5 & H6 & _).
  exists s'. split; [exact H1|]. split; [exact H3|].
  exists s''. split; [exact H5|exact H6].
Defined.

Lemma callbacks_only_observe_witness :
  Do 3 0 (RetryableFlatCmd.as_Action 0)
    (strip [] (with_hset [None; None; Some loading_err]))
  = (fst (Do 3 0 (RetryableFlatCmd.as_Action 0)
            (with_hset [None; None; Some loading_err])),
     strip [] (snd (Do 3 0 (RetryableFlatCmd.as_Action 0)
                      (with_hset [None; None; Some loading_err])))).
Proof.
  apply (proj1 (proj2 callbacks_only_observe) 3 0
           (RetryableFlatCmd.as_Action 0)
           (fun conn =>
              proj1 (proj1 (proj2 (proj2 callbacks_only_observe)) 0 conn))).
Defined.

(** ** The scenarios of the specification, run *)

(** The connection is lost, two dials fail, the third succeeds: [Do] sleeps
    twice 500ms and returns nil after running the action on the new
    connection. *)
Example scenario_reconnect :
  let r := Do 4 0 (radix.as_Action incr_test)
             (connected [DialErr refused_err; DialErr refused_err]
                        [Some reset_err]) in
  fst r = Ret None
  /\ sleeps (trace (snd r)) = [500000000%Z; 500000000%Z]
  /\ dial_count (trace (snd r)) = 3
  /\ conns (snd r) !! 0 = Some (mkConn (Some 3) (Some demo_cfg))
  /\ List.last (trace (snd r)) (EvFlush 0) = EvRun (RadixConn 3) incr_test.
Proof. vm_compute. repeat split. Qed.

(** The server answers LOADING three times and then succeeds: three retry
    callbacks, three sleeps of 250ms, no dial, and a newly allocated action
    for every attempt. *)
Example scenario_loading :
  let r := Do 4 0 (RetryableCmd.as_Action 0)
             (with_incr [None; None; Some loading_err;
                         None; None; Some loading_err;
                         None; None; Some loading_err]) in
  fst r = Ret None
  /\ sleeps (trace (snd r)) = [250000000%Z; 250000000%Z; 250000000%Z]
  /\ obs (snd r) = ["Retry triggered"; "Retry triggered"; "Retry triggered"]
  /\ dial_count (trace (snd r)) = 0
  /\ allocs (snd r) = 4
  /\ cmds (snd r) !! 0 = Some (cmd_with incr_obj None).
Proof. vm_compute. repeat split. Qed.

(** The server answers WRONGTYPE: the error comes back at once. *)
Example scenario_wrongtype :
  let r := Do 4 0 (RetryableCmd.as_Action 0)
             (with_incr [None; None; Some wrongtype_err]) in
  fst r = Ret (Some wrongtype_err)
  /\ sleeps (trace (snd r)) = []
  /\ dial_count (trace (snd r)) = 0.
Proof. vm_compute. repeat split. Qed.

(** The flat command run twice through the same wrapper: two writes, each
    with an action of its own. *)
Example scenario_twice :
  let r := (Do 1 0 (RetryableFlatCmd.as_Action 0) ;;
            Do 1 0 (RetryableFlatCmd.as_Action 0)) (with_hset []) in
  fst r = Ret None
  /\ trace (snd r)
     = [EvMarshal 0 (RFlatCmd 0 VNil "HSET" "testing_h" [VInt 5; VStr "wew"]);
        EvFlush 0;
        EvUnmarshal 0 (RFlatCmd 0 VNil "HSET" "testing_h" [VInt 5; VStr "wew"]);
        EvMarshal 0 (RFlatCmd 1 VNil "HSET" "testing_h" [VInt 5; VStr "wew"]);
        EvFlush 0;
        EvUnmarshal 0 (RFlatCmd 1 VNil "HSET" "testing_h" [VInt 5; VStr "wew"])].
Proof. vm_compute. repeat split. Qed.

(** * Further properties *)

(** ** What [Do] can return *)

Lemma bind_Ret_inv {A B} (m : M A) (f : A -> M B) s b s' :
  bind m f s = (Ret b, s') ->
  exists a s1, m s = (Ret a, s1) /\ f a s1 = (Ret b, s').
Proof.
  unfold bind. destruct (m s) as [[a| |] s1]; intros H; try discriminate H.
  eauto.
Qed.

(** X1. Only nil and terminal errors cross the [Do] boundary: an error that [Do]
    returns is never a [net.Error] and never has a text beginning with
    LOADING, whatever the action and however many turns were taken. *)
Theorem Do_returns_only_terminal_errors fuel :
  forall rc a s e s',
    Do fuel rc a s = (Ret (Some e), s') -> terminal e.
Proof.
  induction fuel as [|fuel IH]; intros rc a s e s' H; [discriminate H|].
  destruct (conns s !! rc) as [[i cf]|] eqn:Hw.
  2: { rewrite (Do_no_wrapper fuel rc a s Hw) in H. discriminate H. }
  destruct i as [c|].
  2: { destruct (nil_inner_panics rc cf s Hw) as (Hp & _).
       rewrite Hp in H. discriminate H. }
  rewrite (Do_turn fuel rc a _ c s Hw eq_refl) in H.
  destruct (radix.Do c a s) as [[[e1|]| |] s1]; try discriminate H.
  destruct (err_is_net e1) eqn:Hnet.
  - apply bind_Ret_inv in H. destruct H as (r & s2 & _ & H).
    eapply IH. exact H.
  - destruct (String.prefix "LOADING" (err_text e1)) eqn:Hl.
    + apply bind_Ret_inv in H. destruct H as (w' & s2 & _ & H).
      apply bind_Ret_inv in H. destruct H as (cfg & s3 & _ & H).
      apply bind_Ret_inv in H. destruct H as (u & s4 & _ & H).
      apply bind_Ret_inv in H. destruct H as (u' & s5 & _ & H).
      eapply IH. exact H.
    + inversion H; subst. split; assumption.
Qed.

Lemma retry_errors_app t1 t2 :
  retry_errors (t1 ++ t2) = retry_errors t1 ++ retry_errors t2.
Proof.
  induction t1 as [|ev t1 IH]; [reflexivity|].
  destruct ev; cbn; rewrite ?IH; reflexivity.
Qed.

Lemma closed_app t1 t2 : closed (t1 ++ t2) = closed t1 ++ closed t2.
Proof.
  induction t1 as [|ev t1 IH]; [reflexivity|].
  destruct ev; cbn; rewrite ?IH; reflexivity.
Qed.

Lemma marshalled_app t1 t2 :
  marshalled (t1 ++ t2) = marshalled t1 ++ marshalled t2.
Proof.
  induction t1 as [|ev t1 IH]; [reflexivity|].
  destruct ev; cbn; rewrite ?IH; reflexivity.
Qed.

Lemma unmarshalled_app t1 t2 :
  unmarshalled (t1 ++ t2) = unmarshalled t1 ++ unmarshalled t2.
Proof.
  induction t1 as [|ev t1 IH]; [reflexivity|].
  destruct ev; cbn; rewrite ?IH; reflexivity.
Qed.

Lemma loading_events_read cfg c a errs :
  sleeps (loading_events cfg c a errs)
  = repeat (Millisecond * 250)%Z (length errs)
  /\ dial_count (loading_events cfg c a errs) = 0
  /\ closed (loading_events cfg c a errs) = []
  /\ reconnect_causes (loading_events cfg c a errs) = []
  /\ retry_errors (loading_events cfg c a errs)
     = match OnRetry cfg with
       | Some _ => map Some errs
       | None => []
       end.
Proof.
  induction errs as [|e errs (IH1 & IH2 & IH3 & IH4 & IH5)].
  - cbn. destruct (OnRetry cfg); repeat split.
  - cbn [loading_events].
    rewrite !sleeps_app, !dial_count_app, !closed_app, !reconnect_causes_app,
      !retry_errors_app, IH1, IH2, IH3, IH4, IH5.
    destruct (OnRetry cfg); repeat split.
Qed.

(** ** Whole runs of [Do] on a plain radix action *)

(** X2. The server answers a plain radix action with the loading errors [errs],
    one per run, and then with nil or a terminal error: [Do] returns that last
    answer after one run per answer, all on the same connection, having slept
    250ms after each loading error and called the retry callback, if there is
    one, with each of them; it has dialled nothing, closed nothing and left
    the wrappers as they were. *)
Theorem Do_loading_replies rc a c cfg errs :
  forall fuel s res,
    conns s !! rc = Some (mkConn (Some c) (Some cfg)) ->
    Forall loading errs ->
    (forall i e, errs !! i = Some e ->
                 io_script (world s) (ios s + i) = Some e) ->
    io_script (world s) (ios s + length errs) = res ->
    final res ->
    length errs < fuel ->
    exists s' evs,
      Do fuel rc (radix.as_Action a) s = (Ret res, s')
      /\ trace s' = trace s ++ evs
      /\ evs = loading_events cfg c a errs
      /\ sleeps evs = repeat (Millisecond * 250)%Z (length errs)
      /\ retry_errors evs = match OnRetry cfg with
                            | Some _ => map Some errs
                            | None => []
                            end
      /\ dial_count evs = 0
      /\ closed evs = []
      /\ ios s' = ios s + S (length errs)
      /\ dials s' = dials s
      /\ conns s' = conns s.
Proof.
  induction errs as [|e errs IH]; intros fuel s res Hw Hload Hscript Hres Hfin Hfuel;
    (destruct fuel as [|fuel]; [cbn in Hfuel; lia|]);
    rewrite (Do_turn fuel rc (radix.as_Action a) _ c s Hw eq_refl);
    unfold radix.Do; cbn [Run radix.as_Action]; unfold radix.action_Run, io.
  - cbn [length] in Hres. rewrite Nat.add_0_r in Hres. rewrite Hres.
    destruct (loading_events_read cfg c a []) as (R1 & R2 & R3 & _ & R5).
    destruct res as [e0|]; [destruct Hfin as [Hn Hp]; rewrite Hn, Hp|];
      do 2 eexists; (split; [reflexivity|]);
      cbn; repeat split; try assumption; try reflexivity; lia.
  - pose proof (Hscript 0 e eq_refl) as H0. rewrite Nat.add_0_r in H0.
    rewrite H0. apply Forall_cons in Hload as [[Hnet Hpre] Hload'].
    rewrite Hnet, Hpre.
    set (s1 := set_ios (S (ios s))
                 (set_trace (trace s ++ [EvRun (RadixConn c) a]) s)).
    assert (Hw1 : conns s1 !! rc = Some (mkConn (Some c) (Some cfg))) by exact Hw.
    unfold bind at 1, load_conn. rewrite Hw1.
    unfold bind at 1. cbn [conf deref ret].
    set (s2 := snd ((match OnRetry cfg with
                     | Some cb => call (EvOnRetry (Some e)) cb (Some e)
                     | None => ret tt
                     end) s1)).
    set (s3 := set_trace (trace s2 ++ [EvSleep (Millisecond * 250)%Z]) s2).
    assert (Hstep : (((match OnRetry cfg with
                       | Some cb => call (EvOnRetry (Some e)) cb (Some e)
                       | None => ret tt
                       end) ;;
                      time_Sleep (Millisecond * 250)%Z ;;
                      Do fuel rc (radix.as_Action a)) s1)
                    = Do fuel rc (radix.as_Action a) s3).
    { subst s3 s2. destruct (OnRetry cfg); reflexivity. }
    rewrite Hstep.
    assert (Hs3 : conns s3 = conns s /\ world s3 = world s
                  /\ ios s3 = S (ios s) /\ dials s3 = dials s
                  /\ trace s3 = trace s ++ [EvRun (RadixConn c) a]
                                ++ match OnRetry cfg with
                                   | Some _ => [EvOnRetry (Some e)]
                                   | None => []
                                   end
                                ++ [EvSleep (Millisecond * 250)%Z]).
    { subst s3 s2 s1. destruct (OnRetry cfg); cbn;
        rewrite <- ?app_assoc; repeat split. }
    destruct Hs3 as (Hc3 & Hwd3 & Hio3 & Hd3 & Ht3).
    destruct (IH fuel s3 res) as (s' & evs & HD & Ht & Hev & _ & _ & _ & _ & Hio & Hd & Hc).
    + rewrite Hc3. exact Hw.
    + exact Hload'.
    + intros i e' Hi. rewrite Hwd3, Hio3.
      replace (S (ios s) + i) with (ios s + S i) by lia. apply Hscript. exact Hi.
    + rewrite Hwd3, Hio3. rewrite <- Hres. f_equal. cbn. lia.
    + exact Hfin.
    + cbn in Hfuel. lia.
    + destruct (loading_events_read cfg c a (e :: errs)) as (R1 & R2 & R3 & _ & R5).
      exists s', (loading_events cfg c a (e :: errs)).
      split; [exact HD|].
      repeat split; try assumption.
      * rewrite Ht, Ht3, Hev. cbn [loading_events]. rewrite <- !app_assoc.
        reflexivity.
      * rewrite Hio, Hio3. cbn. lia.
      * congruence.
      * congruence.
Qed.

Lemma reconnect_events_closed cfg errs :
  forall i cause,
    closed (reconnect_events cfg i cause errs)
    = match i with Some c => [c] | None => [] end.
Proof.
  induction errs as [|e errs IH]; intros i cause; cbn [reconnect_events].
  - unfold attempt_events. destruct i, (OnReconnect cfg); reflexivity.
  - rewrite !closed_app, IH. unfold attempt_events.
    destruct i, (OnReconnect cfg); reflexivity.
Qed.

Lemma reconnect_events_no_retry cfg errs :
  forall i cause, retry_errors (reconnect_events cfg i cause errs) = [].
Proof.
  induction errs as [|e errs IH]; intros i cause; cbn [reconnect_events].
  - unfold attempt_events. destruct i, (OnReconnect cfg); reflexivity.
  - rewrite !retry_errors_app, IH. unfold attempt_events.
    destruct i, (OnReconnect cfg); reflexivity.
Qed.

Lemma Do_reconnect_run rc a c cfg e errs fuel s res :
  conns s !! rc = Some (mkConn (Some c) (Some cfg)) ->
  io_script (world s) (ios s) = Some e ->
  err_is_net e = true ->
  (forall i e', errs !! i = Some e' ->
                dial_script (world s) (dials s + i) = DialErr e') ->
  dial_script (world s) (dials s + length errs) = DialOk ->
  io_script (world s) (S (S (ios s))) = res ->
  final res ->
  length errs < fuel ->
  exists s' evs,
    Do (S fuel) rc (radix.as_Action a) s = (Ret res, s')
    /\ trace s' = trace s ++ evs
    /\ evs = [EvRun (RadixConn c) a]
             ++ reconnect_events cfg (Some c) (Some e) errs
             ++ [EvRun (RadixConn (dials s + length errs)) a]
    /\ closed evs = [c]
    /\ dial_count evs = S (length errs)
    /\ sleeps evs = repeat (Millisecond * 500)%Z (length errs)
    /\ retry_errors evs = []
    /\ dials s' = S (dials s + length errs)
    /\ conns s' !! rc = Some (mkConn (Some (dials s + length errs)) (Some cfg)).
Proof.
  intros Hw Hio Hnet Hfail Hok Hres Hfin Hfuel.
  assert (Hlt : rc < length (conns s)) by (eapply lookup_lt_Some; eauto).
  rewrite (Do_turn fuel rc (radix.as_Action a) _ c s Hw eq_refl).
  unfold radix.Do; cbn [Run radix.as_Action]; unfold radix.action_Run, io.
  rewrite Hio, Hnet.
  set (s1 := set_ios (S (ios s))
               (set_trace (trace s ++ [EvRun (RadixConn c) a]) s)).
  destruct (ReconnectLoop_success rc errs fuel (Some e)
              (mkConn (Some c) (Some cfg)) cfg s1 Hw eq_refl Hfail Hok Hfuel)
    as (s2 & HL & Hwd2 & Hd2 & Hio2 & _ & Hc2 & _ & _ & Ht2).
  cbn in Hwd2, Hd2, Hio2, Hc2, Ht2.
  unfold bind at 1. rewrite HL.
  assert (Hw2 : conns s2 !! rc
                = Some (mkConn (Some (dials s + length errs)) (Some cfg)))
    by (rewrite Hc2; apply list_lookup_insert_eq; exact Hlt).
  destruct fuel as [|fuel]; [lia|].
  rewrite (Do_turn fuel rc (radix.as_Action a) _ _ s2 Hw2 eq_refl).
  unfold radix.Do; cbn [Run radix.as_Action]; unfold radix.action_Run, io.
  rewrite Hwd2, Hio2, Hres.
  eexists.
  exists ([EvRun (RadixConn c) a]
            ++ reconnect_events cfg (Some c) (Some e) errs
            ++ [EvRun (RadixConn (dials s + length errs)) a]).
  split.
  { destruct res as [e0|]; [destruct Hfin as [Hn Hp]; rewrite Hn, Hp|];
      reflexivity. }
  rewrite !closed_app, !dial_count_app, !sleeps_app, !retry_errors_app,
    reconnect_events_closed, reconnect_events_dial_count,
    reconnect_events_sleeps, reconnect_events_no_retry.
  cbn. repeat split; try assumption.
  - rewrite Ht2, <- !app_assoc. reflexivity.
  - rewrite Nat.add_0_r. reflexivity.
  - rewrite app_nil_r. reflexivity.
Qed.

(** X3. The connection is lost under a plain radix action: its run fails with a
    [net.Error], the dials fail with [errs] and then succeed, and the run on
    the new connection is answered with nil or a terminal error.  [Do] returns
    that answer; it has closed the old connection once, whatever that close
    answered, dialled once per attempt, slept 500ms after each failed attempt,
    and run the action twice, last on the new connection. *)
Theorem Do_reconnects_then_answers rc a c cfg e errs fuel s res :
  conns s !! rc = Some (mkConn (Some c) (Some cfg)) ->
  io_script (world s) (ios s) = Some e ->
  err_is_net e = true ->
  (forall i e', errs !! i = Some e' ->
                dial_script (world s) (dials s + i) = DialErr e') ->
  dial_script (world s) (dials s + length errs) = DialOk ->
  io_script (world s) (S (S (ios s))) = res ->
  final res ->
  length errs < fuel ->
  exists s' evs,
    Do (S fuel) rc (radix.as_Action a) s = (Ret res, s')
    /\ trace s' = trace s ++ evs
    /\ evs = [EvRun (RadixConn c) a]
             ++ reconnect_events cfg (Some c) (Some e) errs
             ++ [EvRun (RadixConn (dials s + length errs)) a]
    /\ closed evs = [c]
    /\ dial_count evs = S (length errs)
    /\ sleeps evs = repeat (Millisecond * 500)%Z (length errs)
    /\ retry_errors evs = []
    /\ dials s' = S (dials s + length errs)
    /\ conns s' !! rc = Some (mkConn (Some (dials s + length errs)) (Some cfg)).
Proof. exact (Do_reconnect_run rc a c cfg e errs fuel s res). Qed.

(** ** Reconnecting *)

(** X4. While the server stays unreachable [Do] does not return: after a
    [net.Error] from the inner connection, if every dial fails, [Do] is still
    in its reconnect loop after any number of turns, with one dial made per
    turn. *)
Theorem Do_blocks_while_unreachable rc a c cfg w e s s1 :
  conns s !! rc = Some w ->
  inner w = Some c ->
  radix.Do c a s = (Ret (Some e), s1) ->
  err_is_net e = true ->
  conns s1 !! rc = Some w ->
  conf w = Some cfg ->
  (forall i, dial_script (world s1) (dials s1 + i) <> DialOk) ->
  forall fuel,
  exists s' evs,
    Do (S fuel) rc a s = (OutOfFuel, s')
    /\ trace s' = trace s1 ++ evs
    /\ dials s' = dials s1 + fuel
    /\ dial_count evs = fuel
    /\ sleeps evs = repeat (Millisecond * 500)%Z fuel.
Proof.
  intros Hw Hc Hdo Hnet Hw1 Hcfg Hfail fuel.
  rewrite (Do_turn fuel rc a w c s Hw Hc), Hdo, Hnet.
  destruct (ReconnectLoop_keeps_trying rc fuel (Some e) w cfg s1 Hw1 Hcfg Hfail)
    as (s' & evs & HL & Hd & Ht & Hdc & Hsl).
  exists s', evs. unfold bind. rewrite HL. repeat split; assumption.
Qed.


(** ** The forwarding methods *)

(** X6. [Close] forwards to the inner connection and changes nothing of the
    wrapper, which keeps the closed connection.  A [Do] that follows runs the
    action on that connection, and when the connection answers with a
    [net.Error] the wrapper reconnects, closing the old connection a second
    time, and answers from the new connection: a closed wrapper comes back to
    life. *)
Theorem Close_then_Do_reconnects rc a c cfg e s res :
  conns s !! rc = Some (mkConn (Some c) (Some cfg)) ->
  io_script (world s) (S (ios s)) = Some e ->
  err_is_net e = true ->
  dial_script (world s) (dials s) = DialOk ->
  io_script (world s) (S (S (S (ios s)))) = res ->
  final res ->
  exists s1 s',
    Close rc s = (Ret (io_script (world s) (ios s)), s1)
    /\ conns s1 = conns s
    /\ trace s1 = trace s ++ [EvClose c]
    /\ Do 2 rc (radix.as_Action a) s1 = (Ret res, s')
    /\ trace s' = trace s1
                  ++ [EvRun (RadixConn c) a; EvClose c]
                  ++ match OnReconnect cfg with
                     | Some _ => [EvOnReconnect (Some e)]
                     | None => []
                     end
                  ++ [EvDial (Network cfg) (Addr cfg) (DialOpts cfg);
                      EvRun (RadixConn (dials s)) a]
    /\ conns s' !! rc = Some (mkConn (Some (dials s)) (Some cfg)).
Proof.
  intros Hw Hio Hnet Hok Hres Hfin.
  set (s1 := set_ios (S (ios s)) (set_trace (trace s ++ [EvClose c]) s)).
  assert (HC : Close rc s = (Ret (io_script (world s) (ios s)), s1)).
  { unfold Close, bind, load_conn. rewrite Hw. reflexivity. }
  destruct (Do_reconnect_run rc a c cfg e [] 1 s1 res)
    as (s' & evs & HD & Ht & Hev & _ & _ & _ & _ & _ & Hc');
    try assumption.
  - intros i e' Hi. destruct i; discriminate Hi.
  - cbn. rewrite Nat.add_0_r. exact Hok.
  - cbn. lia.
  - exists s1, s'. split; [exact HC|]. split; [reflexivity|].
    split; [reflexivity|]. split; [exact HD|]. split.
    + rewrite Ht, Hev. cbn. rewrite Nat.add_0_r.
      destruct (OnReconnect cfg); reflexivity.
    + cbn in Hc'. rewrite Nat.add_0_r in Hc'. exact Hc'.
Qed.

(** X7. Running a command wrapper through the resilient connection is running it
    on the inner connection: the wrapper's [Encode] and [Decode] add nothing.
    On a wrapper whose inner connection is nil the run panics before anything
    is marshalled. *)
Theorem Run_through_wrapper rc w s :
  conns s !! rc = Some w ->
  (forall r o c,
     inner w = Some c ->
     flats s !! r = Some o ->
     RetryableFlatCmd.Run r (RetryableConn rc) s
     = RetryableFlatCmd.Run r (RadixConn c) s)
  /\ (forall r o c,
        inner w = Some c ->
        cmds s !! r = Some o ->
        RetryableCmd.Run r (RetryableConn rc) s
        = RetryableCmd.Run r (RadixConn c) s)
  /\ (inner w = None ->
      forall r,
        RetryableFlatCmd.Run r (RetryableConn rc) s = (Panic, s)
        /\ RetryableCmd.Run r (RetryableConn rc) s = (Panic, s)).
Proof.
  intros Hw. repeat split.
  - intros r o c Hc Ho.
    rewrite (Flat_Run_run r (RetryableConn rc) c o s Ho)
      by (cbn; rewrite Hw; exact Hc).
    rewrite (Flat_Run_run r (RadixConn c) c o s Ho) by reflexivity.
    reflexivity.
  - intros r o c Hc Ho.
    rewrite (Cmd_Run_run r (RetryableConn rc) c o s Ho)
      by (cbn; rewrite Hw; exact Hc).
    rewrite (Cmd_Run_run r (RadixConn c) c o s Ho) by reflexivity.
    reflexivity.
  - unfold RetryableFlatCmd.Run, Conn_Encode, Encode, bind, load_conn.
    rewrite Hw, H. reflexivity.
  - unfold RetryableCmd.Run, Conn_Encode, Encode, bind, load_conn.
    rewrite Hw, H. reflexivity.
Qed.

(** ** The command wrappers: binding *)

(** *** [RetryableFlatCmd] *)

Lemma Flat_getInner_binds_once r o s :
  flats s !! r = Some o ->
  exists a s1,
    RetryableFlatCmd.getInner r s = (Ret (Some a), s1)
    /\ RetryableFlatCmd.getInner r s1 = (Ret (Some a), s1)
    /\ a = flat_bound o (allocs s)
    /\ flats s1 !! r = Some (flat_with o (Some a))
    /\ allocs s1 = match flat_inner o with
                   | Some _ => allocs s
                   | None => S (allocs s)
                   end
    /\ trace s1 = trace s
    /\ ios s1 = ios s.
Proof.
  intros Ho.
  pose proof (flat_bind_state_lookup r o s Ho) as Hb.
  exists (flat_bound o (allocs s)), (flat_bind_state r o s).
  split; [apply Flat_getInner_run; exact Ho|].
  split; [rewrite (Flat_getInner_run r _ _ Hb); reflexivity|].
  split; [reflexivity|]. split; [exact Hb|].
  unfold flat_bind_state. destruct (flat_inner o); repeat split.
Qed.

Lemma Flat_Keys_binds r o s :
  flats s !! r = Some o ->
  exists s1,
    RetryableFlatCmd.Keys r s
    = (Ret (keys_script (world s) (flat_bound o (allocs s))), s1)
    /\ RetryableFlatCmd.Keys r s1
       = (Ret (keys_script (world s) (flat_bound o (allocs s))), s1)
    /\ flats s1 !! r = Some (flat_with o (Some (flat_bound o (allocs s))))
    /\ trace s1 = trace s
    /\ ios s1 = ios s
    /\ forall w,
       exists s2,
         RetryableFlatCmd.MarshalRESP r w s1
         = (Ret (io_script (world s) (ios s)), s2)
         /\ trace s2 = trace s ++ [EvMarshal w (flat_bound o (allocs s))]
         /\ allocs s2 = allocs s1.
Proof.
  intros Ho.
  pose proof (flat_bind_state_lookup r o s Ho) as Hb.
  assert (Hsame : world (flat_bind_state r o s) = world s
                  /\ trace (flat_bind_state r o s) = trace s
                  /\ ios (flat_bind_state r o s) = ios s)
    by (unfold flat_bind_state; destruct (flat_inner o); repeat split).
  destruct Hsame as (Hwd & Htr & Hio).
  exists (flat_bind_state r o s).
  split.
  { unfold RetryableFlatCmd.Keys, bind at 1.
    rewrite (Flat_getInner_run r o s Ho). unfold bind, deref, ret,
      radix.action_Keys. rewrite Hwd. reflexivity. }
  split.
  { unfold RetryableFlatCmd.Keys, bind at 1.
    rewrite (Flat_getInner_run r _ _ Hb). unfold bind, deref, ret,
      radix.action_Keys. cbn [flat_bound flat_with flat_inner flat_bind_state].
      rewrite Hwd. reflexivity. }
  split; [exact Hb|]. split; [exact Htr|]. split; [exact Hio|].
  intros w. eexists.
  split; [rewrite (Flat_MarshalRESP_run r w _ _ Hb), Hwd, Hio; reflexivity|].
  cbn. rewrite Htr. split; reflexivity.
Qed.

Lemma Flat_MarshalRESP_keeps_binding r o s w w' :
  flats s !! r = Some o ->
  exists s1 s2,
    RetryableFlatCmd.MarshalRESP r w s
    = (Ret (io_script (world s) (ios s)), s1)
    /\ RetryableFlatCmd.MarshalRESP r w' s1
       = (Ret (io_script (world s) (S (ios s))), s2)
    /\ trace s2 = trace s ++ [EvMarshal w (flat_bound o (allocs s));
                              EvMarshal w' (flat_bound o (allocs s))]
    /\ flats s2 !! r = Some (flat_with o (Some (flat_bound o (allocs s))))
    /\ allocs s2 = allocs s1.
Proof.
  intros Ho.
  pose proof (flat_bind_state_lookup r o s Ho) as Hb.
  assert (Hsame : world (flat_bind_state r o s) = world s
                  /\ trace (flat_bind_state r o s) = trace s
                  /\ ios (flat_bind_state r o s) = ios s)
    by (unfold flat_bind_state; destruct (flat_inner o); repeat split).
  destruct Hsame as (Hwd & Htr & Hio).
  set (s1 := set_ios (S (ios s))
               (set_trace (trace s ++ [EvMarshal w (flat_bound o (allocs s))])
                  (flat_bind_state r o s))).
  assert (Hb1 : flats s1 !! r
                = Some (flat_with o (Some (flat_bound o (allocs s)))))
    by exact Hb.
  exists s1. eexists.
  split; [apply Flat_MarshalRESP_run; exact Ho|].
  split; [rewrite (Flat_MarshalRESP_run r w' _ s1 Hb1); cbn; rewrite Hwd;
          reflexivity|].
  cbn. rewrite <- app_assoc. repeat split. exact Hb.
Qed.

Lemma Flat_first_Run_sends_constructed rcv cmd key args conn c s :
  conn_target conn s = Some c ->
  exists err s',
    (p <- FlatCmd rcv cmd key args ;;
     err <- RetryableFlatCmd.Run p conn ;;
     ret (p, err)) s
    = (Ret (length (flats s), err), s')
    /\ allocs s' = S (allocs s)
    /\ marshalled (trace s')
       = marshalled (trace s) ++ [RFlatCmd (allocs s) rcv cmd key args]
    /\ length (flats s') = S (length (flats s))
    /\ forall q, q < length (flats s) -> flats s' !! q = flats s !! q.
Proof.
  intros Hc.
  set (s0 := set_flats
               (flats s ++ [mkFlat rcv cmd key args
                              (Some (RFlatCmd (allocs s) rcv cmd key args))])
               (set_allocs (S (allocs s)) s)).
  assert (HF : FlatCmd rcv cmd key args s = (Ret (length (flats s)), s0))
    by reflexivity.
  assert (Ho : flats s0 !! length (flats s)
               = Some (mkFlat rcv cmd key args
                         (Some (RFlatCmd (allocs s) rcv cmd key args))))
    by (cbn; apply list_lookup_middle; reflexivity).
  assert (Hc0 : conn_target conn s0 = Some c)
    by (rewrite <- Hc; apply conn_target_same; reflexivity).
  pose proof (Flat_Run_run (length (flats s)) conn c _ s0 Ho Hc0) as HR.
  unfold bind at 1. rewrite HF. unfold bind at 1.
  assert (Hfr : forall l x q,
             q < length (flats s) ->
             (<[length (flats s) := x]> (flats s ++ l)) !! q = flats s !! q).
  { intros l x q Hq. rewrite list_lookup_insert_ne by lia.
    apply lookup_app_l. exact Hq. }
  rewrite HR. subst s0. cbn.
  destruct (io_script (world s) (ios s)) as [e|];
    [|destruct (io_script (world s) (S (ios s))) as [e|]];
    do 2 eexists; (split; [reflexivity|]); cbn;
    rewrite ?marshalled_app, ?length_insert, ?length_app; cbn;
    rewrite ?app_nil_r; repeat split; try lia;
    intros q Hq; rewrite ?Hfr by exact Hq;
    first [reflexivity | apply lookup_app_l; exact Hq].
Qed.

(** One run on a healthy connection: marshal and flush succeed, the reply is
    unmarshalled, and the object is left unbound. *)
Lemma Flat_Run_healthy r c o s :
  flats s !! r = Some o ->
  io_script (world s) (ios s) = None ->
  io_script (world s) (S (ios s)) = None ->
  exists s1,
    RetryableFlatCmd.Run r (RadixConn c) s
    = (Ret (io_script (world s) (S (S (ios s)))), s1)
    /\ trace s1 = trace s ++ [EvMarshal c (flat_bound o (allocs s));
                              EvFlush c;
                              EvUnmarshal c (flat_bound o (allocs s))]
    /\ flats s1 !! r = Some (flat_with o None)
    /\ allocs s1 = match flat_inner o with
                   | Some _ => allocs s
                   | None => S (allocs s)
                   end
    /\ world s1 = world s
    /\ ios s1 = S (S (S (ios s)))
    /\ dials s1 = dials s
    /\ conns s1 = conns s
    /\ obs s1 = obs s.
Proof.
  intros Ho Hm Hf.
  assert (Hlt : r < length (flats s)) by (eapply lookup_lt_Some; eauto).
  rewrite (Flat_Run_run r (RadixConn c) c o s Ho eq_refl), Hm, Hf.
  eexists. split; [reflexivity|]. cbn.
  split; [reflexivity|]. split.
  { apply list_lookup_insert_eq. rewrite flat_bind_state_length. exact Hlt. }
  unfold flat_bind_state. destruct (flat_inner o); repeat split.
Qed.

Lemma Flat_Do_loading_run rc r c cfg errs :
  forall fuel o s res,
    conns s !! rc = Some (mkConn (Some c) (Some cfg)) ->
    flats s !! r = Some o ->
    Forall loading errs ->
    (forall i, i <= length errs ->
               io_script (world s) (ios s + 3 * i) = None
               /\ io_script (world s) (ios s + 3 * i + 1) = None) ->
    (forall i e, errs !! i = Some e ->
                 io_script (world s) (ios s + 3 * i + 2) = Some e) ->
    io_script (world s) (ios s + 3 * length errs + 2) = res ->
    final res ->
    length errs < fuel ->
    exists s' evs,
      Do fuel rc (RetryableFlatCmd.as_Action r) s = (Ret res, s')
      /\ trace s' = trace s ++ evs
      /\ marshalled evs
         = flat_bound o (allocs s)
           :: map (flat_fresh o)
                (seq (match flat_inner o with
                      | Some _ => allocs s
                      | None => S (allocs s)
                      end) (length errs))
      /\ unmarshalled evs = marshalled evs
      /\ sleeps evs = repeat (Millisecond * 250)%Z (length errs)
      /\ retry_errors evs = match OnRetry cfg with
                            | Some _ => map Some errs
                            | None => []
                            end
      /\ dial_count evs = 0
      /\ closed evs = []
      /\ flats s' !! r = Some (flat_with o None)
      /\ allocs s' = match flat_inner o with
                     | Some _ => allocs s
                     | None => S (allocs s)
                     end + length errs
      /\ conns s' = conns s.
Proof.
  induction errs as [|e errs IH];
    intros fuel o s res Hw Ho Hload Hok Hscript Hres Hfin Hfuel;
    (destruct fuel as [|fuel]; [cbn in Hfuel; lia|]);
    destruct (Hok 0 ltac:(lia)) as [Hm Hf];
    replace (ios s + 3 * 0) with (ios s) in Hm by lia;
    replace (ios s + 3 * 0 + 1) with (S (ios s)) in Hf by lia;
    destruct (Flat_Run_healthy r c o s Ho Hm Hf)
      as (s1 & HR & Ht1 & Ho1 & Ha1 & Hwd1 & Hio1 & Hd1 & Hc1 & Hob1);
    rewrite (Do_turn fuel rc (RetryableFlatCmd.as_Action r) _ c s Hw eq_refl);
    unfold radix.Do; cbn [Run RetryableFlatCmd.as_Action]; rewrite HR.
  - cbn [length] in Hres.
    replace (ios s + 3 * 0 + 2) with (S (S (ios s))) in Hres by lia.
    rewrite Hres.
    exists s1, [EvMarshal c (flat_bound o (allocs s)); EvFlush c;
                EvUnmarshal c (flat_bound o (allocs s))].
    split.
    { destruct res as [e0|]; [destruct Hfin as [Hn Hp]; rewrite Hn, Hp|];
        reflexivity. }
    cbn. destruct (OnRetry cfg); repeat split; try assumption.
    all: rewrite Ha1; lia.
  - pose proof (Hscript 0 e eq_refl) as H0.
    replace (ios s + 3 * 0 + 2) with (S (S (ios s))) in H0 by lia.
    rewrite H0. apply Forall_cons in Hload as [[Hnet Hpre] Hload'].
    rewrite Hnet, Hpre.
    assert (Hw1 : conns s1 !! rc = Some (mkConn (Some c) (Some cfg)))
      by (rewrite Hc1; exact Hw).
    unfold bind at 1, load_conn. rewrite Hw1.
    unfold bind at 1. cbn [conf deref ret].
    set (s2 := snd ((match OnRetry cfg with
                     | Some cb => call (EvOnRetry (Some e)) cb (Some e)
                     | None => ret tt
                     end) s1)).
    set (s3 := set_trace (trace s2 ++ [EvSleep (Millisecond * 250)%Z]) s2).
    assert (Hstep : (((match OnRetry cfg with
                       | Some cb => call (EvOnRetry (Some e)) cb (Some e)
                       | None => ret tt
                       end) ;;
                      time_Sleep (Millisecond * 250)%Z ;;
                      Do fuel rc (RetryableFlatCmd.as_Action r)) s1)
                    = Do fuel rc (RetryableFlatCmd.as_Action r) s3).
    { subst s3 s2. destruct (OnRetry cfg); reflexivity. }
    rewrite Hstep.
    assert (Hs3 : conns s3 = conns s1 /\ world s3 = world s1
                  /\ ios s3 = ios s1 /\ allocs s3 = allocs s1
                  /\ flats s3 = flats s1
                  /\ trace s3 = trace s1
                                ++ match OnRetry cfg with
                                   | Some _ => [EvOnRetry (Some e)]
                                   | None => []
                                   end
                                ++ [EvSleep (Millisecond * 250)%Z]).
    { subst s3 s2. destruct (OnRetry cfg); cbn;
        rewrite <- ?app_assoc; repeat split. }
    destruct Hs3 as (Hc3 & Hwd3 & Hio3 & Ha3 & Hf3 & Ht3).
    destruct (IH fuel (flat_with o None) s3 res)
      as (s' & evs & HD & Ht & Hma & Hum & Hsl & Hre & Hdc & Hcl & Ho' & Ha' & Hc').
    + rewrite Hc3. exact Hw1.
    + rewrite Hf3. exact Ho1.
    + exact Hload'.
    + intros i Hi. rewrite Hwd3, Hwd1, Hio3, Hio1.
      destruct (Hok (S i) ltac:(cbn; lia)) as [A B].
      replace (S (S (S (ios s))) + 3 * i) with (ios s + 3 * S i) by lia.
      split; assumption.
    + intros i e' Hi. rewrite Hwd3, Hwd1, Hio3, Hio1.
      replace (S (S (S (ios s))) + 3 * i + 2) with (ios s + 3 * S i + 2) by lia.
      apply Hscript. exact Hi.
    + rewrite Hwd3, Hwd1, Hio3, Hio1. rewrite <- Hres. f_equal. cbn. lia.
    + exact Hfin.
    + cbn in Hfuel. lia.
    + cbn [flat_with flat_inner flat_bound] in Hma, Ha'.
      rewrite Ha3, Ha1 in Hma, Ha'.
      exists s', ([EvMarshal c (flat_bound o (allocs s)); EvFlush c;
                   EvUnmarshal c (flat_bound o (allocs s))]
                  ++ match OnRetry cfg with
                     | Some _ => [EvOnRetry (Some e)]
                     | None => []
                     end
                  ++ [EvSleep (Millisecond * 250)%Z] ++ evs).
      split; [exact HD|].
      rewrite !marshalled_app, !unmarshalled_app, !sleeps_app,
        !retry_errors_app, !dial_count_app, !closed_app,
        Hma, Hum, Hma, Hsl, Hre, Hdc, Hcl.
      split; [rewrite Ht, Ht3, Ht1, <- !app_assoc; reflexivity|].
      destruct (OnRetry cfg); cbn; repeat split;
        solve [ assumption | congruence | rewrite Ha'; cbn; lia ].
Qed.

(** *** [RetryableCmd] *)

Lemma Cmd_getInner_binds_once r o s :
  cmds s !! r = Some o ->
  exists a s1,
    RetryableCmd.getInner r s = (Ret (Some a), s1)
    /\ RetryableCmd.getInner r s1 = (Ret (Some a), s1)
    /\ a = cmd_bound o (allocs s)
    /\ cmds s1 !! r = Some (cmd_with o (Some a))
    /\ allocs s1 = match cmd_inner o with
                   | Some _ => allocs s
                   | None => S (allocs s)
                   end
    /\ trace s1 = trace s
    /\ ios s1 = ios s.
Proof.
  intros Ho.
  pose proof (cmd_bind_state_lookup r o s Ho) as Hb.
  exists (cmd_bound o (allocs s)), (cmd_bind_state r o s).
  split; [apply Cmd_getInner_run; exact Ho|].
  split; [rewrite (Cmd_getInner_run r _ _ Hb); reflexivity|].
  split; [reflexivity|]. split; [exact Hb|].
  unfold cmd_bind_state. destruct (cmd_inner o); repeat split.
Qed.

Lemma Cmd_Keys_binds r o s :
  cmds s !! r = Some o ->
  exists s1,
    RetryableCmd.Keys r s
    = (Ret (keys_script (world s) (cmd_bound o (allocs s))), s1)
    /\ RetryableCmd.Keys r s1
       = (Ret (keys_script (world s) (cmd_bound o (allocs s))), s1)
    /\ cmds s1 !! r = Some (cmd_with o (Some (cmd_bound o (allocs s))))
    /\ trace s1 = trace s
    /\ ios s1 = ios s
    /\ forall w,
       exists s2,
         RetryableCmd.MarshalRESP r w s1
         = (Ret (io_script (world s) (ios s)), s2)
         /\ trace s2 = trace s ++ [EvMarshal w (cmd_bound o (allocs s))]
         /\ allocs s2 = allocs s1.
Proof.
  intros Ho.
  pose proof (cmd_bind_state_lookup r o s Ho) as Hb.
  assert (Hsame : world (cmd_bind_state r o s) = world s
                  /\ trace (cmd_bind_state r o s) = trace s
                  /\ ios (cmd_bind_state r o s) = ios s)
    by (unfold cmd_bind_state; destruct (cmd_inner o); repeat split).
  destruct Hsame as (Hwd & Htr & Hio).
  exists (cmd_bind_state r o s).
  split.
  { unfold RetryableCmd.Keys, bind at 1.
    rewrite (Cmd_getInner_run r o s Ho). unfold bind, deref, ret,
      radix.action_Keys. rewrite Hwd. reflexivity. }
  split.
  { unfold RetryableCmd.Keys, bind at 1.
    rewrite (Cmd_getInner_run r _ _ Hb). unfold bind, deref, ret,
      radix.action_Keys. cbn [cmd_bound cmd_with cmd_inner cmd_bind_state].
      rewrite Hwd. reflexivity. }
  split; [exact Hb|]. split; [exact Htr|]. split; [exact Hio|].
  intros w. eexists.
  split; [rewrite (Cmd_MarshalRESP_run r w _ _ Hb), Hwd, Hio; reflexivity|].
  cbn. rewrite Htr. split; reflexivity.
Qed.

Lemma Cmd_MarshalRESP_keeps_binding r o s w w' :
  cmds s !! r = Some o ->
  exists s1 s2,
    RetryableCmd.MarshalRESP r w s
    = (Ret (io_script (world s) (ios s)), s1)
    /\ RetryableCmd.MarshalRESP r w' s1
       = (Ret (io_script (world s) (S (ios s))), s2)
    /\ trace s2 = trace s ++ [EvMarshal w (cmd_bound o (allocs s));
                              EvMarshal w' (cmd_bound o (allocs s))]
    /\ cmds s2 !! r = Some (cmd_with o (Some (cmd_bound o (allocs s))))
    /\ allocs s2 = allocs s1.
Proof.
  intros Ho.
  pose proof (cmd_bind_state_lookup r o s Ho) as Hb.
  assert (Hsame : world (cmd_bind_state r o s) = world s
                  /\ trace (cmd_bind_state r o s) = trace s
                  /\ ios (cmd_bind_state r o s) = ios s)
    by (unfold cmd_bind_state; destruct (cmd_inner o); repeat split).
  destruct Hsame as (Hwd & Htr & Hio).
  set (s1 := set_ios (S (ios s))
               (set_trace (trace s ++ [EvMarshal w (cmd_bound o (allocs s))])
                  (cmd_bind_state r o s))).
  assert (Hb1 : cmds s1 !! r
                = Some (cmd_with o (Some (cmd_bound o (allocs s)))))
    by exact Hb.
  exists s1. eexists.
  split; [apply Cmd_MarshalRESP_run; exact Ho|].
  split; [rewrite (Cmd_MarshalRESP_run r w' _ s1 Hb1); cbn; rewrite Hwd;
          reflexivity|].
  cbn. rewrite <- app_assoc. repeat split. exact Hb.
Qed.

Lemma Cmd_first_Run_sends_constructed rcv cmd args conn c s :
  conn_target conn s = Some c ->
  exists err s',
    (p <- Cmd rcv cmd args ;;
     err <- RetryableCmd.Run p conn ;;
     ret (p, err)) s
    = (Ret (length (cmds s), err), s')
    /\ allocs s' = S (allocs s)
    /\ marshalled (trace s')
       = marshalled (trace s) ++ [RCmd (allocs s) rcv cmd args]
    /\ length (cmds s') = S (length (cmds s))
    /\ forall q, q < length (cmds s) -> cmds s' !! q = cmds s !! q.
Proof.
  intros Hc.
  set (s0 := set_cmds
               (cmds s ++ [mkCmd rcv cmd "" args
                              (Some (RCmd (allocs s) rcv cmd args))])
               (set_allocs (S (allocs s)) s)).
  assert (HF : Cmd rcv cmd args s = (Ret (length (cmds s)), s0))
    by reflexivity.
  assert (Ho : cmds s0 !! length (cmds s)
               = Some (mkCmd rcv cmd "" args
                         (Some (RCmd (allocs s) rcv cmd args))))
    by (cbn; apply list_lookup_middle; reflexivity).
  assert (Hc0 : conn_target conn s0 = Some c)
    by (rewrite <- Hc; apply conn_target_same; reflexivity).
  pose proof (Cmd_Run_run (length (cmds s)) conn c _ s0 Ho Hc0) as HR.
  unfold bind at 1. rewrite HF. unfold bind at 1.
  assert (Hfr : forall l x q,
             q < length (cmds s) ->
             (<[length (cmds s) := x]> (cmds s ++ l)) !! q = cmds s !! q).
  { intros l x q Hq. rewrite list_lookup_insert_ne by lia.
    apply lookup_app_l. exact Hq. }
  rewrite HR. subst s0. cbn.
  destruct (io_script (world s) (ios s)) as [e|];
    [|destruct (io_script (world s) (S (ios s))) as [e|]];
    do 2 eexists; (split; [reflexivity|]); cbn;
    rewrite ?marshalled_app, ?length_insert, ?length_app; cbn;
    rewrite ?app_nil_r; repeat split; try lia;
    intros q Hq; rewrite ?Hfr by exact Hq;
    first [reflexivity | apply lookup_app_l; exact Hq].
Qed.

(** One run on a healthy connection: marshal and flush succeed, the reply is
    unmarshalled, and the object is left unbound. *)
Lemma Cmd_Run_healthy r c o s :
  cmds s !! r = Some o ->
  io_script (world s) (ios s) = None ->
  io_script (world s) (S (ios s)) = None ->
  exists s1,
    RetryableCmd.Run r (RadixConn c) s
    = (Ret (io_script (world s) (S (S (ios s)))), s1)
    /\ trace s1 = trace s ++ [EvMarshal c (cmd_bound o (allocs s));
                              EvFlush c;
                              EvUnmarshal c (cmd_bound o (allocs s))]
    /\ cmds s1 !! r = Some (cmd_with o None)
    /\ allocs s1 = match cmd_inner o with
                   | Some _ => allocs s
                   | None => S (allocs s)
                   end
    /\ world s1 = world s
    /\ ios s1 = S (S (S (ios s)))
    /\ dials s1 = dials s
    /\ conns s1 = conns s
    /\ obs s1 = obs s.
Proof.
  intros Ho Hm Hf.
  assert (Hlt : r < length (cmds s)) by (eapply lookup_lt_Some; eauto).
  rewrite (Cmd_Run_run r (RadixConn c) c o s Ho eq_refl), Hm, Hf.
  eexists. split; [reflexivity|]. cbn.
  split; [reflexivity|]. split.
  { apply list_lookup_insert_eq. rewrite cmd_bind_state_length. exact Hlt. }
  unfold cmd_bind_state. destruct (cmd_inner o); repeat split.
Qed.

Lemma Cmd_Do_loading_run rc r c cfg errs :
  forall fuel o s res,
    conns s !! rc = Some (mkConn (Some c) (Some cfg)) ->
    cmds s !! r = Some o ->
    Forall loading errs ->
    (forall i, i <= length errs ->
               io_script (world s) (ios s + 3 * i) = None
               /\ io_script (world s) (ios s + 3 * i + 1) = None) ->
    (forall i e, errs !! i = Some e ->
                 io_script (world s) (ios s + 3 * i + 2) = Some e) ->
    io_script (world s) (ios s + 3 * length errs + 2) = res ->
    final res ->
    length errs < fuel ->
    exists s' evs,
      Do fuel rc (RetryableCmd.as_Action r) s = (Ret res, s')
      /\ trace s' = trace s ++ evs
      /\ marshalled evs
         = cmd_bound o (allocs s)
           :: map (cmd_fresh o)
                (seq (match cmd_inner o with
                      | Some _ => allocs s
                      | None => S (allocs s)
                      end) (length errs))
      /\ unmarshalled evs = marshalled evs
      /\ sleeps evs = repeat (Millisecond * 250)%Z (length errs)
      /\ retry_errors evs = match OnRetry cfg with
                            | Some _ => map Some errs
                            | None => []
                            end
      /\ dial_count evs = 0
      /\ closed evs = []
      /\ cmds s' !! r = Some (cmd_with o None)
      /\ allocs s' = match cmd_inner o with
                     | Some _ => allocs s
                     | None => S (allocs s)
                     end + length errs
      /\ conns s' = conns s.
Proof.
  induction errs as [|e errs IH];
    intros fuel o s res Hw Ho Hload Hok Hscript Hres Hfin Hfuel;
    (destruct fuel as [|fuel]; [cbn in Hfuel; lia|]);
    destruct (Hok 0 ltac:(lia)) as [Hm Hf];
    replace (ios s + 3 * 0) with (ios s) in Hm by lia;
    replace (ios s + 3 * 0 + 1) with (S (ios s)) in Hf by lia;
    destruct (Cmd_Run_healthy r c o s Ho Hm Hf)
      as (s1 & HR & Ht1 & Ho1 & Ha1 & Hwd1 & Hio1 & Hd1 & Hc1 & Hob1);
    rewrite (Do_turn fuel rc (RetryableCmd.as_Action r) _ c s Hw eq_refl);
    unfold radix.Do; cbn [Run RetryableCmd.as_Action]; rewrite HR.
  - cbn [length] in Hres.
    replace (ios s + 3 * 0 + 2) with (S (S (ios s))) in Hres by lia.
    rewrite Hres.
    exists s1, [EvMarshal c (cmd_bound o (allocs s)); EvFlush c;
                EvUnmarshal c (cmd_bound o (allocs s))].
    split.
    { destruct res as [e0|]; [destruct Hfin as [Hn Hp]; rewrite Hn, Hp|];
        reflexivity. }
    cbn. destruct (OnRetry cfg); repeat split; try assumption.
    all: rewrite Ha1; lia.
  - pose proof (Hscript 0 e eq_refl) as H0.
    replace (ios s + 3 * 0 + 2) with (S (S (ios s))) in H0 by lia.
    rewrite H0. apply Forall_cons in Hload as [[Hnet Hpre] Hload'].
    rewrite Hnet, Hpre.
    assert (Hw1 : conns s1 !! rc = Some (mkConn (Some c) (Some cfg)))
      by (rewrite Hc1; exact Hw).
    unfold bind at 1, load_conn. rewrite Hw1.
    unfold bind at 1. cbn [conf deref ret].
    set (s2 := snd ((match OnRetry cfg with
                     | Some cb => call (EvOnRetry (Some e)) cb (Some e)
                     | None => ret tt
                     end) s1)).
    set (s3 := set_trace (trace s2 ++ [EvSleep (Millisecond * 250)%Z]) s2).
    assert (Hstep : (((match OnRetry cfg with
                       | Some cb => call (EvOnRetry (Some e)) cb (Some e)
                       | None => ret tt
                       end) ;;
                      time_Sleep (Millisecond * 250)%Z ;;
                      Do fuel rc (RetryableCmd.as_Action r)) s1)
                    = Do fuel rc (RetryableCmd.as_Action r) s3).
    { subst s3 s2. destruct (OnRetry cfg); reflexivity. }
    rewrite Hstep.
    assert (Hs3 : conns s3 = conns s1 /\ world s3 = world s1
                  /\ ios s3 = ios s1 /\ allocs s3 = allocs s1
                  /\ cmds s3 = cmds s1
                  /\ trace s3 = trace s1
                                ++ match OnRetry cfg with
                                   | Some _ => [EvOnRetry (Some e)]
                                   | None => []
                                   end
                                ++ [EvSleep (Millisecond * 250)%Z]).
    { subst s3 s2. destruct (OnRetry cfg); cbn;
        rewrite <- ?app_assoc; repeat split. }
    destruct Hs3 as (Hc3 & Hwd3 & Hio3 & Ha3 & Hf3 & Ht3).
    destruct (IH fuel (cmd_with o None) s3 res)
      as (s' & evs & HD & Ht & Hma & Hum & Hsl & Hre & Hdc & Hcl & Ho' & Ha' & Hc').
    + rewrite Hc3. exact Hw1.
    + rewrite Hf3. exact Ho1.
    + exact Hload'.
    + intros i Hi. rewrite Hwd3, Hwd1, Hio3, Hio1.
      destruct (Hok (S i) ltac:(cbn; lia)) as [A B].
      replace (S (S (S (ios s))) + 3 * i) with (ios s + 3 * S i) by lia.
      split; assumption.
    + intros i e' Hi. rewrite Hwd3, Hwd1, Hio3, Hio1.
      replace (S (S (S (ios s))) + 3 * i + 2) with (ios s + 3 * S i + 2) by lia.
      apply Hscript. exact Hi.
    + rewrite Hwd3, Hwd1, Hio3, Hio1. rewrite <- Hres. f_equal. cbn. lia.
    + exact Hfin.
    + cbn in Hfuel. lia.
    + cbn [cmd_with cmd_inner cmd_bound] in Hma, Ha'.
      rewrite Ha3, Ha1 in Hma, Ha'.
      exists s', ([EvMarshal c (cmd_bound o (allocs s)); EvFlush c;
                   EvUnmarshal c (cmd_bound o (allocs s))]
                  ++ match OnRetry cfg with
                     | Some _ => [EvOnRetry (Some e)]
                     | None => []
                     end
                  ++ [EvSleep (Millisecond * 250)%Z] ++ evs).
      split; [exact HD|].
      rewrite !marshalled_app, !unmarshalled_app, !sleeps_app,
        !retry_errors_app, !dial_count_app, !closed_app,
        Hma, Hum, Hma, Hsl, Hre, Hdc, Hcl.
      split; [rewrite Ht, Ht3, Ht1, <- !app_assoc; reflexivity|].
      destruct (OnRetry cfg); cbn; repeat split;
        solve [ assumption | congruence | rewrite Ha'; cbn; lia ].
Qed.

(** *** Both wrappers *)

(** X8. [getInner] never answers nil and binds at most once: it allocates an
    action only when the object is unbound, a second call answers with the
    same action and changes nothing, and no call touches a connection. *)
Theorem getInner_binds_once :
  (forall r o s,
     flats s !! r = Some o ->
     exists a s1,
       RetryableFlatCmd.getInner r s = (Ret (Some a), s1)
       /\ RetryableFlatCmd.getInner r s1 = (Ret (Some a), s1)
       /\ a = flat_bound o (allocs s)
       /\ flats s1 !! r = Some (flat_with o (Some a))
       /\ allocs s1 = match flat_inner o with
                      | Some _ => allocs s
                      | None => S (allocs s)
                      end
       /\ trace s1 = trace s
       /\ ios s1 = ios s)
  /\
  (forall r o s,
     cmds s !! r = Some o ->
     exists a s1,
       RetryableCmd.getInner r s = (Ret (Some a), s1)
       /\ RetryableCmd.getInner r s1 = (Ret (Some a), s1)
       /\ a = cmd_bound o (allocs s)
       /\ cmds s1 !! r = Some (cmd_with o (Some a))
       /\ allocs s1 = match cmd_inner o with
                      | Some _ => allocs s
                      | None => S (allocs s)
                      end
       /\ trace s1 = trace s
       /\ ios s1 = ios s).
Proof.
  split.
  - exact Flat_getInner_binds_once.
  - exact Cmd_getInner_binds_once.
Qed.

(** X9. [Keys] reports the keys of the bound action, binding the object first
    when it is unbound; it touches no connection, can be repeated with the
    same answer and no further change, and the action it reported on is the
    one the next [MarshalRESP] sends, without another allocation. *)
Theorem Keys_binds :
  (forall r o s,
     flats s !! r = Some o ->
     exists s1,
       RetryableFlatCmd.Keys r s
       = (Ret (keys_script (world s) (flat_bound o (allocs s))), s1)
       /\ RetryableFlatCmd.Keys r s1
          = (Ret (keys_script (world s) (flat_bound o (allocs s))), s1)
       /\ flats s1 !! r = Some (flat_with o (Some (flat_bound o (allocs s))))
       /\ trace s1 = trace s
       /\ ios s1 = ios s
       /\ forall w,
          exists s2,
            RetryableFlatCmd.MarshalRESP r w s1
            = (Ret (io_script (world s) (ios s)), s2)
            /\ trace s2 = trace s ++ [EvMarshal w (flat_bound o (allocs s))]
            /\ allocs s2 = allocs s1)
  /\
  (forall r o s,
     cmds s !! r = Some o ->
     exists s1,
       RetryableCmd.Keys r s
       = (Ret (keys_script (world s) (cmd_bound o (allocs s))), s1)
       /\ RetryableCmd.Keys r s1
          = (Ret (keys_script (world s) (cmd_bound o (allocs s))), s1)
       /\ cmds s1 !! r = Some (cmd_with o (Some (cmd_bound o (allocs s))))
       /\ trace s1 = trace s
       /\ ios s1 = ios s
       /\ forall w,
          exists s2,
            RetryableCmd.MarshalRESP r w s1
            = (Ret (io_script (world s) (ios s)), s2)
            /\ trace s2 = trace s ++ [EvMarshal w (cmd_bound o (allocs s))]
            /\ allocs s2 = allocs s1).
Proof.
  split.
  - exact Flat_Keys_binds.
  - exact Cmd_Keys_binds.
Qed.

(** X10. [MarshalRESP] does not consume the binding: whatever the first marshal
    answered, a second one sends the same action again, the object stays bound
    to it and nothing is allocated in between. *)
Theorem MarshalRESP_keeps_binding :
  (forall r o s w w',
     flats s !! r = Some o ->
     exists s1 s2,
       RetryableFlatCmd.MarshalRESP r w s
       = (Ret (io_script (world s) (ios s)), s1)
       /\ RetryableFlatCmd.MarshalRESP r w' s1
          = (Ret (io_script (world s) (S (ios s))), s2)
       /\ trace s2 = trace s ++ [EvMarshal w (flat_bound o (allocs s));
                                 EvMarshal w' (flat_bound o (allocs s))]
       /\ flats s2 !! r = Some (flat_with o (Some (flat_bound o (allocs s))))
       /\ allocs s2 = allocs s1)
  /\
  (forall r o s w w',
     cmds s !! r = Some o ->
     exists s1 s2,
       RetryableCmd.MarshalRESP r w s
       = (Ret (io_script (world s) (ios s)), s1)
       /\ RetryableCmd.MarshalRESP r w' s1
          = (Ret (io_script (world s) (S (ios s))), s2)
       /\ trace s2 = trace s ++ [EvMarshal w (cmd_bound o (allocs s));
                                 EvMarshal w' (cmd_bound o (allocs s))]
       /\ cmds s2 !! r = Some (cmd_with o (Some (cmd_bound o (allocs s))))
       /\ allocs s2 = allocs s1).
Proof.
  split.
  - exact Flat_MarshalRESP_keeps_binding.
  - exact Cmd_MarshalRESP_keeps_binding.
Qed.

(** X11. The action a constructor allocates is the one the first [Run] sends:
    constructing a command and running it once allocates exactly one action,
    marshals exactly that one whether the run succeeds or fails, and leaves
    the objects that existed before as they were. *)
Theorem first_Run_sends_constructed :
  (forall rcv cmd key args conn c s,
     conn_target conn s = Some c ->
     exists err s',
       (p <- FlatCmd rcv cmd key args ;;
        err <- RetryableFlatCmd.Run p conn ;;
        ret (p, err)) s
       = (Ret (length (flats s), err), s')
       /\ allocs s' = S (allocs s)
       /\ marshalled (trace s')
          = marshalled (trace s) ++ [RFlatCmd (allocs s) rcv cmd key args]
       /\ length (flats s') = S (length (flats s))
       /\ forall q, q < length (flats s) -> flats s' !! q = flats s !! q)
  /\
  (forall rcv cmd args conn c s,
     conn_target conn s = Some c ->
     exists err s',
       (p <- Cmd rcv cmd args ;;
        err <- RetryableCmd.Run p conn ;;
        ret (p, err)) s
       = (Ret (length (cmds s), err), s')
       /\ allocs s' = S (allocs s)
       /\ marshalled (trace s')
          = marshalled (trace s) ++ [RCmd (allocs s) rcv cmd args]
       /\ length (cmds s') = S (length (cmds s))
       /\ forall q, q < length (cmds s) -> cmds s' !! q = cmds s !! q).
Proof.
  split.
  - exact Flat_first_Run_sends_constructed.
  - exact Cmd_first_Run_sends_constructed.
Qed.

(** X12. What the wrappers are for.  The server answers a command wrapper with
    the loading errors [errs], one per attempt, and then with nil or a
    terminal error, marshal and flush succeeding each time: [Do] returns that
    last answer, and every attempt has sent, and unmarshalled into, an action
    of its own, the bound one first and then one newly allocated from the
    stored parameters per retry.  It has slept 250ms after each loading error,
    dialled and closed nothing, and leaves the object unbound. *)
Theorem Do_resends_fresh_action :
  (forall rc r c cfg errs,
     forall fuel o s res,
       conns s !! rc = Some (mkConn (Some c) (Some cfg)) ->
       flats s !! r = Some o ->
       Forall loading errs ->
       (forall i, i <= length errs ->
                  io_script (world s) (ios s + 3 * i) = None
                  /\ io_script (world s) (ios s + 3 * i + 1) = None) ->
       (forall i e, errs !! i = Some e ->
                    io_script (world s) (ios s + 3 * i + 2) = Some e) ->
       io_script (world s) (ios s + 3 * length errs + 2) = res ->
       final res ->
       length errs < fuel ->
       exists s' evs,
         Do fuel rc (RetryableFlatCmd.as_Action r) s = (Ret res, s')
         /\ trace s' = trace s ++ evs
         /\ marshalled evs
            = flat_bound o (allocs s)
              :: map (flat_fresh o)
                   (seq (match flat_inner o with
                         | Some _ => allocs s
                         | None => S (allocs s)
                         end) (length errs))
         /\ unmarshalled evs = marshalled evs
         /\ sleeps evs = repeat (Millisecond * 250)%Z (length errs)
         /\ retry_errors evs = match OnRetry cfg with
                               | Some _ => map Some errs
                               | None => []
                               end
         /\ dial_count evs = 0
         /\ closed evs = []
         /\ flats s' !! r = Some (flat_with o None)
         /\ allocs s' = match flat_inner o with
                        | Some _ => allocs s
                        | None => S (allocs s)
                        end + length errs
         /\ conns s' = conns s)
  /\
  (forall rc r c cfg errs,
     forall fuel o s res,
       conns s !! rc = Some (mkConn (Some c) (Some cfg)) ->
       cmds s !! r = Some o ->
       Forall loading errs ->
       (forall i, i <= length errs ->
                  io_script (world s) (ios s + 3 * i) = None
                  /\ io_script (world s) (ios s + 3 * i + 1) = None) ->
       (forall i e, errs !! i = Some e ->
                    io_script (world s) (ios s + 3 * i + 2) = Some e) ->
       io_script (world s) (ios s + 3 * length errs + 2) = res ->
       final res ->
       length errs < fuel ->
       exists s' evs,
         Do fuel rc (RetryableCmd.as_Action r) s = (Ret res, s')
         /\ trace s' = trace s ++ evs
         /\ marshalled evs
            = cmd_bound o (allocs s)
              :: map (cmd_fresh o)
                   (seq (match cmd_inner o with
                         | Some _ => allocs s
                         | None => S (allocs s)
                         end) (length errs))
         /\ unmarshalled evs = marshalled evs
         /\ sleeps evs = repeat (Millisecond * 250)%Z (length errs)
         /\ retry_errors evs = match OnRetry cfg with
                               | Some _ => map Some errs
                               | None => []
                               end
         /\ dial_count evs = 0
         /\ closed evs = []
         /\ cmds s' !! r = Some (cmd_with o None)
         /\ allocs s' = match cmd_inner o with
                        | Some _ => allocs s
                        | None => S (allocs s)
                        end + length errs
         /\ conns s' = conns s).
Proof.
  split.
  - exact Flat_Do_loading_run.
  - exact Cmd_Do_loading_run.
Qed.

(** X13. The binding invariant: the bound action of an object, when there is one,
    was allocated earlier from the object's own receiver, command, key and
    arguments.  The constructors establish it and a completed [Run] keeps
    it. *)
Theorem binding_invariant :
  (forall rcv cmd key args s,
     exists s',
       FlatCmd rcv cmd key args s = (Ret (length (flats s)), s')
       /\ flats s' !! length (flats s)
          = Some (mkFlat rcv cmd key args (Some (RFlatCmd (allocs s) rcv cmd key args)))
       /\ flat_ok (mkFlat rcv cmd key args
                     (Some (RFlatCmd (allocs s) rcv cmd key args))) s')
  /\
  (forall r conn c o s err s',
     flats s !! r = Some o ->
     flat_ok o s ->
     conn_target conn s = Some c ->
     RetryableFlatCmd.Run r conn s = (Ret err, s') ->
     exists o', flats s' !! r = Some o' /\ flat_ok o' s')
  /\
  (forall rcv cmd args s,
     exists s',
       Cmd rcv cmd args s = (Ret (length (cmds s)), s')
       /\ cmds s' !! length (cmds s)
          = Some (mkCmd rcv cmd "" args (Some (RCmd (allocs s) rcv cmd args)))
       /\ cmd_ok (mkCmd rcv cmd "" args
                     (Some (RCmd (allocs s) rcv cmd args))) s')
  /\
  (forall r conn c o s err s',
     cmds s !! r = Some o ->
     cmd_ok o s ->
     conn_target conn s = Some c ->
     RetryableCmd.Run r conn s = (Ret err, s') ->
     exists o', cmds s' !! r = Some o' /\ cmd_ok o' s').
Proof.
  split; [exact FlatCmd_ok|]. split; [exact Flat_Run_keeps_ok|].
  split; [exact Cmd_ok|exact Cmd_Run_keeps_ok].
Qed.

(** ** Edges of the resilient connection *)

(** X14. A nil configuration makes [Reconnect] panic at its first use of
    [rc.conf], after the old connection, if any, has been closed and before
    anything is dialled; [Dial(nil)] therefore panics without dialling. *)
Theorem nil_config_panics :
  (forall rc cause i s,
     conns s !! rc = Some (mkConn i None) ->
     exists s',
       Reconnect rc cause s = (Panic, s')
       /\ trace s' = trace s ++ match i with Some c => [EvClose c] | None => [] end
       /\ dials s' = dials s
       /\ conns s' = conns s)
  /\ (forall s,
        exists s',
          Dial None s = (Panic, s')
          /\ trace s' = trace s
          /\ dials s' = dials s).
Proof.
  split.
  - intros rc cause i s Hw. unfold Reconnect, bind, load_conn. rewrite Hw.
    destruct i as [c|]; cbn; eexists; (split; [reflexivity|]); cbn;
      rewrite ?app_nil_r; repeat split.
  - intros s. unfold Dial, Reconnect, bind, new_conn, load_conn. cbn.
    rewrite list_lookup_middle by reflexivity. cbn.
    eexists. split; [reflexivity|]. split; reflexivity.
Qed.

(** X15. The dialer [ConnFunc] builds dials the network and address it is given
    with no dial options, once, and the wrapper it returns carries the two
    callbacks it was built with. *)
Theorem ConnFunc_dials onReconnect onRetry network addr s :
  exists s',
    ConnFunc onReconnect onRetry network addr s
    = (Ret (Some (RetryableConn (length (conns s))),
            dial_error (dial_script (world s) (dials s))), s')
    /\ trace s' = trace s
                  ++ match onReconnect with
                     | Some _ => [EvOnReconnect None]
                     | None => []
                     end
                  ++ [EvDial network addr []]
    /\ obs s' = match onReconnect with
                | Some cb => cb None (obs s)
                | None => obs s
                end
    /\ exists i,
         conns s' !! length (conns s)
         = Some (mkConn i (Some (mkDialConfig network addr onReconnect onRetry []))).
Proof.
  unfold ConnFunc.
  set (cfg := mkDialConfig network addr onReconnect onRetry []).
  set (s0 := set_conns (conns s ++ [mkConn None (Some cfg)]) s).
  assert (Hw : conns s0 !! length (conns s) = Some (mkConn None (Some cfg)))
    by (cbn; apply list_lookup_middle; reflexivity).
  destruct (Reconnect_run (length (conns s)) None _ cfg s0 Hw eq_refl)
    as (s' & HR & _ & _ & _ & _ & Hc & _ & _ & Htr & Hob).
  exists s'. split.
  { unfold Dial. unfold bind at 1, new_conn. fold s0.
    unfold bind at 1. rewrite HR. reflexivity. }
  split; [exact Htr|]. split; [exact Hob|].
  eexists. rewrite Hc. apply list_lookup_insert_eq.
  cbn. rewrite length_app. cbn. lia.
Qed.

(** ** The further properties at sample machines *)

Lemma Do_returns_only_terminal_errors_witness : terminal wrongtype_err.
Proof.
  eapply (Do_returns_only_terminal_errors 1 0 (radix.as_Action incr_test)
            (connected [] [Some wrongtype_err]) wrongtype_err).
  reflexivity.
Defined.

Lemma loading_err_loading : loading loading_err.
Proof. split; reflexivity. Defined.

Lemma Do_loading_replies_witness :
  exists s',
    Do 3 0 (radix.as_Action incr_test)
      (connected [] [Some loading_err; Some loading_err])
    = (Ret None, s')
    /\ sleeps (trace s') = [250000000%Z; 250000000%Z]
    /\ retry_errors (trace s') = [Some loading_err; Some loading_err]
    /\ ios s' = 3.
Proof.
  destruct (Do_loading_replies 0 incr_test 0 demo_cfg [loading_err; loading_err]
              3 (connected [] [Some loading_err; Some loading_err]) None)
    as (s' & evs & HD & Ht & _ & Hsl & Hre & _ & _ & Hio & _).
  - reflexivity.
  - repeat constructor.
  - intros [|[|i]] e Hi; cbn in Hi; inversion Hi; reflexivity.
  - reflexivity.
  - exact I.
  - cbn. lia.
  - exists s'. cbn in Ht. rewrite Ht, Hsl, Hre. repeat split; assumption.
Defined.

Lemma Do_reconnects_then_answers_witness :
  exists s',
    Do 3 0 (radix.as_Action incr_test)
      (connected [DialErr refused_err] [Some reset_err])
    = (Ret None, s')
    /\ closed (trace s') = [0]
    /\ sleeps (trace s') = [500000000%Z]
    /\ conns s' !! 0 = Some (mkConn (Some 2) (Some demo_cfg)).
Proof.
  destruct (Do_reconnects_then_answers 0 incr_test 0 demo_cfg reset_err
              [refused_err] 2
              (connected [DialErr refused_err] [Some reset_err]) None)
    as (s' & evs & HD & Ht & _ & Hcl & _ & Hsl & _ & _ & Hc).
  - reflexivity.
  - reflexivity.
  - reflexivity.
  - intros [|i] e Hi; cbn in Hi; inversion Hi; reflexivity.
  - reflexivity.
  - reflexivity.
  - exact I.
  - cbn. lia.
  - exists s'. cbn in Ht. rewrite Ht, Hcl, Hsl. repeat split; assumption.
Defined.

Lemma Do_blocks_while_unreachable_witness :
  exists s',
    Do 6 0 (radix.as_Action incr_test) (stranded [Some reset_err])
    = (OutOfFuel, s')
    /\ dials s' = 6.
Proof.
  destruct (Do_blocks_while_unreachable 0 (radix.as_Action incr_test) 0
              demo_cfg (mkConn (Some 0) (Some demo_cfg)) reset_err
              (stranded [Some reset_err])
              (snd (radix.Do 0 (radix.as_Action incr_test)
                      (stranded [Some reset_err])))
              eq_refl eq_refl eq_refl eq_refl eq_refl eq_refl)
    with (fuel := 5) as (s' & evs & HD & _ & Hd & _).
  - intros i. cbn. discriminate.
  - exists s'. split; [exact HD|exact Hd].
Defined.


Lemma Close_then_Do_reconnects_witness :
  exists s1 s',
    Close 0 (connected [] [None; Some reset_err]) = (Ret None, s1)
    /\ Do 2 0 (radix.as_Action incr_test) s1 = (Ret None, s')
    /\ conns s' !! 0 = Some (mkConn (Some 1) (Some demo_cfg)).
Proof.
  destruct (Close_then_Do_reconnects 0 incr_test 0 demo_cfg reset_err
              (connected [] [None; Some reset_err]) None
              eq_refl eq_refl eq_refl eq_refl eq_refl I)
    as (s1 & s' & HC & _ & _ & HD & _ & Hc).
  exists s1, s'. repeat split; assumption.
Defined.

Lemma Run_through_wrapper_witness :
  RetryableFlatCmd.Run 0 (RetryableConn 0) (with_hset [])
  = RetryableFlatCmd.Run 0 (RadixConn 0) (with_hset []).
Proof.
  apply (proj1 (Run_through_wrapper 0 (mkConn (Some 0) (Some demo_cfg))
                  (with_hset []) eq_refl) 0 hset_obj 0 eq_refl eq_refl).
Defined.

Lemma getInner_binds_once_witness :
  exists a s1,
    RetryableFlatCmd.getInner 0 (with_hset []) = (Ret (Some a), s1)
    /\ RetryableFlatCmd.getInner 0 s1 = (Ret (Some a), s1).
Proof.
  destruct (proj1 getInner_binds_once 0 hset_obj (with_hset []) eq_refl)
    as (a & s1 & H1 & H2 & _).
  exists a, s1. split; assumption.
Defined.

Lemma Keys_binds_witness :
  exists s1,
    RetryableCmd.Keys 0 (with_incr []) = (Ret ["test"], s1)
    /\ RetryableCmd.Keys 0 s1 = (Ret ["test"], s1).
Proof.
  destruct (proj2 Keys_binds 0 incr_obj (with_incr []) eq_refl)
    as (s1 & H1 & H2 & _).
  exists s1. split; assumption.
Defined.

Lemma MarshalRESP_keeps_binding_witness :
  exists s1 s2,
    RetryableFlatCmd.MarshalRESP 0 0 (with_hset [Some reset_err])
    = (Ret (Some reset_err), s1)
    /\ RetryableFlatCmd.MarshalRESP 0 1 s1 = (Ret None, s2)
    /\ flats s2 !! 0 = Some hset_obj.
Proof.
  destruct (proj1 MarshalRESP_keeps_binding 0 hset_obj
              (with_hset [Some reset_err]) 0 1 eq_refl)
    as (s1 & s2 & H1 & H2 & _ & H4 & _).
  exists s1, s2. repeat split; assumption.
Defined.

Lemma first_Run_sends_constructed_witness :
  exists err s',
    (p <- Cmd (VPtr 0) "INCR" ["test"] ;;
     err <- RetryableCmd.Run p (RetryableConn 0) ;;
     ret (p, err)) (dialled [] [])
    = (Ret (0, err), s')
    /\ allocs s' = 1
    /\ marshalled (trace s') = [RCmd 0 (VPtr 0) "INCR" ["test"]].
Proof.
  destruct (proj2 first_Run_sends_constructed (VPtr 0) "INCR" ["test"]
              (RetryableConn 0) 0 (dialled [] []) eq_refl)
    as (err & s' & H1 & H2 & H3 & _).
  exists err, s'. repeat split; assumption.
Defined.

Lemma Do_resends_fresh_action_witness :
  exists s' evs,
    Do 2 0 (RetryableCmd.as_Action 0)
      (with_incr [None; None; Some loading_err])
    = (Ret None, s')
    /\ marshalled evs
       = [RCmd 0 (VPtr 0) "INCR" ["test"]; RCmd 1 (VPtr 0) "INCR" ["test"]]
    /\ cmds s' !! 0 = Some (cmd_with incr_obj None).
Proof.
  destruct (proj2 Do_resends_fresh_action 0 0 0 demo_cfg [loading_err] 2
              incr_obj (with_incr [None; None; Some loading_err]) None)
    as (s' & evs & HD & _ & Hma & _ & _ & _ & _ & _ & Ho & _).
  - reflexivity.
  - reflexivity.
  - repeat constructor.
  - intros [|[|i]] Hi; [split; reflexivity|split; reflexivity|cbn in Hi; lia].
  - intros [|i] e Hi; cbn in Hi; inversion Hi; reflexivity.
  - reflexivity.
  - exact I.
  - cbn. lia.
  - exists s', evs. repeat split; assumption.
Defined.

Lemma binding_invariant_witness :
  exists o',
    flats (snd (RetryableFlatCmd.Run 0 (RadixConn 0) (with_hset []))) !! 0
    = Some o'
    /\ flat_ok o' (snd (RetryableFlatCmd.Run 0 (RadixConn 0) (with_hset []))).
Proof.
  apply (proj1 (proj2 binding_invariant) 0 (RadixConn 0) 0 hset_obj
           (with_hset []) None _ eq_refl (hset_obj_ok _) eq_refl).
  reflexivity.
Defined.

Lemma nil_config_panics_witness :
  exists s',
    Reconnect 0 None (set_conns [mkConn (Some 0) None] (dialled [] []))
    = (Panic, s')
    /\ trace s' = [EvClose 0]
    /\ dials s' = 1.
Proof.
  destruct (proj1 nil_config_panics 0 None (Some 0)
              (set_conns [mkConn (Some 0) None] (dialled [] [])) eq_refl)
    as (s' & H1 & H2 & H3 & _).
  exists s'. repeat split; assumption.
Defined.

(** ** The demo's [fill] *)

Lemma Do_answered_at_once fuel rc a c cfg s :
  conns s !! rc = Some (mkConn (Some c) cfg) ->
  final (io_script (world s) (ios s)) ->
  Do (S fuel) rc (radix.as_Action a) s
  = (Ret (io_script (world s) (ios s)),
     set_ios (S (ios s)) (set_trace (trace s ++ [EvRun (RadixConn c) a]) s)).
Proof.
  intros Hw Hfin.
  rewrite (Do_turn fuel rc (radix.as_Action a) _ c s Hw eq_refl).
  unfold radix.Do; cbn [Run radix.as_Action]; unfold radix.action_Run, io.
  destruct (io_script (world s) (ios s)) as [e|];
    [destruct Hfin as [Hn Hp]; rewrite Hn, Hp|]; reflexivity.
Qed.

(** X16. [fill] does not stop at an error: when each of its commands is answered
    at once, with nil or with a terminal error, it sends all of them through
    the wrapper in order of the counter, each as an action of its own, and
    neither sleeps nor dials. *)
Theorem fill_sends_every_command rc c cfg fuel n :
  forall i s,
    conns s !! rc = Some (mkConn (Some c) cfg) ->
    (forall j, j < n -> final (io_script (world s) (ios s + j))) ->
    exists s',
      fill_from (S fuel) (RetryableConn rc) i n s = (Ret tt, s')
      /\ trace s' = trace s ++ fill_events c (allocs s) i n
      /\ allocs s' = allocs s + n
      /\ ios s' = ios s + n
      /\ dials s' = dials s
      /\ conns s' = conns s.
Proof.
  induction n as [|n IH]; intros i s Hw Hfin.
  - exists s. cbn. rewrite app_nil_r, !Nat.add_0_r. repeat split.
  - cbn [fill_from Conn_Do]. unfold bind at 1, radix.FlatCmd.
    set (a := RFlatCmd (allocs s) VNil "HSET" "testing_h" [VInt i; VStr "wew"]).
    set (s0 := set_allocs (S (allocs s)) s).
    assert (Hw0 : conns s0 !! rc = Some (mkConn (Some c) cfg)) by exact Hw.
    assert (Hf0 : final (io_script (world s0) (ios s0))).
    { specialize (Hfin 0 ltac:(lia)). rewrite Nat.add_0_r in Hfin. exact Hfin. }
    unfold bind at 1. rewrite (Do_answered_at_once fuel rc a c cfg s0 Hw0 Hf0).
    set (s1 := set_ios _ _).
    destruct (IH (i + 1)%Z s1) as (s' & HF & Ht & Ha & Hio & Hd & Hc).
    + exact Hw.
    + intros j Hj. subst s1 s0.
      change (final (io_script (world s) (S (ios s) + j))).
      replace (S (ios s) + j) with (ios s + S j) by lia. apply Hfin. lia.
    + exists s'. split; [exact HF|]. subst s1 s0 a. cbn in *.
      rewrite Ht, Ha, Hio, <- app_assoc. repeat split; try assumption; lia.
Qed.

Lemma fill_sends_every_command_witness :
  exists s',
    fill_from 1 (RetryableConn 0) 0%Z 3
      (dialled [] [None; Some wrongtype_err; None])
    = (Ret tt, s')
    /\ trace s'
       = [EvRun (RadixConn 0)
            (RFlatCmd 0 VNil "HSET" "testing_h" [VInt 0; VStr "wew"]);
          EvRun (RadixConn 0)
            (RFlatCmd 1 VNil "HSET" "testing_h" [VInt 1; VStr "wew"]);
          EvRun (RadixConn 0)
            (RFlatCmd 2 VNil "HSET" "testing_h" [VInt 2; VStr "wew"])].
Proof.
  destruct (fill_sends_every_command 0 0 (Some demo_cfg) 0 3 0%Z
              (dialled [] [None; Some wrongtype_err; None]) eq_refl)
    as (s' & HF & Ht & _).
  - intros [|[|[|j]]] Hj; cbn; try exact I; try lia. split; reflexivity.
  - exists s'. split; [exact HF|exact Ht].
Defined.
